(** * DataTransferKit: rendezvous search and shared-domain map

    A shallow embedding of [DTK_Rendezvous_def.hpp] and
    [DTK_SharedDomainMap_def.hpp].

    Conventions of the embedding.
    - [double] values are exact rationals ([Q]); the only transcendental
      call of the code, [std::pow], is applied to an exponent that is the
      result of an integer division and is therefore an integral power.
      The expansion of the box in [getMeshInBox] is also given with every
      operation rounded to binary64 ([round_double]), for the one property
      that the rounding decides.
    - [GlobalOrdinal] is a template parameter; it is an integer type of a
      given width and signedness ([OrdinalType]) and its values are carried
      in [Z], with the conversion into the type written out
      ([ordinal_wrap]).
    - A [Teuchos::Array] is a [list]; indexing out of range, dereferencing
      the [end()] iterator of a map and a failed design-by-contract check end
      the computation ([Throw]).
    - The code is SPMD: a collective is a function of what every rank
      contributes (a list indexed by rank) and of the calling rank. *)

From Stdlib Require Import ZArith QArith Qminmax Qabs Lia Lqa.
From stdpp Require Import base option list gmap sorting.

(** ** Errors and the exception monad *)

Inductive DTKError : Type :=
| PreconditionError
| PostconditionError
| InvariantError
| AssertionError
| UndefinedBehaviour.

Inductive Result (A : Type) : Type :=
| Ok (a : A)
| Throw (e : DTKError).
Arguments Ok {A} a.
Arguments Throw {A} e.

Definition Result_bind {A B} (c : Result A) (k : A → Result B) : Result B :=
  match c with
  | Ok a => k a
  | Throw e => Throw e
  end.

#[global] Instance Result_ret : MRet Result := λ A a, Ok a.
#[global] Instance Result_mbind : MBind Result := λ A B k c, Result_bind c k.

(** Modelled from the spec: the design-by-contract checks are declared
    outside the sources; every check throws as soon as its condition is
    false. *)
Definition testPrecondition (c : bool) : Result unit :=
  if c then Ok tt else Throw PreconditionError.
Definition testPostcondition (c : bool) : Result unit :=
  if c then Ok tt else Throw PostconditionError.
Definition testInvariant (c : bool) : Result unit :=
  if c then Ok tt else Throw InvariantError.
Definition testAssertion (c : bool) : Result unit :=
  if c then Ok tt else Throw AssertionError.

(** [for ( n = 0; n < N; ++n ) body], or a loop over an iterator range,
    over the values [idx], threading the variables the body assigns. *)
Fixpoint for_each {I S : Type} (body : I → S → Result S) (idx : list I)
    (s : S) : Result S :=
  match idx with
  | [] => Ok s
  | n :: idx' => s' ← body n s; for_each body idx' s'
  end.

(** The same for a loop that produces one value per index. *)
Fixpoint for_collect {I A : Type} (body : I → Result A) (idx : list I)
    : Result (list A) :=
  match idx with
  | [] => Ok []
  | n :: idx' => x ← body n; xs ← for_collect body idx'; Ok (x :: xs)
  end.

(** ** Teuchos arrays *)

#[global] Instance Q_inhabited : Inhabited Q := populate 0%Q.

(** [a[i]] as an rvalue. *)
Definition array_get {A : Type} (a : list A) (i : nat) : Result A :=
  match a !! i with
  | Some x => Ok x
  | None => Throw UndefinedBehaviour
  end.

(** [a[i] = x]. *)
Definition array_set {A : Type} (a : list A) (i : nat) (x : A)
    : Result (list A) :=
  if decide (i < length a)%nat then Ok (<[i := x]> a)
  else Throw UndefinedBehaviour.

(** Index given by a [GlobalOrdinal] or [int] value. *)
Definition array_get_Z {A : Type} (a : list A) (i : Z) : Result A :=
  if decide (0 ≤ i)%Z then array_get a (Z.to_nat i)
  else Throw UndefinedBehaviour.

(** [Teuchos::Array::remove(i)]: erase the entry at index [i]. *)
Definition array_remove {A : Type} (i : Z) (a : list A) : Result (list A) :=
  if decide (0 ≤ i < Z.of_nat (length a))%Z then Ok (delete (Z.to_nat i) a)
  else Throw UndefinedBehaviour.

(** [std::remove( a.begin(), a.end(), v )] for a value type that is copied:
    the kept entries are compacted to the front in order, the entries from
    the returned bound on keep what they held, and the bound is returned as
    a distance from [begin()]. *)
Definition std_remove {A : Type} (is_v : A → bool) (a : list A)
    : list A * nat :=
  let kept := List.filter (λ x, negb (is_v x)) a in
  (kept ++ drop (length kept) a, length kept).

(** Writing [src] through a view of [dst]: the size of [dst] is kept. *)
Definition write_view {A : Type} (dst src : list A) : list A :=
  take (length dst) (src ++ drop (length src) dst).

(** [std::unordered_map::find( k )->second]. *)
Definition map_find (m : gmap Z Z) (k : Z) : Result Z :=
  match m !! k with
  | Some v => Ok v
  | None => Throw UndefinedBehaviour
  end.

(** ** Ordinal types *)

Record OrdinalType : Type := mkOrdinalType {
  ord_bits : Z;
  ord_signed : bool
}.

Definition Int32 : OrdinalType := mkOrdinalType 32 true.
Definition Int64 : OrdinalType := mkOrdinalType 64 true.
Definition UInt32 : OrdinalType := mkOrdinalType 32 false.
Definition UInt64 : OrdinalType := mkOrdinalType 64 false.

(** [std::numeric_limits<GlobalOrdinal>::max()]. *)
Definition ordinal_max (T : OrdinalType) : Z :=
  if ord_signed T then (2 ^ (ord_bits T - 1) - 1)%Z
  else (2 ^ ord_bits T - 1)%Z.

Definition ordinal_min (T : OrdinalType) : Z :=
  if ord_signed T then (- 2 ^ (ord_bits T - 1))%Z else 0%Z.

(** Conversion of an integer value into the ordinal type. *)
Definition ordinal_wrap (T : OrdinalType) (z : Z) : Z :=
  if ord_signed T
  then ((z + 2 ^ (ord_bits T - 1)) mod 2 ^ ord_bits T
        - 2 ^ (ord_bits T - 1))%Z
  else (z mod 2 ^ ord_bits T)%Z.

(** [x == -1] for [x] of the ordinal type, a type at least as wide as
    [int]: the literal is converted to the ordinal type. *)
Definition is_minus_one (T : OrdinalType) (x : Z) : bool :=
  (x =? ordinal_wrap T (-1))%Z.

(** ** Double arithmetic *)

(** The boxes and coordinates of the code are [double]s. The embedding
    computes with exact rationals; where the rounding of a [double] decides
    a property, the result of an operation is rounded with [round_double]:
    the nearest number with a significand of 53 bits, ties to even (IEEE
    754 binary64; the limits of the exponent range, overflow and
    subnormal numbers, are left out). *)

(** [a / (b * 2^e)] as a quotient of two integers. *)
Definition scaled (a b e : Z) : Z * Z :=
  if (0 <=? e)%Z then (a, (b * 2 ^ e)%Z) else ((a * 2 ^ (- e))%Z, b).

(** The exponent of the last place of [a / b] in a significand of 53 bits:
    the [e] with [2^52 <= a / (b * 2^e) < 2^53]. *)
Definition double_exponent (a b : Z) : Z :=
  let e := (Z.log2 a - Z.log2 b - 52)%Z in
  let '(p, r) := scaled a b e in
  if (p <? 2 ^ 52 * r)%Z then (e - 1)%Z else e.

(** The integer nearest to [p / r], the even one on a tie. *)
Definition nearest_even (p r : Z) : Z :=
  let f := (p / r)%Z in
  let rest := (p mod r)%Z in
  if (2 * rest <? r)%Z then f
  else if (r <? 2 * rest)%Z then (f + 1)%Z
  else if Z.even f then f else (f + 1)%Z.

Definition round_double (q : Q) : Q :=
  let a := Z.abs (Qnum q) in
  let b := Z.pos (Qden q) in
  if (a =? 0)%Z then 0%Q
  else
    let e := double_exponent a b in
    let '(p, r) := scaled a b e in
    let significand := nearest_even p r in
    let s := if (Qnum q <? 0)%Z then (- significand)%Z else significand in
    if (0 <=? e)%Z then inject_Z (s * 2 ^ e)
    else Qmake s (Z.to_pos (2 ^ (- e))).

(** ** Bounding boxes *)

(** Modelled from the spec: [DTK_BoundingBox] is not part of the sources.
    A box is its [Teuchos::Tuple<double,6>] of bounds
    (xmin, ymin, zmin, xmax, ymax, zmax). *)
Record BoundingBox : Type := mkBoundingBox {
  getBounds : list Q
}.

(** Modelled from the spec: point-in-box with closed intervals, on the axes
    the point has. *)
Definition pointInBox (box : BoundingBox) (point : list Q) : bool :=
  forallb
    (λ d, Qle_bool (getBounds box !!! d) (point !!! d)
          && Qle_bool (point !!! d) (getBounds box !!! (d + 3)%nat))
    (seq 0 (length point)).

(** Modelled from the spec: volume in a given dimension, the product of the
    extents of the first [dim] axes. *)
Definition volume (box : BoundingBox) (dim : Z) : Q :=
  foldl
    (λ v d, (v * (getBounds box !!! (d + 3)%nat - getBounds box !!! d))%Q)
    1%Q (seq 0 (Z.to_nat dim)).

(** Modelled from the spec: pairwise intersection, per axis the larger
    minimum and the smaller maximum. *)
Definition intersectBoxes (a b : BoundingBox) : bool * BoundingBox :=
  let lo d := Qmax (getBounds a !!! d) (getBounds b !!! d) in
  let hi d := Qmin (getBounds a !!! (d + 3)%nat) (getBounds b !!! (d + 3)%nat) in
  (forallb (λ d, Qle_bool (lo d) (hi d)) (seq 0 3),
   mkBoundingBox (map lo (seq 0 3) ++ map hi (seq 0 3))).

(** ** Meshes *)

(** Modelled from the spec: the mesh traits and [MeshTools] are not part of
    the sources. A mesh block is what they read from it: the vertices per
    element, the vertex ids, the coordinates blocked by dimension, the
    element ids and the connectivity blocked by vertex position. *)
Record MeshBlock : Type := mkMeshBlock {
  verticesPerElement : nat;
  verticesView : list Z;
  coordsView : list Q;          (* blocked: [coord[d*numVertices + n]] *)
  elementsView : list Z;
  connectivityView : list Z     (* blocked: [conn[i*numElements + e]] *)
}.

Definition numVertices (block : MeshBlock) : nat := length (verticesView block).
Definition numElements (block : MeshBlock) : nat := length (elementsView block).

(** Modelled from the spec: the mesh manager is not part of the sources. It
    holds its blocks, its dimension, the all-reduced element count and
    global box it reports, and the active-entity arrays that
    [setActiveVertices] and [setActiveElements] store per block. *)
Record MeshManager : Type := mkMeshManager {
  blocks : list MeshBlock;
  dim : Z;
  globalNumElements : Z;
  globalBoundingBox : BoundingBox;
  getActiveVertices : list (list bool);
  getActiveElements : list (list bool)
}.

Definition getNumBlocks (m : MeshManager) : nat := length (blocks m).

Definition setActiveVertices (m : MeshManager) (active : list bool)
    (block_id : nat) : MeshManager :=
  mkMeshManager (blocks m) (dim m) (globalNumElements m) (globalBoundingBox m)
    (<[block_id := active]> (resize (getNumBlocks m) [] (getActiveVertices m)))
    (getActiveElements m).

Definition setActiveElements (m : MeshManager) (active : list bool)
    (block_id : nat) : MeshManager :=
  mkMeshManager (blocks m) (dim m) (globalNumElements m) (globalBoundingBox m)
    (getActiveVertices m)
    (<[block_id := active]> (resize (getNumBlocks m) [] (getActiveElements m))).

(** Modelled from the spec: [MeshManager::getLocalVertexId] is not part of
    the sources; the position of the vertex id in the block's vertex
    array. *)
Definition getLocalVertexId (m : MeshManager) (b : nat) (vertex_gid : Z)
    : Result nat :=
  match blocks m !! b with
  | Some block =>
      match list_find (λ g, g = vertex_gid) (verticesView block) with
      | Some (i, _) => Ok i
      | None => Throw UndefinedBehaviour
      end
  | None => Throw UndefinedBehaviour
  end.

(** The point with index [n] of a blocked coordinate array of [num_points]
    points: [point[d] = coords[ d*num_points + n ]]. *)
Definition blocked_point (d_dimension : Z) (coords : list Q)
    (num_points n : nat) : Result (list Q) :=
  for_collect (λ d, array_get coords (d * num_points + n))
    (seq 0 (Z.to_nat d_dimension)).

(** ** Geometry traits *)

(** Modelled from the spec: the geometry traits are not part of the
    sources; [TopologyTools] consumes their point-in-geometry predicate. *)
Class GeometryTraits (Geometry : Type) : Type := {
  pointInGeometry : Geometry → list Q → Q → bool
}.

(** Modelled from the spec: [TopologyTools::elementInGeometry] is not part
    of the sources. With [all_vertices_for_inclusion] every node of
    [node_coords] has to lie in the geometry within the tolerance,
    otherwise one node has to. *)
Definition elementInGeometry `{GeometryTraits Geometry} (geometry : Geometry)
    (node_coords : list (list Q)) (tolerance : Q)
    (all_vertices_for_inclusion : bool) : bool :=
  if all_vertices_for_inclusion
  then forallb (λ p, pointInGeometry geometry p tolerance) node_coords
  else existsb (λ p, pointInGeometry geometry p tolerance) node_coords.

(** An axis-aligned box as a geometry: a point is in it when it is in the
    box enlarged by the tolerance on every face. *)
#[global] Instance Box_GeometryTraits : GeometryTraits BoundingBox := {
  pointInGeometry box p tolerance :=
    forallb
      (λ d, Qle_bool (getBounds box !!! d - tolerance) (p !!! d)
            && Qle_bool (p !!! d) (getBounds box !!! (d + 3)%nat + tolerance))
      (seq 0 (length p))
}.

(** ** The rendezvous engine *)

Module Rendezvous.

(** Modelled from the spec: the partitioner is not part of the sources; it
    answers [getPointDestinationProc]. *)
Definition Partitioner : Type := list Q → Z.

(** Modelled from the spec: the element tree is not part of the sources;
    [findPoint( point, element, tol )] either confirms one element, whose
    id it stores, or returns false. *)
Definition ElementTree : Type := list Q → Q → option Z.

Record t : Type := mk {
  d_dimension : Z;
  d_global_box : BoundingBox;
  d_partitioner : option Partitioner;
  d_rendezvous_mesh_manager : option MeshManager;
  d_element_tree : option ElementTree;
  d_element_src_procs_map : gmap Z Z
}.

(** What the parts of [build] that are collective over the mesh (the
    partitioner factory, [sendMeshToRendezvous] and the tree constructor)
    leave on one rank. *)
Record Migration : Type := mkMigration {
  mig_partitioner : Partitioner;
  mig_mesh_manager : MeshManager;
  mig_element_tree : ElementTree;
  mig_element_src_procs_map : gmap Z Z
}.

(** Constructor: no mesh yet. *)
Definition new (dimension : Z) (global_box : BoundingBox) : t :=
  mk dimension global_box None None None ∅.

(** Modelled from the spec: the accessor [getBox] is declared in the class
    header, which is not part of the sources; it returns the stored box. *)
Definition getBox (r : t) : BoundingBox := d_global_box r.

Definition set_global_box (r : t) (box : BoundingBox) : t :=
  mk (d_dimension r) box (d_partitioner r) (d_rendezvous_mesh_manager r)
    (d_element_tree r) (d_element_src_procs_map r).

(** [procsContainingPoints]. *)
Definition procsContainingPoints (r : t) (coords : list Q)
    : Result (list Z) :=
  let num_points := Z.to_nat (Z.of_nat (length coords) ÷ d_dimension r) in
  match d_partitioner r with
  | None => Throw UndefinedBehaviour
  | Some partitioner =>
      for_collect
        (λ n, point ← blocked_point (d_dimension r) coords num_points n;
              Ok (partitioner point))
        (seq 0 num_points)
  end.

(** [elementsContainingPoints]. *)
Definition elementsContainingPoints (T : OrdinalType) (r : t)
    (coords : list Q) (elements : list Z) (element_src_procs : list Z)
    (tolerance : Q) : Result (list Z * list Z) :=
  let num_points := Z.to_nat (Z.of_nat (length coords) ÷ d_dimension r) in
  let elements := resize num_points 0%Z elements in
  let element_src_procs := resize num_points 0%Z element_src_procs in
  match d_element_tree r with
  | None => Throw UndefinedBehaviour
  | Some findPoint =>
      for_each
        (λ n '(elements, element_src_procs),
           point ← blocked_point (d_dimension r) coords num_points n;
           match findPoint point tolerance with
           | Some element_ordinal =>
               elements ← array_set elements n element_ordinal;
               src ← map_find (d_element_src_procs_map r) element_ordinal;
               element_src_procs ← array_set element_src_procs n src;
               Ok (elements, element_src_procs)
           | None =>
               elements ← array_set elements n (ordinal_max T);
               element_src_procs ← array_set element_src_procs n (-1)%Z;
               Ok (elements, element_src_procs)
           end)
        (seq 0 num_points) (elements, element_src_procs)
  end.

(** [elementsInGeometry]. [block_verts_per_elem] is declared with the value
    0 and no statement of the function assigns it. *)
Definition elementsInGeometry `{GeometryTraits Geometry} (r : t)
    (geometry : list Geometry) (elements : list (list Z)) (tolerance : Q)
    (all_vertices_for_inclusion : bool) : Result (list (list Z)) :=
  let elements := resize (length geometry) [] elements in
  match d_rendezvous_mesh_manager r with
  | None => Throw UndefinedBehaviour
  | Some mesh_manager =>
      let num_blocks := getNumBlocks mesh_manager in
      let block_verts_per_elem := 0%nat in
      for_each
        (λ b elements,
           block ← array_get (blocks mesh_manager) b;
           let block_num_elements := numElements block in
           let block_vertex_coords := coordsView block in
           let block_element_gids := elementsView block in
           let block_connectivity := connectivityView block in
           let block_num_vertices := numVertices block in
           for_each
             (λ e elements,
                node_coords ←
                  for_collect
                    (λ n,
                       vertex_gid ←
                         array_get block_connectivity
                           (n * block_num_elements + e);
                       vertex_lid ← getLocalVertexId mesh_manager b vertex_gid;
                       for_collect
                         (λ d, array_get block_vertex_coords
                                 (block_num_vertices * d + vertex_lid))
                         (seq 0 (Z.to_nat (dim mesh_manager))))
                    (seq 0 block_verts_per_elem);
                gid ← array_get block_element_gids e;
                Ok (imap
                      (λ g found,
                         match geometry !! g with
                         | Some geom =>
                             if elementInGeometry geom node_coords tolerance
                                  all_vertices_for_inclusion
                             then found ++ [gid] else found
                         | None => found
                         end)
                      elements))
             (seq 0 block_num_elements) elements)
        (seq 0 num_blocks) elements
  end.

(** The first statements of [getMeshInBox]: the exponent is the quotient of
    two [int]s, converted to [double] afterwards. *)
Definition typical_length_exponent (d_dimension : Z) : Z := 1 ÷ d_dimension.

Definition typical_length (d_global_box : BoundingBox) (d_dimension : Z)
    (global_num_elements : Z) : Q :=
  let box_volume := volume d_global_box d_dimension in
  let pow := typical_length_exponent d_dimension in
  Qpower (box_volume / inject_Z global_num_elements) pow.

Definition tol : Q := 1 # 10000.

Definition expanded_bounds (d_global_box : BoundingBox) (d_dimension : Z)
    (global_num_elements : Z) : list Q :=
  let typical_length :=
    typical_length d_global_box d_dimension global_num_elements in
  foldl
    (λ box_bounds d,
       let box_bounds :=
         <[d := (box_bounds !!! d - (typical_length + tol))%Q]> box_bounds in
       <[(d + 3)%nat :=
           (box_bounds !!! (d + 3)%nat + (typical_length + tol))%Q]>
         box_bounds)
    (getBounds d_global_box) (seq 0 (Z.to_nat d_dimension)).

(** The vertex loop of [getMeshInBox] for one block: the index of every
    vertex id and the in-box flag of every vertex. *)
Definition vertices_in_box_loop (d_dimension : Z) (d_global_box : BoundingBox)
    (block : MeshBlock) : Result (gmap Z Z * list bool) :=
  let num_vertices := numVertices block in
  for_each
    (λ n '(vertex_indices, vertices_in_box),
       gid ← array_get (verticesView block) n;
       vertex_coords ←
         blocked_point d_dimension (coordsView block) num_vertices n;
       Ok (<[gid := Z.of_nat n]> vertex_indices,
           vertices_in_box ++ [pointInBox d_global_box vertex_coords]))
    (seq 0 num_vertices) (∅, []).

(** The element loop of [getMeshInBox] for one block. Each iteration decides
    the element from the current vertex flags and then, for an element in
    the box, sets the flags of its vertices. *)
Definition elements_in_box_loop (block : MeshBlock) (vertex_indices : gmap Z Z)
    (vertices_in_box : list bool) : Result (list bool * list bool) :=
  let num_elements := numElements block in
  let vertices_per_element := verticesPerElement block in
  for_each
    (λ n '(vertices_in_box, elements_in_box),
       this_element_in_box ←
         for_each
           (λ i this_element_in_box,
              vertex_ordinal ←
                array_get (connectivityView block) (i * num_elements + n);
              vertex_index ← map_find vertex_indices vertex_ordinal;
              flag ← array_get_Z vertices_in_box vertex_index;
              Ok (if flag : bool then true else this_element_in_box))
           (seq 0 vertices_per_element) false;
       let elements_in_box := elements_in_box ++ [this_element_in_box] in
       vertices_in_box ←
         (if this_element_in_box : bool
          then
            for_each
              (λ i vertices_in_box,
                 vertex_ordinal ←
                   array_get (connectivityView block) (i * num_elements + n);
                 vertex_index ← map_find vertex_indices vertex_ordinal;
                 if decide (0 ≤ vertex_index)%Z
                 then array_set vertices_in_box (Z.to_nat vertex_index) true
                 else Throw UndefinedBehaviour)
              (seq 0 vertices_per_element) vertices_in_box
          else Ok vertices_in_box);
       Ok (vertices_in_box, elements_in_box))
    (seq 0 num_elements) (vertices_in_box, []).

(** The body of the block loop of [getMeshInBox]: both loops read the box
    that the engine stores when they run. *)
Definition block_in_box (r : t) (block : MeshBlock)
    : Result (list bool * list bool) :=
  '(vertex_indices, vertices_in_box) ←
    vertices_in_box_loop (d_dimension r) (d_global_box r) block;
  elements_in_box_loop block vertex_indices vertices_in_box.

(** [getMeshInBox]: the stored box is replaced by the expanded one, then
    every block is filtered against the stored box. *)
Definition getMeshInBox (r : t) (mesh_manager : MeshManager)
    : Result (t * MeshManager) :=
  let box_bounds :=
    expanded_bounds (d_global_box r) (d_dimension r)
      (globalNumElements mesh_manager) in
  let r := set_global_box r (mkBoundingBox box_bounds) in
  mesh_manager ←
    for_each
      (λ block_id mesh_manager,
         block ← array_get (blocks mesh_manager) block_id;
         '(vertices_in_box, elements_in_box) ← block_in_box r block;
         let mesh_manager :=
           setActiveVertices mesh_manager vertices_in_box block_id in
         Ok (setActiveElements mesh_manager elements_in_box block_id))
      (seq 0 (getNumBlocks mesh_manager)) mesh_manager;
  Ok (r, mesh_manager).

(** [build]. The partitioner, the migrated mesh, its source-rank map and the
    tree are what the collective part leaves on this rank. *)
Definition build (migration : Migration) (r : t)
    (mesh_manager : option MeshManager) : Result (t * option MeshManager) :=
  '(r, mesh_manager) ←
    match mesh_manager with
    | Some m => '(r, m) ← getMeshInBox r m; Ok (r, Some m)
    | None => Ok (r, None)
    end;
  Ok (mk (d_dimension r) (d_global_box r) (Some (mig_partitioner migration))
        (Some (mig_mesh_manager migration))
        (Some (mig_element_tree migration))
        (mig_element_src_procs_map migration),
      mesh_manager).

(** The first statements of [getMeshInBox] once more, with every operation
    rounded as the [double]s of the code round it.

    Modelled from the spec: [BoundingBox::volume] is not part of the
    sources; the extents are multiplied axis by axis. *)
Definition volume_double (box : BoundingBox) (dim : Z) : Q :=
  foldl
    (λ v d,
       round_double
         (v * round_double
                (getBounds box !!! (d + 3)%nat - getBounds box !!! d)))
    1%Q (seq 0 (Z.to_nat dim)).

(** [std::pow] is exact for the exponents 0 and 1, the only ones a positive
    dimension gives. *)
Definition typical_length_double (d_global_box : BoundingBox) (d_dimension : Z)
    (global_num_elements : Z) : Q :=
  let box_volume := volume_double d_global_box d_dimension in
  let pow := typical_length_exponent d_dimension in
  Qpower
    (round_double (box_volume / round_double (inject_Z global_num_elements)))
    pow.

Definition expanded_bounds_double (d_global_box : BoundingBox)
    (d_dimension : Z) (global_num_elements : Z) : list Q :=
  let tol := round_double tol in
  let typical_length :=
    typical_length_double d_global_box d_dimension global_num_elements in
  foldl
    (λ box_bounds d,
       let box_bounds :=
         <[d := round_double
                  (box_bounds !!! d - round_double (typical_length + tol))]>
           box_bounds in
       <[(d + 3)%nat :=
           round_double
             (box_bounds !!! (d + 3)%nat
              + round_double (typical_length + tol))]>
         box_bounds)
    (getBounds d_global_box) (seq 0 (Z.to_nat d_dimension)).

(** [getMeshInBox] and [build] with the arithmetic of the expansion as a
    parameter: [expanded_bounds] gives the functions above,
    [expanded_bounds_double] the same statements in [double]. *)
Definition getMeshInBox_in (expand : BoundingBox → Z → Z → list Q) (r : t)
    (mesh_manager : MeshManager) : Result (t * MeshManager) :=
  let box_bounds :=
    expand (d_global_box r) (d_dimension r)
      (globalNumElements mesh_manager) in
  let r := set_global_box r (mkBoundingBox box_bounds) in
  mesh_manager ←
    for_each
      (λ block_id mesh_manager,
         block ← array_get (blocks mesh_manager) block_id;
         '(vertices_in_box, elements_in_box) ← block_in_box r block;
         let mesh_manager :=
           setActiveVertices mesh_manager vertices_in_box block_id in
         Ok (setActiveElements mesh_manager elements_in_box block_id))
      (seq 0 (getNumBlocks mesh_manager)) mesh_manager;
  Ok (r, mesh_manager).

Definition build_in (expand : BoundingBox → Z → Z → list Q)
    (migration : Migration) (r : t) (mesh_manager : option MeshManager)
    : Result (t * option MeshManager) :=
  '(r, mesh_manager) ←
    match mesh_manager with
    | Some m => '(r, m) ← getMeshInBox_in expand r m; Ok (r, Some m)
    | None => Ok (r, None)
    end;
  Ok (mk (d_dimension r) (d_global_box r) (Some (mig_partitioner migration))
        (Some (mig_mesh_manager migration))
        (Some (mig_element_tree migration))
        (mig_element_src_procs_map migration),
      mesh_manager).

(** [elementSourceProcs]: one source rank per element, read from the
    element-to-source-rank map. *)
Definition elementSourceProcs (r : t) (elements : list Z) : Result (list Z) :=
  for_collect (λ element, map_find (d_element_src_procs_map r) element)
    elements.

End Rendezvous.

(** ** Fields *)

(** Modelled from the spec: the field traits and [FieldTools] are not part
    of the sources. A field is its dimension and its blocked data. *)
Record FieldContainer : Type := mkFieldContainer {
  field_dim : Z;
  field_data : list Q
}.

(** Modelled from the spec: [FieldTools::dimSize], the number of entries per
    dimension. *)
Definition dimSize (f : FieldContainer) : Z :=
  Z.of_nat (length (field_data f)) ÷ field_dim f.

(** Modelled from the spec: [FieldTools::putScalar] sets every entry of the
    field. *)
Definition putScalar (f : FieldContainer) (x : Q) : FieldContainer :=
  mkFieldContainer (field_dim f) (replicate (length (field_data f)) x).

(** The field evaluator: called with element ids and blocked coordinates. A
    function, so deterministic and without access to the map. *)
Definition FieldEvaluator : Type := list Z → list Q → FieldContainer.

(** ** Communication *)

(** [Teuchos::reduceAll] with [REDUCE_MAX] over what every rank
    contributes. *)
Definition reduceAll_max (contributions : list Z) : Z :=
  match contributions with
  | [] => 0%Z
  | x :: xs => foldl Z.max x xs
  end.

(** Modelled from the spec: the communication indexer is not part of the
    sources. [l2g(0)] is the parent rank of rank 0 of the sub-communicator,
    here the first parent rank on which the manager exists; the broadcasts
    rooted there have no valid root when it exists nowhere. *)
Definition l2g_0 {A : Type} (managers : list (option A)) : Result nat :=
  match list_find (λ m, is_Some m) managers with
  | Some (root, _) => Ok root
  | None => Throw UndefinedBehaviour
  end.

(** Modelled from the spec: the distributed linear algebra library is
    outside the sources. The distributor is the inverse-communication
    primitive of the design notes; maps, multivectors and exports are the
    library's, reduced to what [setup] and [apply] use. *)
Module Tpetra.

(** A map of global ordinals is the list of ordinals each rank holds. *)
Abbreviation Map := (list Z).

(** The distributor primitive: every sender knows the destination rank of
    each of its items; each destination receives the items sent to it, by
    sending rank and in the order the sender listed them. The plan is the
    argument of [createFromSends] on every rank. *)
Abbreviation Distributor := (list (list Z)).

Definition arrivals {A : Type} (plan : Distributor) (exports : list (list A))
    (me : nat) : list (nat * A) :=
  mjoin
    (imap
       (λ s export_procs,
          omap
            (λ '(p, x), if decide (p = Z.of_nat me) then Some (s, x) else None)
            (zip export_procs (default [] (exports !! s))))
       plan).

(** [createFromSends]: the number of items this rank will receive. *)
Definition createFromSends (plan : Distributor) (me : nat) : nat :=
  length (arrivals plan plan me).

(** [doPostsAndWaits( exports, 1, imports )]: the received items are written
    through the view [imports]. *)
Definition doPostsAndWaits {A : Type} (plan : Distributor)
    (exports : list (list A)) (me : nat) (imports : list A) : list A :=
  write_view imports (snd <$> arrivals plan exports me).

(** [getImagesFrom] and [getLengthsFrom]: the ranks this rank receives from
    and how many items each of them sends. *)
Definition lengthFrom (plan : Distributor) (me s : nat) : nat :=
  length (List.filter (λ p, bool_decide (p = Z.of_nat me))
            (default [] (plan !! s))).

Definition getImagesFrom (plan : Distributor) (me : nat) : list nat :=
  List.filter (λ s, negb (lengthFrom plan me s =? 0)%nat) (seq 0 (length plan)).

Definition getLengthsFrom (plan : Distributor) (me : nat) : list nat :=
  lengthFrom plan me <$> getImagesFrom plan me.

(** A multivector on a view: entry [i] of vector [d] is [data[d*lda + i]]. *)
Record MultiVector : Type := mkMultiVector {
  mv_data : list Q;
  mv_lda : nat;
  mv_num_vectors : nat
}.

(** An export plan between two maps, each given by what every rank
    holds. *)
Record Export : Type := mkExport {
  exp_source_map : list Map;
  exp_target_map : list Map
}.

(** The rank and the local index that hold a global ordinal. *)
Definition locate (maps : list Map) (gid : Z) : option (nat * nat) :=
  '(s, m) ← list_find (λ m : Map, gid ∈ m) maps;
  '(i, _) ← list_find (λ g, g = gid) m;
  Some (s, i).

(** What the export delivers for entry [j] of vector [d] of the target on
    rank [me], when the source holds the ordinal of that entry. *)
Definition exported_value (exporter : Export) (source : list MultiVector)
    (me j d : nat) : option Q :=
  gid ← default [] (exp_target_map exporter !! me) !! j;
  '(s, i) ← locate (exp_source_map exporter) gid;
  v ← source !! s;
  mv_data v !! (d * mv_lda v + i)%nat.

(** [target.doExport( source, exporter, INSERT )] on rank [me]: the entries
    whose ordinal the source holds are overwritten, the others are left as
    they are. *)
Definition doExport (exporter : Export) (source : list MultiVector)
    (me : nat) (target : MultiVector) : MultiVector :=
  let num_local := length (default [] (exp_target_map exporter !! me)) in
  mkMultiVector
    (foldl
       (λ data d,
          foldl
            (λ data j,
               match exported_value exporter source me j d with
               | Some x => <[(d * mv_lda target + j)%nat := x]> data
               | None => data
               end)
            data (seq 0 num_local))
       (mv_data target) (seq 0 (mv_num_vectors target)))
    (mv_lda target) (mv_num_vectors target).

End Tpetra.

(** ** The rendezvous engine: where the mesh goes *)

Module RendezvousImport.
Import Rendezvous.

(** Modelled from the spec: [DTK_CHECK] is declared outside the sources; it
    is an internal consistency check that throws when its condition is
    false. *)
Definition DTK_CHECK (c : bool) : Result unit :=
  if c then Ok tt else Throw InvariantError.

(** [p->member] for a reference-counted pointer. *)
Definition rcp_deref {A : Type} (p : option A) : Result A :=
  match p with
  | Some x => Ok x
  | None => Throw UndefinedBehaviour
  end.

(** [a[i] = x] for an index held in an ordinal. *)
Definition array_set_Z {A : Type} (a : list A) (i : Z) (x : A)
    : Result (list A) :=
  if decide (0 ≤ i)%Z then array_set a (Z.to_nat i) x
  else Throw UndefinedBehaviour.

(** A [std::set] of integers is a finite set; its iterators visit it in
    ascending order. *)
Definition set_begin_end (s : gset Z) : list Z :=
  merge_sort Z.le (elements s).

(** The loops [indices[ *iterator ] = array_index; ++array_index] over the
    ids of a block. *)
Definition index_map (ids : list Z) : gmap Z Z :=
  (foldl
     (λ '(indices, array_index) id,
        (<[id := array_index]> indices, (array_index + 1)%Z))
     (∅, 0%Z) ids).1.

(** The local block data: the counts are 0 and the views are empty on a
    rank where the block does not exist. *)
Definition block_data (mesh : option MeshBlock) : MeshBlock :=
  match mesh with
  | Some block => block
  | None => mkMeshBlock 0 [] [] [] []
  end.

(** The rendezvous rank of every local vertex. *)
Definition vertex_procs (r : t) (block : MeshBlock) : Result (list Z) :=
  let num_vertices := numVertices block in
  for_collect
    (λ n,
       vertex_coords ←
         blocked_point (d_dimension r) (coordsView block) num_vertices n;
       partitioner ← rcp_deref (d_partitioner r);
       Ok (partitioner vertex_coords))
    (seq 0 num_vertices).

(** The destination ranks of every local element: an element in the box
    goes to the rank of each of its vertices. *)
Definition export_element_procs_set (block : MeshBlock)
    (elements_in_box : list bool) (vertex_indices : gmap Z Z)
    (vertex_procs : list Z) : Result (list (gset Z)) :=
  let num_elements := numElements block in
  let vertices_per_element := verticesPerElement block in
  for_each
    (λ n export_element_procs_set,
       in_box ← array_get elements_in_box n;
       if in_box : bool
       then
         for_each
           (λ i export_element_procs_set,
              vertex_ordinal ←
                array_get (connectivityView block) (i * num_elements + n);
              vertex_index ← map_find vertex_indices vertex_ordinal;
              proc ← array_get_Z vertex_procs vertex_index;
              procs ← array_get export_element_procs_set n;
              array_set export_element_procs_set n ({[proc]} ∪ procs))
           (seq 0 vertices_per_element) export_element_procs_set
       else Ok export_element_procs_set)
    (seq 0 num_elements) (replicate num_elements ∅).

(** The vector of sets unrolled into (id, destination) pairs: the ids in
    their order, the destinations of one id in ascending order. *)
Definition unroll (ids : list Z) (procs_set : list (gset Z)) : list (Z * Z) :=
  mjoin (zip_with (λ id procs, pair id <$> set_begin_end procs) ids procs_set).

(** The first, local part of [setupImportCommunication]: the exported
    elements and the destination rank of each. *)
Definition export_elements (r : t) (mesh : option MeshBlock)
    (elements_in_box : list bool) : Result (list Z * list Z) :=
  let block := block_data mesh in
  let vertex_indices := index_map (verticesView block) in
  vertex_procs ← vertex_procs r block;
  export_element_procs_set ←
    export_element_procs_set block elements_in_box vertex_indices vertex_procs;
  let exports :=
    match mesh with
    | Some mesh => unroll (elementsView mesh) export_element_procs_set
    | None => []
    end in
  Ok (exports.*1, exports.*2).

(** The source rank of every received item, replayed from the images and
    lengths of the distributor. *)
Definition src_procs (plan : Tpetra.Distributor) (me : nat) : list Z :=
  let from_images := Tpetra.getImagesFrom plan me in
  let from_lengths := Tpetra.getLengthsFrom plan me in
  mjoin
    (zip_with (λ image len, replicate len (Z.of_nat image))
       from_images from_lengths).

(** The received elements are moved into a set; the first arrival of an
    element records its source rank in the element-to-source-rank map. *)
Definition rendezvous_elements_set (d_element_src_procs_map : gmap Z Z)
    (import_elements : list Z) (element_src_procs : list Z)
    : Result (gset Z * gmap Z Z) :=
  for_each
    (λ n '(rendezvous_elements_set, d_element_src_procs_map),
       element ← array_get import_elements n;
       if bool_decide (element ∉ rendezvous_elements_set)
       then
         src ← array_get element_src_procs n;
         Ok ({[element]} ∪ rendezvous_elements_set,
             <[element := src]> d_element_src_procs_map)
       else Ok (rendezvous_elements_set, d_element_src_procs_map))
    (seq 0 (length import_elements)) (∅, d_element_src_procs_map).

(** The receiving side of the element distributor on rank [me]: the engine
    with its updated map, and the rendezvous elements. *)
Definition import_elements (r : t) (element_distributor : Tpetra.Distributor)
    (export_elements : list (list Z)) (me : nat) : Result (t * list Z) :=
  let num_import_elements :=
    Tpetra.createFromSends element_distributor me in
  let import_elements :=
    Tpetra.doPostsAndWaits element_distributor export_elements me
      (replicate num_import_elements 0%Z) in
  let element_src_procs := src_procs element_distributor me in
  _ ← DTK_CHECK (length element_src_procs =? num_import_elements)%nat;
  '(rendezvous_elements_set, src_procs_map) ←
    rendezvous_elements_set (d_element_src_procs_map r) import_elements
      element_src_procs;
  Ok (mk (d_dimension r) (d_global_box r) (d_partitioner r)
        (d_rendezvous_mesh_manager r) (d_element_tree r) src_procs_map,
      set_begin_end rendezvous_elements_set).

(** The destination ranks of every local vertex: a vertex goes wherever an
    element it belongs to goes. *)
Definition export_vertex_procs_set (block : MeshBlock)
    (vertex_indices element_indices : gmap Z Z)
    (export_elements export_element_procs : list Z)
    : Result (list (gset Z)) :=
  let num_elements := numElements block in
  let vertices_per_element := verticesPerElement block in
  for_each
    (λ '(element, proc) export_vertex_procs_set,
       element_index ← map_find element_indices element;
       for_each
         (λ i export_vertex_procs_set,
            vertex_ordinal ←
              array_get_Z (connectivityView block)
                (Z.of_nat i * Z.of_nat num_elements + element_index);
            vertex_index ← map_find vertex_indices vertex_ordinal;
            procs ← array_get_Z export_vertex_procs_set vertex_index;
            array_set_Z export_vertex_procs_set vertex_index
              ({[proc]} ∪ procs))
         (seq 0 vertices_per_element) export_vertex_procs_set)
    (zip export_elements export_element_procs)
    (replicate (numVertices block) ∅).

(** The exported vertices and the destination rank of each. *)
Definition export_vertices (mesh : option MeshBlock)
    (export_elements export_element_procs : list Z)
    : Result (list Z * list Z) :=
  let block := block_data mesh in
  let vertex_indices := index_map (verticesView block) in
  let element_indices := index_map (elementsView block) in
  export_vertex_procs_set ←
    export_vertex_procs_set block vertex_indices element_indices
      export_elements export_element_procs;
  let exports :=
    match mesh with
    | Some mesh => unroll (verticesView mesh) export_vertex_procs_set
    | None => []
    end in
  Ok (exports.*1, exports.*2).

(** The receiving side of the vertex distributor on rank [me]. *)
Definition import_vertices (vertex_distributor : Tpetra.Distributor)
    (export_vertices : list (list Z)) (me : nat) : list Z :=
  let num_import_vertices := Tpetra.createFromSends vertex_distributor me in
  let import_vertices :=
    Tpetra.doPostsAndWaits vertex_distributor export_vertices me
      (replicate num_import_vertices 0%Z) in
  let rendezvous_vertices_set :=
    foldl (λ (set : gset Z) vertex, {[vertex]} ∪ set) ∅ import_vertices in
  set_begin_end rendezvous_vertices_set.

(** [setupImportCommunication] for one mesh block, on every rank of the
    communicator: [rs] is the engine, [mesh] the block and
    [elements_in_box] the active-element view of every rank. The result is,
    by rank, the engine with its element-to-source-rank map, the rendezvous
    vertices and the rendezvous elements. *)
Definition setupImportCommunication (rs : list t)
    (mesh : list (option MeshBlock)) (elements_in_box : list (list bool))
    : Result (list (t * list Z * list Z)) :=
  let ranks := seq 0 (length rs) in
  element_exports ←
    for_collect
      (λ me,
         r ← array_get rs me;
         mesh ← array_get mesh me;
         elements_in_box ← array_get elements_in_box me;
         export_elements r mesh elements_in_box)
      ranks;
  let element_distributor := snd <$> element_exports in
  element_imports ←
    for_collect
      (λ me,
         r ← array_get rs me;
         import_elements r element_distributor (fst <$> element_exports) me)
      ranks;
  vertex_exports ←
    for_collect
      (λ me,
         mesh ← array_get mesh me;
         '(export_elements, export_element_procs) ←
           array_get element_exports me;
         export_vertices mesh export_elements export_element_procs)
      ranks;
  let vertex_distributor := snd <$> vertex_exports in
  for_collect
    (λ me,
       '(r, rendezvous_elements) ← array_get element_imports me;
       let rendezvous_vertices :=
         import_vertices vertex_distributor (fst <$> vertex_exports) me in
       Ok (r, rendezvous_vertices, rendezvous_elements))
    ranks.

End RendezvousImport.

(** ** The shared-domain map *)

Module SharedDomainMap.

Record t : Type := mk {
  d_dimension : Z;
  d_store_missed_points : bool;
  d_source_map : option Tpetra.Map;
  d_target_map : option Tpetra.Map;
  d_source_to_target_exporter : option Tpetra.Export;
  d_source_elements : list Z;
  d_target_coords : list Q;
  d_missed_points : list Z;
  d_target_g2l : gmap Z Z
}.

(** Constructor. *)
Definition new (dimension : Z) (store_missed_points : bool) : t :=
  mk dimension store_missed_points None None None [] [] [] ∅.

Definition set_target_map (m : t) (x : Tpetra.Map) : t :=
  mk (d_dimension m) (d_store_missed_points m) (d_source_map m) (Some x)
    (d_source_to_target_exporter m) (d_source_elements m) (d_target_coords m)
    (d_missed_points m) (d_target_g2l m).

Definition set_missed_points (m : t) (x : list Z) : t :=
  mk (d_dimension m) (d_store_missed_points m) (d_source_map m)
    (d_target_map m) (d_source_to_target_exporter m) (d_source_elements m)
    (d_target_coords m) x (d_target_g2l m).

Definition set_target_g2l (m : t) (x : gmap Z Z) : t :=
  mk (d_dimension m) (d_store_missed_points m) (d_source_map m)
    (d_target_map m) (d_source_to_target_exporter m) (d_source_elements m)
    (d_target_coords m) (d_missed_points m) x.

(** The assignments of the last part of [setup]. *)
Definition set_plan (m : t) (source_elements : list Z)
    (source_map : Tpetra.Map) (target_coords : list Q)
    (exporter : Tpetra.Export) : t :=
  mk (d_dimension m) (d_store_missed_points m) (Some source_map)
    (d_target_map m) (Some exporter) source_elements target_coords
    (d_missed_points m) (d_target_g2l m).

(** The local point count of [computePointOrdinals]. *)
Definition local_size (target_coord_manager : option FieldContainer) : Z :=
  match target_coord_manager with
  | Some field => Z.of_nat (length (field_data field)) ÷ field_dim field
  | None => 0%Z
  end.

(** [computePointOrdinals] on rank [comm_rank], where [comm] is the target
    coordinate manager of every rank of the parent communicator. *)
Definition computePointOrdinals (T : OrdinalType)
    (comm : list (option FieldContainer)) (comm_rank : nat) (m : t)
    : t * list Z :=
  let target_coord_manager := mjoin (comm !! comm_rank) in
  let local_size := local_size target_coord_manager in
  let global_size := reduceAll_max (SharedDomainMap.local_size <$> comm) in
  foldl
    (λ '(m, target_ordinals) n,
       let ordinal :=
         ordinal_wrap T (Z.of_nat comm_rank * global_size + Z.of_nat n) in
       let target_ordinals := <[n := ordinal]> target_ordinals in
       (if d_store_missed_points m
        then set_target_g2l m (<[ordinal := Z.of_nat n]> (d_target_g2l m))
        else m,
        target_ordinals))
    (m, resize (Z.to_nat local_size) 0%Z [])
    (seq 0 (Z.to_nat local_size)).

(** [getTargetPointsInBox]. *)
Definition getTargetPointsInBox (T : OrdinalType) (m : t) (box : BoundingBox)
    (target_coords : FieldContainer) (target_ordinals : list Z)
    (targets_in_box : list Z) : Result (t * list Z) :=
  let target_coords_view := field_data target_coords in
  let dim_size := dimSize target_coords in
  _ ← testPrecondition (dim_size =? Z.of_nat (length target_ordinals))%Z;
  let targets_in_box := resize (Z.to_nat dim_size) 0%Z targets_in_box in
  let field_dim := field_dim target_coords in
  for_each
    (λ n '(m, targets_in_box),
       target_point ←
         for_collect
           (λ d, array_get target_coords_view (Z.to_nat dim_size * d + n))
           (seq 0 (Z.to_nat field_dim));
       ordinal ←
         (if pointInBox box target_point
          then array_get target_ordinals n
          else Ok (ordinal_wrap T (-1)));
       targets_in_box ← array_set targets_in_box n ordinal;
       Ok (if d_store_missed_points m && is_minus_one T ordinal
           then set_missed_points m (d_missed_points m ++ [Z.of_nat n])
           else m,
           targets_in_box))
    (seq 0 (Z.to_nat dim_size)) (m, targets_in_box).

(** The positions of the entries that compare equal to -1, in order: the
    loops of [setup] that push [std::distance( begin, iterator )]. *)
Definition positions_of_minus_one (T : OrdinalType) (a : list Z) : list Z :=
  omap (λ '(i, x), if is_minus_one T x then Some (Z.of_nat i) else None)
    (imap pair a).

(** [setup], the extraction of the target points that are not in the box:
    their entries leave the rank array and the ordinal array. *)
Definition remove_not_in_box (T : OrdinalType) (targets_in_box : list Z)
    (rendezvous_procs : list Z) : Result (list Z * list Z) :=
  let not_in_box := positions_of_minus_one T targets_in_box in
  let not_in_box := reverse not_in_box in
  rendezvous_procs ←
    for_each (λ i rendezvous_procs, array_remove i rendezvous_procs)
      not_in_box rendezvous_procs;
  let '(targets_in_box, targets_in_box_size) :=
    std_remove (is_minus_one T) targets_in_box in
  Ok (resize targets_in_box_size 0%Z targets_in_box,
      resize targets_in_box_size 0%Z rendezvous_procs).

(** [setup], the loop over the search result that collects the points that
    were not in the mesh: an entry of the element array is taken for a miss
    when it compares equal to -1. *)
Definition find_not_in_mesh (T : OrdinalType) (m : t)
    (rendezvous_elements rendezvous_points : list Z)
    : Result (list Z * list Z * list Z) :=
  for_each
    (λ target_index '(not_in_mesh, missed_in_mesh_idx, missed_in_mesh_ordinal),
       element ← array_get rendezvous_elements target_index;
       if is_minus_one T element
       then
         let not_in_mesh := not_in_mesh ++ [Z.of_nat target_index] in
         if d_store_missed_points m
         then
           ordinal ← array_get rendezvous_points target_index;
           Ok (not_in_mesh, missed_in_mesh_idx ++ [Z.of_nat target_index],
               missed_in_mesh_ordinal ++ [ordinal])
         else Ok (not_in_mesh, missed_in_mesh_idx, missed_in_mesh_ordinal)
       else Ok (not_in_mesh, missed_in_mesh_idx, missed_in_mesh_ordinal))
    (seq 0 (length rendezvous_elements)) ([], [], []).

(** [setup], the extraction of the points that were not found in an
    element: the point array loses the collected positions, the element
    array its entries equal to -1 and the source-rank array its entries
    equal to -1; the two sizes are checked against each other. The result
    is the point, element and source-rank arrays that are shipped. *)
Definition remove_not_in_mesh (T : OrdinalType) (not_in_mesh : list Z)
    (rendezvous_points rendezvous_elements : list Z)
    (rendezvous_element_src_procs : list Z)
    : Result (list Z * list Z * list Z) :=
  let not_in_mesh := reverse not_in_mesh in
  rendezvous_points ←
    for_each (λ i rendezvous_points, array_remove i rendezvous_points)
      not_in_mesh rendezvous_points;
  let '(rendezvous_elements, rendezvous_elements_size) :=
    std_remove (is_minus_one T) rendezvous_elements in
  let '(rendezvous_element_src_procs, rendezvous_element_src_procs_size) :=
    std_remove (λ p, (p =? -1)%Z) rendezvous_element_src_procs in
  _ ← testInvariant
        (rendezvous_elements_size =? rendezvous_element_src_procs_size)%nat;
  Ok (resize rendezvous_elements_size 0%Z rendezvous_points,
      resize rendezvous_elements_size 0%Z rendezvous_elements,
      resize rendezvous_element_src_procs_size 0%Z
        rendezvous_element_src_procs).

(** What [setup] is called with on every rank of the parent communicator,
    by rank, together with what the collectives outside the sources leave:
    the global box of the target coordinates and the migration of the
    source mesh. [tolerance] is the default argument of the search. *)
Record SetupInput : Type := mkSetupInput {
  source_mesh_manager : list (option MeshManager);
  target_coord_manager : list (option FieldContainer);
  migration : list Rendezvous.Migration;
  target_box : BoundingBox;
  tolerance : Q
}.

(** [setup], from the start to the filtering of the target points against
    the rendezvous box, on rank [r]: the map with its target map, the target
    ordinals, the rendezvous engine, the coordinate view, and the ordinals
    and rendezvous ranks of the points that are sent to rendezvous space. *)
Definition setup_targets (T : OrdinalType) (input : SetupInput) (r : nat)
    (m : t)
    : Result (t * list Z * Rendezvous.t * list Q * (list Z * list Z)) :=
  source ← array_get (source_mesh_manager input) r;
  target ← array_get (target_coord_manager input) r;
  mig ← array_get (migration input) r;
  _ ← match source with
      | Some mesh => testPrecondition (dim mesh =? d_dimension m)%Z
      | None => Ok tt
      end;
  _ ← match target with
      | Some field => testPrecondition (field_dim field =? d_dimension m)%Z
      | None => Ok tt
      end;
  let '(m, target_ordinals) :=
    computePointOrdinals T (target_coord_manager input) r m in
  let m := set_target_map m target_ordinals in
  source_root ← l2g_0 (source_mesh_manager input);
  root_mesh ← array_get (source_mesh_manager input) source_root;
  source_box ←
    match root_mesh with
    | Some mesh => Ok (globalBoundingBox mesh)
    | None => Throw UndefinedBehaviour
    end;
  _ ← l2g_0 (target_coord_manager input);
  let '(has_intersect, shared_domain_box) :=
    intersectBoxes source_box (target_box input) in
  _ ← testAssertion has_intersect;
  let rendezvous := Rendezvous.new (d_dimension m) shared_domain_box in
  '(rendezvous, _) ← Rendezvous.build mig rendezvous source;
  let coords_view :=
    match target with Some field => field_data field | None => [] end in
  rendezvous_procs ← Rendezvous.procsContainingPoints rendezvous coords_view;
  '(m, targets_in_box) ←
    match target with
    | Some field =>
        getTargetPointsInBox T m (Rendezvous.getBox rendezvous) field
          target_ordinals []
    | None => Ok (m, [])
    end;
  in_box ← remove_not_in_box T targets_in_box rendezvous_procs;
  Ok (m, target_ordinals, rendezvous, coords_view, in_box).

(** The dimension of the target coordinates, broadcast from the root of the
    target communicator. *)
Definition broadcast_coord_dim (input : SetupInput) : Result Z :=
  target_root ← l2g_0 (target_coord_manager input);
  root_field ← array_get (target_coord_manager input) target_root;
  match root_field with
  | Some field => Ok (field_dim field)
  | None => Throw UndefinedBehaviour
  end.

(** [setup], the echo of the missed points to the target ranks. On rank [r]
    the target rank of every rendezvous point is replayed from the images
    and lengths of the target-to-rendezvous distributor [plan], and the
    target ranks of the missed points are read from it. *)
Definition missed_target_procs (plan : Tpetra.Distributor) (r : nat)
    (num_rendezvous_points : nat) (missed_in_mesh_idx : list Z)
    : Result (list Z) :=
  let from_images := Tpetra.getImagesFrom plan r in
  let from_lengths := Tpetra.getLengthsFrom plan r in
  let point_target_procs :=
    mjoin
      (zip_with (λ image len, replicate len (Z.of_nat image))
         from_images from_lengths) in
  _ ← testInvariant (length point_target_procs =? num_rendezvous_points)%nat;
  for_collect (λ i, array_get_Z point_target_procs i) missed_in_mesh_idx.

(** The missed ordinals arrive through the second distributor [plan], behind
    the points already listed, and are turned into local indices. *)
Definition receive_missed_points (m : t) (plan : Tpetra.Distributor)
    (missed_in_mesh_ordinal : list (list Z)) (r : nat) : Result t :=
  let num_missed_targets := Tpetra.createFromSends plan r in
  let offset := length (d_missed_points m) in
  let missed := resize (offset + num_missed_targets) 0%Z (d_missed_points m) in
  let missed :=
    take offset missed
    ++ Tpetra.doPostsAndWaits plan missed_in_mesh_ordinal r
         (drop offset missed) in
  missed ←
    for_each
      (λ n missed,
         ordinal ← array_get missed n;
         local ← map_find (d_target_g2l m) ordinal;
         array_set missed n local)
      (seq offset num_missed_targets) missed;
  Ok (set_missed_points m missed).

(** [setup] on every rank of the parent communicator; [maps] is the map
    object of every rank. *)
Definition setup (T : OrdinalType) (input : SetupInput) (maps : list t)
    : Result (list t) :=
  let ranks := seq 0 (length maps) in
  targets ←
    for_collect (λ r, m ← array_get maps r; setup_targets T input r m) ranks;
  coord_dim ← broadcast_coord_dim input;
  let maps := (λ x, x.1.1.1.1) <$> targets in
  let target_ordinals := (λ x, x.1.1.1.2) <$> targets in
  let rendezvous := (λ x, x.1.1.2) <$> targets in
  let coords_view := (λ x, x.1.2) <$> targets in
  let targets_in_box := (λ x, x.2.1) <$> targets in
  let rendezvous_procs := (λ x, x.2.2) <$> targets in
  (* Target points and their coordinates to the rendezvous decomposition. *)
  let target_to_rendezvous_distributor := rendezvous_procs in
  let num_rendezvous_points r :=
    Tpetra.createFromSends target_to_rendezvous_distributor r in
  let rendezvous_points :=
    (λ r, Tpetra.doPostsAndWaits target_to_rendezvous_distributor
            targets_in_box r (replicate (num_rendezvous_points r) 0%Z))
    <$> ranks in
  let rendezvous_coords_map := rendezvous_points in
  let target_to_rendezvous_exporter :=
    Tpetra.mkExport target_ordinals rendezvous_coords_map in
  let target_coords :=
    zip_with
      (λ view ordinals,
         Tpetra.mkMultiVector view (length ordinals) (Z.to_nat coord_dim))
      coords_view target_ordinals in
  let rendezvous_coords :=
    imap
      (λ r points,
         Tpetra.doExport target_to_rendezvous_exporter target_coords r
           (Tpetra.mkMultiVector
              (replicate (length points * Z.to_nat coord_dim) 0%Q)
              (length points) (Z.to_nat coord_dim)))
      rendezvous_coords_map in
  (* Search the rendezvous decomposition. *)
  found ←
    for_collect
      (λ r,
         rdv ← array_get rendezvous r;
         coords ← array_get rendezvous_coords r;
         Rendezvous.elementsContainingPoints T rdv (Tpetra.mv_data coords)
           [] [] (tolerance input))
      ranks;
  missed ←
    for_collect
      (λ r,
         m ← array_get maps r;
         '(rendezvous_elements, _) ← array_get found r;
         points ← array_get rendezvous_points r;
         find_not_in_mesh T m rendezvous_elements points)
      ranks;
  (* Send the missed points back to the target decomposition. *)
  missed_procs ←
    for_collect
      (λ r,
         m ← array_get maps r;
         '(_, missed_in_mesh_idx, _) ← array_get missed r;
         if d_store_missed_points m
         then missed_target_procs target_to_rendezvous_distributor r
                (num_rendezvous_points r) missed_in_mesh_idx
         else Ok [])
      ranks;
  maps ←
    for_collect
      (λ r,
         m ← array_get maps r;
         if d_store_missed_points m
         then receive_missed_points m missed_procs ((λ x, x.2) <$> missed) r
         else Ok m)
      ranks;
  (* Extract the points that were not found in an element. *)
  shipped ←
    for_collect
      (λ r,
         '(not_in_mesh, _, _) ← array_get missed r;
         points ← array_get rendezvous_points r;
         '(rendezvous_elements, rendezvous_element_src_procs) ←
           array_get found r;
         remove_not_in_mesh T not_in_mesh points rendezvous_elements
           rendezvous_element_src_procs)
      ranks;
  let reduced_rendezvous_points := (λ x, x.1.1) <$> shipped in
  let rendezvous_elements := (λ x, x.1.2) <$> shipped in
  let rendezvous_to_src_distributor := (λ x, x.2) <$> shipped in
  (* Elements, point ordinals and coordinates to the source decomposition. *)
  let num_source_elements r :=
    Tpetra.createFromSends rendezvous_to_src_distributor r in
  let source_points :=
    (λ r, Tpetra.doPostsAndWaits rendezvous_to_src_distributor
            reduced_rendezvous_points r
            (replicate (num_source_elements r) 0%Z))
    <$> ranks in
  let rendezvous_to_source_exporter :=
    Tpetra.mkExport rendezvous_coords_map source_points in
  let source_to_target_exporter :=
    Tpetra.mkExport source_points target_ordinals in
  for_collect
    (λ r,
       m ← array_get maps r;
       let source_elements :=
         Tpetra.doPostsAndWaits rendezvous_to_src_distributor
           rendezvous_elements r
           (resize (num_source_elements r) 0%Z (d_source_elements m)) in
       source_map ← array_get source_points r;
       let target_coords :=
         resize (Z.to_nat (Z.of_nat (num_source_elements r) * coord_dim)) 0%Q
           (d_target_coords m) in
       let source_coords :=
         Tpetra.doExport rendezvous_to_source_exporter rendezvous_coords r
           (Tpetra.mkMultiVector target_coords (num_source_elements r)
              (Z.to_nat coord_dim)) in
       Ok (set_plan m source_elements source_map
             (Tpetra.mv_data source_coords) source_to_target_exporter))
    ranks.

(** [apply], the evaluation of the source function on one rank and the
    multivector built on its copy. *)
Definition apply_source (m : t) (source_evaluator : option FieldEvaluator)
    : Result Tpetra.MultiVector :=
  source_field_copy ←
    match source_evaluator with
    | Some evaluate =>
        let function_evaluations :=
          evaluate (d_source_elements m) (d_target_coords m) in
        _ ← testPrecondition
              (field_dim function_evaluations =? d_dimension m)%Z;
        Ok (field_data function_evaluations)
    | None => Ok []
    end;
  let source_size :=
    (Z.of_nat (length source_field_copy) ÷ d_dimension m)%Z in
  Ok (Tpetra.mkMultiVector source_field_copy (Z.to_nat source_size)
        (Z.to_nat (d_dimension m))).

(** [apply], the target side on rank [r]: the target space is checked,
    filled with zeros, and the export writes into it. [source_vector] is
    the source multivector of every rank. *)
Definition apply_target (m : t) (source_vector : list Tpetra.MultiVector)
    (r : nat) (target_space_manager : option FieldContainer)
    : Result (option FieldContainer) :=
  let target_field_view :=
    match target_space_manager with
    | Some field => field_data field
    | None => []
    end in
  let target_size :=
    (Z.of_nat (length target_field_view) ÷ d_dimension m)%Z in
  _ ← match target_space_manager with
      | Some field =>
          target_map ←
            match d_target_map m with
            | Some target_map => Ok target_map
            | None => Throw UndefinedBehaviour
            end;
          _ ← testPrecondition (target_size =? Z.of_nat (length target_map))%Z;
          testPrecondition (field_dim field =? d_dimension m)%Z
      | None => Ok tt
      end;
  let target_space_manager :=
    (λ field, putScalar field 0%Q) <$> target_space_manager in
  let target_field_view :=
    match target_space_manager with
    | Some field => field_data field
    | None => []
    end in
  exporter ←
    match d_source_to_target_exporter m with
    | Some exporter => Ok exporter
    | None => Throw UndefinedBehaviour
    end;
  let target_vector :=
    Tpetra.doExport exporter source_vector r
      (Tpetra.mkMultiVector target_field_view (Z.to_nat target_size)
         (Z.to_nat (d_dimension m))) in
  Ok ((λ field,
         mkFieldContainer (field_dim field) (Tpetra.mv_data target_vector))
      <$> target_space_manager).

(** [apply] on every rank of the parent communicator: [maps] is the map
    object, [source_evaluator] the evaluator and [target_space_manager] the
    target field of every rank. The result is the map objects, to which the
    function assigns nothing, and the target fields after the call. *)
Definition apply (maps : list t)
    (source_evaluator : list (option FieldEvaluator))
    (target_space_manager : list (option FieldContainer))
    : Result (list t * list (option FieldContainer)) :=
  let ranks := seq 0 (length maps) in
  source_vector ←
    for_collect
      (λ r,
         m ← array_get maps r;
         evaluator ← array_get source_evaluator r;
         apply_source m evaluator)
      ranks;
  targets ←
    for_collect
      (λ r,
         m ← array_get maps r;
         target ← array_get target_space_manager r;
         apply_target m source_vector r target)
      ranks;
  Ok (maps, targets).

(** [getMissedTargetPoints], the const and the non-const overload. *)
Definition getMissedTargetPoints (m : t) : Result (list Z) :=
  _ ← testPrecondition (d_store_missed_points m);
  Ok (d_missed_points m).

End SharedDomainMap.

(** ** Specification predicates *)

(** Entry [k] of the target view on rank [me], a view with [lda] entries per
    vector, is one the export plan writes: it is the entry of a target
    ordinal that some rank holds in the source map. *)
Definition export_writes (exporter : Tpetra.Export) (me lda k : nat) : Prop :=
  ∃ j d gid,
    k = (d * lda + j)%nat
    ∧ default [] (Tpetra.exp_target_map exporter !! me) !! j = Some gid
    ∧ is_Some (Tpetra.locate (Tpetra.exp_source_map exporter) gid).

(** A block has the sizes the mesh traits promise in dimension [dimension]:
    [dimension] coordinates per vertex, [verticesPerElement] connectivity
    entries per element; its connectivity names vertices of the block and
    its vertex ids are distinct. *)
Definition block_well_formed (dimension : Z) (block : MeshBlock) : Prop :=
  (Z.to_nat dimension * numVertices block ≤ length (coordsView block))%nat
  ∧ (verticesPerElement block * numElements block
     ≤ length (connectivityView block))%nat
  ∧ Forall (λ gid, gid ∈ verticesView block) (connectivityView block)
  ∧ NoDup (verticesView block).

(** Position [i] of element [n] of a block holds the vertex that the vertex
    index map sends to [v]. *)
Definition element_has_vertex (block : MeshBlock)
    (vertex_indices : gmap Z Z) (n i v : nat) : Prop :=
  (i < verticesPerElement block)%nat
  ∧ ∃ gid,
      connectivityView block !! (i * numElements block + n)%nat = Some gid
      ∧ vertex_indices !! gid = Some (Z.of_nat v).

(** Element [n] of a block goes to the rendezvous rank [p]: it is in the box
    and the partitioner of the engine sends the coordinate of one of its
    vertices to [p]. *)
Definition element_destination (r : Rendezvous.t) (block : MeshBlock)
    (elements_in_box : list bool) (n : nat) (p : Z) : Prop :=
  elements_in_box !! n = Some true
  ∧ ∃ i gid v point partitioner,
      (i < verticesPerElement block)%nat
      ∧ connectivityView block !! (i * numElements block + n)%nat = Some gid
      ∧ verticesView block !! v = Some gid
      ∧ blocked_point (Rendezvous.d_dimension r) (coordsView block)
          (numVertices block) v = Ok point
      ∧ Rendezvous.d_partitioner r = Some partitioner
      ∧ partitioner point = p.

(** Rank [s] holds, at position [n] of its block, an element with id [e]
    that goes to the rendezvous rank [p]. *)
Definition sends_element (rs : list Rendezvous.t)
    (mesh : list (option MeshBlock)) (elements_in_box : list (list bool))
    (s n : nat) (e : Z) (p : nat) : Prop :=
  ∃ r block in_box,
    rs !! s = Some r
    ∧ mesh !! s = Some (Some block)
    ∧ elements_in_box !! s = Some in_box
    ∧ elementsView block !! n = Some e
    ∧ element_destination r block in_box n (Z.of_nat p).

(** Vertex [g] is at position [i] of element [n] of the block of rank [s],
    an element that goes to the rendezvous rank [p]. *)
Definition sends_vertex (rs : list Rendezvous.t)
    (mesh : list (option MeshBlock)) (elements_in_box : list (list bool))
    (s n i : nat) (g : Z) (p : nat) : Prop :=
  ∃ e block,
    sends_element rs mesh elements_in_box s n e p
    ∧ mesh !! s = Some (Some block)
    ∧ (i < verticesPerElement block)%nat
    ∧ connectivityView block !! (i * numElements block + n)%nat = Some g.

(** What [setupImportCommunication] is called with: every rank takes part,
    and on a rank that holds a block the block is well formed, its element
    ids are distinct, the partitioner is built and answers with a rank of
    the communicator, and the active-element view has one entry per
    element. *)
Definition import_well_formed (rs : list Rendezvous.t)
    (mesh : list (option MeshBlock)) (elements_in_box : list (list bool))
    : Prop :=
  length mesh = length rs
  ∧ length elements_in_box = length rs
  ∧ ∀ s r block in_box,
      rs !! s = Some r →
      mesh !! s = Some (Some block) →
      elements_in_box !! s = Some in_box →
      block_well_formed (Rendezvous.d_dimension r) block
      ∧ NoDup (elementsView block)
      ∧ is_Some (Rendezvous.d_partitioner r)
      ∧ length in_box = numElements block
      ∧ ∀ partitioner point,
          Rendezvous.d_partitioner r = Some partitioner →
          (0 ≤ partitioner point < Z.of_nat (length rs))%Z.

(** ** Scenarios *)

(** A line mesh on [0, 3]: vertices 0..3 at x = 0..3, elements 100, 101 and
    102 between consecutive vertices. *)
Definition line_block : MeshBlock :=
  mkMeshBlock 2 [0; 1; 2; 3]%Z [0; 1; 2; 3]%Q [100; 101; 102]%Z
    [0; 1; 2; 1; 2; 3]%Z.

Definition line_box : BoundingBox := mkBoundingBox [0; 0; 0; 3; 0; 0]%Q.

Definition line_mesh : MeshManager :=
  mkMeshManager [line_block] 1 3 line_box [] [].

(** Two rendezvous ranks: points with x <= 3/2 go to rank 0, the others to
    rank 1; element 101 has a vertex on either side and is on both. *)
Definition line_partitioner : Rendezvous.Partitioner :=
  λ point, if Qle_bool (point !!! 0%nat) (3 # 2) then 0%Z else 1%Z.

Definition line_tree (lower : Z) : Rendezvous.ElementTree :=
  λ point _,
    let x := (point !!! 0%nat - inject_Z lower)%Q in
    if Qle_bool 0 x && Qle_bool x 1 then Some (100 + lower)%Z
    else if Qle_bool 1 x && Qle_bool x 2 then Some (101 + lower)%Z
    else None.

Definition line_src_procs : gmap Z Z :=
  <[100%Z := 0%Z]> (<[101%Z := 0%Z]> (<[102%Z := 0%Z]> ∅)).

Definition line_migration (lower : Z) : Rendezvous.Migration :=
  Rendezvous.mkMigration line_partitioner line_mesh (line_tree lower)
    line_src_procs.

(** The mesh is on rank 0 only; rank 0 holds the target points 1/2 and
    7/2, rank 1 the target points 3/2, 7 and 5/2. The point 7 is outside
    every box; the point 7/2 is inside the enlarged box of rank 0 and in no
    element. *)
Definition line_targets : list (option FieldContainer) :=
  [Some (mkFieldContainer 1 [1 # 2; 7 # 2]%Q);
   Some (mkFieldContainer 1 [3 # 2; 7; 5 # 2]%Q)].

Definition line_input : SharedDomainMap.SetupInput :=
  SharedDomainMap.mkSetupInput [Some line_mesh; None] line_targets
    [line_migration 0; line_migration 1]
    (mkBoundingBox [1 # 2; 0; 0; 7; 0; 0]%Q) (1 # 1000000).

Definition line_maps : list SharedDomainMap.t :=
  [SharedDomainMap.new 1 true; SharedDomainMap.new 1 true].

(** The maps that [setup] builds for an unsigned 32-bit ordinal type. *)
Definition line_plan : list SharedDomainMap.t :=
  Eval vm_compute in
    match SharedDomainMap.setup UInt32 line_input line_maps with
    | Ok maps => maps
    | Throw _ => []
    end.

(** The map of rank 0 among them, and the export plan it holds. *)
Definition line_plan_rank0 : SharedDomainMap.t :=
  Eval vm_compute in
    default (SharedDomainMap.new 1 true) (line_plan !! 0%nat).

Definition line_exporter : Tpetra.Export :=
  Tpetra.mkExport [[0; 3; 5]; []]%Z [[0; 1]; [3; 4; 5]]%Z.

(** The engine and the mesh manager of rank 0 after [build] on the box
    [1/2, 3]. *)
Definition line_shared_box : BoundingBox :=
  mkBoundingBox [1 # 2; 0; 0; 3; 0; 0]%Q.

Definition line_built : Rendezvous.t * option MeshManager :=
  Eval vm_compute in
    match
      Rendezvous.build (line_migration 0) (Rendezvous.new 1 line_shared_box)
        (Some line_mesh)
    with
    | Ok built => built
    | Throw _ => (Rendezvous.new 1 line_shared_box, None)
    end.

(** The rendezvous engine of rank 1 after [build]. *)
Definition line_rendezvous : Rendezvous.t :=
  Rendezvous.mk 1 (mkBoundingBox [1 # 2; 0; 0; 3; 0; 0]%Q)
    (Some line_partitioner) (Some line_mesh) (Some (line_tree 1))
    line_src_procs.

(** The evaluator that returns the element id as the value. *)
Definition element_id_evaluator : FieldEvaluator :=
  λ elements _, mkFieldContainer 1 (inject_Z <$> elements).

Definition line_fields : list (option FieldContainer) :=
  [Some (mkFieldContainer 1 [9; 9]%Q); Some (mkFieldContainer 1 [9; 9; 9]%Q)].

Definition line_fields_applied : list (option FieldContainer) :=
  [Some (mkFieldContainer 1 [100; 0]%Q);
   Some (mkFieldContainer 1 [101; 0; 102]%Q)].

(** A chain of two elements, 100 on the vertices 10 and 11 and 101 on the
    vertices 11 and 12, with the vertices at x = 1/2, 5 and 9. The box
    [0, 1] with two elements is enlarged by 1/2 + 1/10000 on both faces, so
    only vertex 10 has its coordinate in the enlarged box. *)
Definition chain_block : MeshBlock :=
  mkMeshBlock 2 [10; 11; 12]%Z [1 # 2; 5; 9]%Q [100; 101]%Z [10; 11; 11; 12]%Z.

Definition chain_box : BoundingBox := mkBoundingBox [0; 0; 0; 1; 0; 0]%Q.

Definition chain_mesh : MeshManager :=
  mkMeshManager [chain_block] 1 2 chain_box [] [].

(** The cube [0, 2]^3 holding one element. *)
Definition cube_box : BoundingBox := mkBoundingBox [0; 0; 0; 2; 2; 2]%Q.

(** The rendezvous engine holding the chain mesh, for the geometry query. *)
Definition chain_rendezvous : Rendezvous.t :=
  Rendezvous.mk 1 chain_box None (Some chain_mesh) None ∅.

(** Three ranks with 3, 0 and 2 target points in two dimensions. *)
Definition three_ranks : list (option FieldContainer) :=
  [Some (mkFieldContainer 2 [0; 1; 2; 0; 1; 2]%Q); None;
   Some (mkFieldContainer 2 [5; 6; 5; 6]%Q)].

(** Two separate elements, 100 on the vertices 10 and 11 at x = 1/2 and 5
    and 101 on the vertices 12 and 13 at x = 9 and 13: in the box [0, 1]
    enlarged by 1/2 + 1/10000 only vertex 10 has its coordinate. *)
Definition islands_block : MeshBlock :=
  mkMeshBlock 2 [10; 11; 12; 13]%Z [1 # 2; 5; 9; 13]%Q [100; 101]%Z
    [10; 12; 11; 13]%Z.

Definition islands_mesh : MeshManager :=
  mkMeshManager [islands_block] 1 2 chain_box [] [].

(** The engine and the mesh manager after [getMeshInBox]. *)
Definition islands_filtered : Rendezvous.t * MeshManager :=
  Eval vm_compute in
    match
      Rendezvous.getMeshInBox (Rendezvous.new 1 chain_box) islands_mesh
    with
    | Ok filtered => filtered
    | Throw _ => (Rendezvous.new 1 chain_box, islands_mesh)
    end.

(** A map object that stores missed points and has the entries of the
    target ordinals 5 and 6 in its global-to-local table. *)
Definition echo_map : SharedDomainMap.t :=
  SharedDomainMap.mk 1 true None (Some [5; 6]%Z) None [] [] [7]%Z
    (<[5%Z := 0%Z]> (<[6%Z := 1%Z]> ∅)).

(** Three ranks; ranks 0 and 1 hold overlapping pieces of the line mesh,
    both with element 101, rank 2 holds no mesh. Every element is in the
    box. *)
Definition overlap_engines : list Rendezvous.t :=
  replicate 3
    (Rendezvous.mk 1 line_box (Some line_partitioner) None None ∅).

Definition overlap_mesh : list (option MeshBlock) :=
  [Some (mkMeshBlock 2 [0; 1; 2]%Z [0; 1; 2]%Q [100; 101]%Z [0; 1; 1; 2]%Z);
   Some (mkMeshBlock 2 [1; 2; 3]%Z [1; 2; 3]%Q [101; 102]%Z [1; 2; 2; 3]%Z);
   None].

Definition overlap_in_box : list (list bool) :=
  [[true; true]; [true; true]; []].

(** What [setupImportCommunication] leaves on the three ranks. *)
Definition overlap_import : list (Rendezvous.t * list Z * list Z) :=
  Eval vm_compute in
    match
      RendezvousImport.setupImportCommunication overlap_engines overlap_mesh
        overlap_in_box
    with
    | Ok out => out
    | Throw _ => []
    end.

(** 4097 ranks: rank 0 and rank 4096 hold one target point each, rank 1
    holds 2^20 points and the ranks between hold none, so G = 2^20 and the
    largest ordinal, 4097 * 2^20 - 1, needs 33 bits. *)
Definition wide_ranks : list (option FieldContainer) :=
  [Some (mkFieldContainer 1 [0]%Q);
   Some (mkFieldContainer 1 (replicate (Z.to_nat 1048576) 0%Q))]
  ++ replicate 4094 None ++ [Some (mkFieldContainer 1 [7]%Q)].

(** The cube [-10^17, 10^17]^3, whose bounds are [double]s with a spacing
    of 16, and a mesh manager of eight elements on it. *)
Definition huge_box : BoundingBox :=
  mkBoundingBox
    [-100000000000000000; -100000000000000000; -100000000000000000;
     100000000000000000; 100000000000000000; 100000000000000000]%Q.

Definition huge_mesh : MeshManager := mkMeshManager [] 3 8 huge_box [] [].

Definition huge_built : Rendezvous.t * option MeshManager :=
  Eval vm_compute in
    match
      Rendezvous.build_in Rendezvous.expanded_bounds_double (line_migration 0)
        (Rendezvous.new 3 huge_box) (Some huge_mesh)
    with
    | Ok built => built
    | Throw _ => (Rendezvous.new 3 huge_box, None)
    end.

(** [build] on the box [1/2, 3] of the line mesh with the arithmetic of the
    expansion in [double]. *)
Definition line_built_double : Rendezvous.t * option MeshManager :=
  Eval vm_compute in
    match
      Rendezvous.build_in Rendezvous.expanded_bounds_double (line_migration 0)
        (Rendezvous.new 1 line_shared_box) (Some line_mesh)
    with
    | Ok built => built
    | Throw _ => (Rendezvous.new 1 line_shared_box, None)
    end.

(** What the first part of [setup] leaves on rank 0 of the line scenario:
    the map, the target ordinals, the rendezvous engine, the coordinate
    view and the points sent to rendezvous space. *)
Definition line_setup_targets
    : SharedDomainMap.t * list Z * Rendezvous.t * list Q * (list Z * list Z) :=
  Eval vm_compute in
    match
      SharedDomainMap.setup_targets UInt32 line_input 0
        (SharedDomainMap.new 1 true)
    with
    | Ok targets => targets
    | Throw _ =>
        (SharedDomainMap.new 1 true, [], Rendezvous.new 1 line_shared_box, [],
         ([], []))
    end.

(** Decidable facts about the scenarios are settled by evaluation. *)
Ltac by_computation := apply (bool_decide_unpack _); vm_compute; exact I.

(** * Proofs *)

(** ** The exception monad and the loops *)

Lemma bind_Ok {A B} (a : A) (k : A → Result B) : (Ok a ≫= k) = k a.
Proof. reflexivity. Qed.

Lemma bind_Ok_inv {A B} (c : Result A) (k : A → Result B) b :
  c ≫= k = Ok b → ∃ a, c = Ok a ∧ k a = Ok b.
Proof. destruct c as [a|e]; [eauto | discriminate]. Qed.

Lemma Ok_inj {A} (a b : A) : Ok a = Ok b → a = b.
Proof. by intros [= ->]. Qed.

Lemma testPrecondition_Ok c u : testPrecondition c = Ok u → c = true.
Proof. by destruct c. Qed.

Lemma array_get_Ok_inv {A} (a : list A) i x :
  array_get a i = Ok x → a !! i = Some x.
Proof.
  unfold array_get. destruct (a !! i); [by intros [= ->]|discriminate].
Qed.

Lemma array_set_Ok {A} (a : list A) i x :
  (i < length a)%nat → array_set a i x = Ok (<[i := x]> a).
Proof. intros Hi. unfold array_set. by rewrite decide_True. Qed.

Lemma for_collect_Forall2 {I A} (body : I → Result A) idx xs :
  for_collect body idx = Ok xs → Forall2 (λ n x, body n = Ok x) idx xs.
Proof.
  revert xs. induction idx as [|n idx IH]; intros xs Hxs; simpl in Hxs.
  - apply Ok_inj in Hxs as <-. constructor.
  - apply bind_Ok_inv in Hxs as (x & Hx & Hxs).
    apply bind_Ok_inv in Hxs as (xs' & Hxs' & Hxs).
    apply Ok_inj in Hxs as <-. constructor; auto.
Qed.

Lemma for_collect_ext {I A} (f g : I → Result A) idx :
  (∀ n, n ∈ idx → f n = g n) → for_collect f idx = for_collect g idx.
Proof.
  induction idx as [|n idx IH]; intros Hfg; simpl; [done|].
  rewrite Hfg by left. rewrite IH; [done|]. intros; apply Hfg. by right.
Qed.

Lemma for_collect_Ok {I A} (body : I → Result A) (f : I → A) idx :
  (∀ n, n ∈ idx → body n = Ok (f n)) → for_collect body idx = Ok (f <$> idx).
Proof.
  induction idx as [|n idx IH]; intros Hb; simpl; [done|].
  rewrite Hb by left. rewrite bind_Ok, IH; [done|]. intros; apply Hb. by right.
Qed.

Lemma for_collect_lookup {A} (body : nat → Result A) len xs r x :
  for_collect body (seq 0 len) = Ok xs → xs !! r = Some x →
  (r < len)%nat ∧ body r = Ok x.
Proof.
  intros Hrun Hx. apply for_collect_Forall2 in Hrun.
  destruct (Forall2_lookup_r _ _ _ _ _ Hrun Hx) as (n & Hn & Hbody).
  apply lookup_seq in Hn as [-> Hlt]. done.
Qed.

Lemma for_collect_length {I A} (body : I → Result A) idx xs :
  for_collect body idx = Ok xs → length xs = length idx.
Proof.
  intros Hrun. apply for_collect_Forall2 in Hrun.
  symmetry. by eapply Forall2_length.
Qed.

(** A loop over [a, a + len) that runs to its end establishes its
    invariant, when every iteration runs and keeps it. *)
Lemma for_each_seq_inv {S} (body : nat → S → Result S) (Inv : nat → S → Prop) :
  ∀ len a s,
    Inv a s →
    (∀ n s, (a ≤ n < a + len)%nat → Inv n s →
            ∃ s', body n s = Ok s' ∧ Inv (Datatypes.S n) s') →
    ∃ s', for_each body (seq a len) s = Ok s' ∧ Inv (a + len)%nat s'.
Proof.
  induction len as [|len IH]; intros a s Ha Hstep; simpl.
  - exists s. by rewrite Nat.add_0_r.
  - destruct (Hstep a s) as (s1 & -> & Hs1); [lia|done|].
    rewrite bind_Ok.
    destruct (IH (Datatypes.S a) s1) as (s2 & -> & Hs2); [done| |].
    + intros n s' Hn. apply Hstep. lia.
    + exists s2. split; [done|].
      by replace (a + Datatypes.S len)%nat
        with (Datatypes.S a + len)%nat by lia.
Qed.

(** The same for a loop that is known to have run. *)
Lemma for_each_seq_run {S} (body : nat → S → Result S) (Inv : nat → S → Prop) :
  ∀ len a s s',
    for_each body (seq a len) s = Ok s' →
    Inv a s →
    (∀ n s s1, (a ≤ n < a + len)%nat → Inv n s → body n s = Ok s1 →
               Inv (Datatypes.S n) s1) →
    Inv (a + len)%nat s'.
Proof.
  induction len as [|len IH]; intros a s s' Hrun Ha Hstep; simpl in Hrun.
  - apply Ok_inj in Hrun as <-. by rewrite Nat.add_0_r.
  - apply bind_Ok_inv in Hrun as (s1 & Hs1 & Hrun).
    replace (a + Datatypes.S len)%nat with (Datatypes.S a + len)%nat by lia.
    eapply IH; [exact Hrun| |].
    + eapply Hstep; [|exact Ha|exact Hs1]. lia.
    + intros n s2 s3 Hn. apply Hstep. lia.
Qed.

Lemma for_each_preserves {I S} (body : I → S → Result S) (P : S → Prop) idx :
  (∀ n s s', body n s = Ok s' → P s → P s') →
  ∀ s s', for_each body idx s = Ok s' → P s → P s'.
Proof.
  intros Hbody.
  induction idx as [|n idx IH]; intros s s' Hrun Hs; simpl in Hrun.
  - by apply Ok_inj in Hrun as <-.
  - apply bind_Ok_inv in Hrun as (s1 & Hs1 & Hrun). eauto.
Qed.

(** ** Blocked arrays *)

Lemma blocked_point_Ok d_dimension coords num_points n :
  (Z.to_nat d_dimension * num_points ≤ length coords)%nat →
  (n < num_points)%nat →
  blocked_point d_dimension coords num_points n
  = Ok ((λ d, coords !!! (d * num_points + n)%nat)
        <$> seq 0 (Z.to_nat d_dimension)).
Proof.
  intros Hlen Hn. unfold blocked_point. apply for_collect_Ok.
  intros d Hd. apply elem_of_seq in Hd.
  unfold array_get.
  destruct (lookup_lt_is_Some_2 coords (d * num_points + n)) as [x Hx]; [nia|].
  rewrite Hx. f_equal. symmetry. by apply list_lookup_total_correct.
Qed.

Lemma quot_points_bound (len : nat) (dimension : Z) :
  (0 < dimension)%Z →
  (Z.to_nat dimension * Z.to_nat (Z.of_nat len ÷ dimension) ≤ len)%nat.
Proof.
  intros Hd.
  assert (0 ≤ Z.of_nat len)%Z as Hlen by lia.
  rewrite Z.quot_div_nonneg by lia.
  pose proof (Z.mul_div_le (Z.of_nat len) dimension Hd).
  assert (0 ≤ Z.of_nat len `div` dimension)%Z by (apply Z.div_pos; lia).
  lia.
Qed.

Lemma blocked_index_inj (L d d' j j' : nat) :
  (j < L)%nat → (j' < L)%nat → (d * L + j = d' * L + j')%nat →
  d = d' ∧ j = j'.
Proof.
  intros Hj Hj' Heq.
  destruct (Nat.lt_trichotomy d d') as [Hlt|[->|Hlt]].
  - replace d' with (d + 1 + (d' - d - 1))%nat in Heq by lia. nia.
  - split; [done|lia].
  - replace d with (d' + 1 + (d - d' - 1))%nat in Heq by lia. nia.
Qed.

(** ** Ordinal types *)

Lemma ordinal_wrap_id T z :
  (0 < ord_bits T)%Z → (ordinal_min T ≤ z ≤ ordinal_max T)%Z →
  ordinal_wrap T z = z.
Proof.
  unfold ordinal_wrap, ordinal_min, ordinal_max. intros Hb Hz.
  destruct (ord_signed T).
  - assert (2 ^ ord_bits T = 2 * 2 ^ (ord_bits T - 1))%Z as Hpow.
    { rewrite <- Z.pow_succ_r by lia. f_equal. lia. }
    rewrite Z.mod_small by lia. lia.
  - apply Z.mod_small. lia.
Qed.

Lemma ordinal_min_nonpos T : (ordinal_min T ≤ 0)%Z.
Proof.
  unfold ordinal_min. destruct (ord_signed T); [|done].
  pose proof (Z.pow_nonneg 2 (ord_bits T - 1)). lia.
Qed.

(** The sentinel of the search, the largest ordinal, compares equal to -1
    exactly for the unsigned ordinal types. *)
Lemma is_minus_one_max_unsigned T :
  ord_signed T = false → (0 ≤ ord_bits T)%Z →
  is_minus_one T (ordinal_max T) = true.
Proof.
  intros Hs Hb. unfold is_minus_one, ordinal_wrap, ordinal_max. rewrite Hs.
  apply Z.eqb_eq.
  pose proof (Z.pow_pos_nonneg 2 (ord_bits T) ltac:(lia) Hb) as Hpos.
  symmetry. rewrite <- (Z.mod_small (2 ^ ord_bits T - 1) (2 ^ ord_bits T)) by lia.
  replace (-1)%Z with (2 ^ ord_bits T - 1 + -1 * 2 ^ ord_bits T)%Z by lia.
  apply Z.mod_add. lia.
Qed.

Lemma is_minus_one_max_signed T :
  ord_signed T = true → (1 < ord_bits T)%Z →
  is_minus_one T (ordinal_max T) = false.
Proof.
  intros Hs Hb. unfold is_minus_one. rewrite ordinal_wrap_id.
  - apply Z.eqb_neq. unfold ordinal_max. rewrite Hs.
    pose proof (Z.pow_gt_1 2 (ord_bits T - 1) ltac:(lia)). lia.
  - lia.
  - unfold ordinal_min, ordinal_max. rewrite Hs.
    pose proof (Z.pow_gt_1 2 (ord_bits T - 1) ltac:(lia)). lia.
Qed.

(** ** The rendezvous engine *)

Section RendezvousProofs.
Import Rendezvous.

(** C6: for a blocked coordinate list of N = size/dimension points,
    [elementsContainingPoints] returns two arrays of length N; entry n of the
    first is the id of the element the tree search confirms for point n and
    entry n of the second the rank the element-to-source-rank map records for
    it; when the search confirms no element the entries are the largest
    value of the ordinal type and -1. The function returns whenever the
    dimension is positive, the tree is built and every element of the tree
    has an entry in the map. *)
Theorem elementsContainingPoints_spec (T : OrdinalType) (r : Rendezvous.t)
    (findPoint : ElementTree) (coords : list Q) (elements0 procs0 : list Z)
    (tolerance : Q) :
  (0 < d_dimension r)%Z →
  d_element_tree r = Some findPoint →
  (∀ p e, findPoint p tolerance = Some e →
          is_Some (d_element_src_procs_map r !! e)) →
  let N := Z.to_nat (Z.of_nat (length coords) ÷ d_dimension r) in
  ∃ elements procs,
    elementsContainingPoints T r coords elements0 procs0 tolerance
    = Ok (elements, procs)
    ∧ length elements = N ∧ length procs = N
    ∧ ∀ n, (n < N)%nat →
        ∃ point,
          blocked_point (d_dimension r) coords N n = Ok point
          ∧ match findPoint point tolerance with
            | Some e =>
                elements !! n = Some e
                ∧ procs !! n = d_element_src_procs_map r !! e
            | None =>
                elements !! n = Some (ordinal_max T)
                ∧ procs !! n = Some (-1)%Z
            end.
Proof.
  intros Hdim Htree Hmap N.
  set (point := λ n : nat,
         (λ d, coords !!! (d * N + n)%nat)
         <$> seq 0 (Z.to_nat (d_dimension r))).
  set (entry_ok := λ (elements procs : list Z) (n : nat),
         match findPoint (point n) tolerance with
         | Some e =>
             elements !! n = Some e
             ∧ procs !! n = d_element_src_procs_map r !! e
         | None =>
             elements !! n = Some (ordinal_max T)
             ∧ procs !! n = Some (-1)%Z
         end).
  assert (∀ n, (n < N)%nat →
            blocked_point (d_dimension r) coords N n = Ok (point n)) as Hpoint.
  { intros n Hn. apply blocked_point_Ok; [|done].
    by apply quot_points_bound. }
  unfold elementsContainingPoints. rewrite Htree. fold N.
  destruct (for_each_seq_inv
    (λ n '(elements, element_src_procs),
         point ← blocked_point (d_dimension r) coords N n;
         match findPoint point tolerance with
         | Some element_ordinal =>
             elements ← array_set elements n element_ordinal;
             src ← map_find (d_element_src_procs_map r) element_ordinal;
             element_src_procs ← array_set element_src_procs n src;
             Ok (elements, element_src_procs)
         | None =>
             elements ← array_set elements n (ordinal_max T);
             element_src_procs ← array_set element_src_procs n (-1)%Z;
             Ok (elements, element_src_procs)
         end)
    (λ k s, length s.1 = N ∧ length s.2 = N
            ∧ ∀ n, (n < k)%nat → entry_ok s.1 s.2 n)
    N 0%nat (resize N 0%Z elements0, resize N 0%Z procs0))
    as ([els procs] & Hrun & Hlen1 & Hlen2 & Hall).
  - simpl. rewrite !length_resize. repeat split; auto. intros; lia.
  - intros n [els procs] Hn (Hl1 & Hl2 & Hprev). simpl in Hl1, Hl2, Hprev.
    rewrite Hpoint by lia. rewrite bind_Ok.
    destruct (findPoint (point n) tolerance) as [e|] eqn:Hfind.
    + destruct (Hmap _ _ Hfind) as [p Hp].
      rewrite (array_set_Ok els) by lia. rewrite bind_Ok.
      unfold map_find. rewrite Hp, bind_Ok.
      rewrite (array_set_Ok procs) by lia. rewrite bind_Ok.
      eexists; split; [reflexivity|]. simpl.
      rewrite !length_insert. repeat split; auto.
      intros n' Hn'. unfold entry_ok.
      destruct (decide (n' = n)) as [->|Hne].
      * rewrite Hfind. rewrite !list_lookup_insert_eq by lia. by rewrite Hp.
      * rewrite !list_lookup_insert_ne by done. apply Hprev. lia.
    + rewrite (array_set_Ok els) by lia. rewrite bind_Ok.
      rewrite (array_set_Ok procs) by lia. rewrite bind_Ok.
      eexists; split; [reflexivity|]. simpl.
      rewrite !length_insert. repeat split; auto.
      intros n' Hn'. unfold entry_ok.
      destruct (decide (n' = n)) as [->|Hne].
      * rewrite Hfind. by rewrite !list_lookup_insert_eq by lia.
      * rewrite !list_lookup_insert_ne by done. apply Hprev. lia.
  - exists els, procs. simpl in Hlen1, Hlen2, Hall.
    split; [exact Hrun|]. repeat split; auto.
    intros n Hn. exists (point n). split; [by apply Hpoint|].
    by apply Hall.
Qed.

(** The exponent of [getMeshInBox] is 0 from dimension 2 on, and the typical
    length is then 1 whatever the box and the element count. *)
Lemma typical_length_integer_exponent box dimension n :
  (2 ≤ dimension)%Z →
  typical_length_exponent dimension = 0%Z ∧ typical_length box dimension n = 1%Q.
Proof.
  intros Hd.
  assert (typical_length_exponent dimension = 0%Z) as Hexp
    by (unfold typical_length_exponent; apply Z.quot_small; lia).
  split; [done|]. unfold typical_length. by rewrite Hexp.
Qed.

Lemma expanded_bounds_faces box dimension n x0 y0 z0 x1 y1 z1 :
  getBounds box = [x0; y0; z0; x1; y1; z1] →
  (1 ≤ dimension ≤ 3)%Z →
  let delta := (typical_length box dimension n + tol)%Q in
  let moved (a : nat) := bool_decide (Z.of_nat a < dimension)%Z in
  expanded_bounds box dimension n
  = [ if moved 0%nat then (x0 - delta)%Q else x0;
      if moved 1%nat then (y0 - delta)%Q else y0;
      if moved 2%nat then (z0 - delta)%Q else z0;
      if moved 0%nat then (x1 + delta)%Q else x1;
      if moved 1%nat then (y1 + delta)%Q else y1;
      if moved 2%nat then (z1 + delta)%Q else z1 ].
Proof.
  intros Hbounds Hdim delta moved. unfold expanded_bounds. fold delta.
  rewrite Hbounds. clearbody delta.
  assert (dimension = 1 ∨ dimension = 2 ∨ dimension = 3)%Z
    as [-> | [-> | ->]] by lia;
    reflexivity.
Qed.

Lemma typical_length_positive box dimension n x0 y0 z0 x1 y1 z1 :
  getBounds box = [x0; y0; z0; x1; y1; z1] →
  (1 ≤ dimension ≤ 3)%Z → (0 < n)%Z → (x0 <= x1)%Q →
  (0 < typical_length box dimension n + tol)%Q.
Proof.
  intros Hbounds Hdim Hn Hx.
  unfold typical_length, typical_length_exponent, tol.
  assert (dimension = 1 ∨ dimension = 2 ∨ dimension = 3)%Z
    as [-> | [-> | ->]] by lia.
  - change (1 ÷ 1)%Z with 1%Z. unfold volume. rewrite Hbounds. simpl foldl.
    change ([x0; y0; z0; x1; y1; z1] !!! (0 + 3)%nat) with x1.
    change ([x0; y0; z0; x1; y1; z1] !!! 0%nat) with x0.
    assert (0 <= (1 * (x1 - x0)) / inject_Z n)%Q as Hnonneg.
    { unfold Qdiv. apply Qmult_le_0_compat; [lra|].
      apply Qinv_le_0_compat. change 0%Q with (inject_Z 0).
      rewrite <- Zle_Qle. lia. }
    simpl Qpower. lra.
  - change (1 ÷ 2)%Z with 0%Z. simpl Qpower. lra.
  - change (1 ÷ 3)%Z with 0%Z. simpl Qpower. lra.
Qed.

Lemma getMeshInBox_inv r mesh r1 mesh1 :
  getMeshInBox r mesh = Ok (r1, mesh1) →
  r1 = set_global_box r
         (mkBoundingBox
            (expanded_bounds (d_global_box r) (d_dimension r)
               (globalNumElements mesh)))
  ∧ blocks mesh1 = blocks mesh
  ∧ ∀ b block, blocks mesh !! b = Some block →
      ∃ vertices_in_box elements_in_box,
        block_in_box r1 block = Ok (vertices_in_box, elements_in_box)
        ∧ getActiveVertices mesh1 !! b = Some vertices_in_box
        ∧ getActiveElements mesh1 !! b = Some elements_in_box.
Proof.
  unfold getMeshInBox. intros Hrun.
  apply bind_Ok_inv in Hrun as (mesh' & Hloop & Hrun).
  apply Ok_inj in Hrun. injection Hrun as <- <-.
  split; [done|].
  set (r1 := set_global_box r _) in *.
  apply (for_each_seq_run _
    (λ k mm,
       blocks mm = blocks mesh
       ∧ ∀ b block, (b < k)%nat → blocks mesh !! b = Some block →
           ∃ v e, block_in_box r1 block = Ok (v, e)
                  ∧ getActiveVertices mm !! b = Some v
                  ∧ getActiveElements mm !! b = Some e)) in Hloop.
  - destruct Hloop as [Hblocks Hall]. split; [done|].
    intros b block Hb. apply (Hall b block); [|done].
    apply lookup_lt_Some in Hb. unfold getNumBlocks. simpl. lia.
  - split; [done|]. intros; lia.
  - intros n mm mm1 Hn [Hblocks Hprev] Hbody.
    apply bind_Ok_inv in Hbody as (block & Hblock & Hbody).
    apply bind_Ok_inv in Hbody as ([v e] & Hfilter & Hbody).
    apply Ok_inj in Hbody as <-.
    apply array_get_Ok_inv in Hblock. rewrite Hblocks in Hblock.
    split; [done|].
    assert (n < getNumBlocks mm)%nat as Hnb.
    { unfold getNumBlocks. rewrite Hblocks. by eapply lookup_lt_Some. }
    intros b block' Hb Hblock'.
    unfold setActiveElements, setActiveVertices;
      cbn [getActiveVertices getActiveElements blocks].
    destruct (decide (b = n)) as [->|Hne].
    + rewrite Hblock in Hblock'. injection Hblock' as <-.
      exists v, e. split; [done|].
      rewrite !list_lookup_insert_eq; [done| |];
        rewrite length_resize; unfold getNumBlocks in *; simpl; lia.
    + destruct (Hprev b block') as (v' & e' & Hf & Hv & He); [lia|done|].
      exists v', e'. split; [done|].
      rewrite !list_lookup_insert_ne by done.
      unfold getNumBlocks; cbn [blocks].
      rewrite !lookup_resize; [done| | | |]; try (by eapply lookup_lt_Some);
        unfold getNumBlocks in Hnb; lia.
Qed.

Lemma build_inv migration r mesh r' mesh' :
  build migration r (Some mesh) = Ok (r', mesh') →
  ∃ r1 mesh1,
    getMeshInBox r mesh = Ok (r1, mesh1)
    ∧ mesh' = Some mesh1
    ∧ d_global_box r' = d_global_box r1
    ∧ d_dimension r' = d_dimension r1.
Proof.
  unfold build. intros Hrun.
  apply bind_Ok_inv in Hrun as ([r1 mesh1] & Hbox & Hrun).
  apply bind_Ok_inv in Hbox as ([r2 mesh2] & Hbox & Hret).
  apply Ok_inj in Hret. injection Hret as <- <-.
  apply Ok_inj in Hrun. injection Hrun as <- <-.
  exists r2, mesh2. done.
Qed.

(** The vertex loop of [getMeshInBox] runs on a block whose coordinate array
    holds [d_dimension] coordinates per vertex; it flags every vertex by the
    membership of its coordinate in the box and indexes every vertex id. *)
Lemma vertices_in_box_loop_spec d_dimension box block :
  (Z.to_nat d_dimension * numVertices block ≤ length (coordsView block))%nat →
  ∃ vertex_indices vertices_in_box,
    vertices_in_box_loop d_dimension box block
    = Ok (vertex_indices, vertices_in_box)
    ∧ length vertices_in_box = numVertices block
    ∧ (∀ n, (n < numVertices block)%nat →
         ∃ point,
           blocked_point d_dimension (coordsView block) (numVertices block) n
           = Ok point
           ∧ vertices_in_box !! n = Some (pointInBox box point))
    ∧ (∀ gid idx, vertex_indices !! gid = Some idx →
         (0 ≤ idx < Z.of_nat (numVertices block))%Z
         ∧ verticesView block !! Z.to_nat idx = Some gid)
    ∧ (∀ gid, gid ∈ verticesView block → is_Some (vertex_indices !! gid)).
Proof.
  intros Hcoords. unfold vertices_in_box_loop.
  set (V := numVertices block) in *.
  set (pt := λ n : nat,
         (λ d, coordsView block !!! (d * V + n)%nat)
         <$> seq 0 (Z.to_nat d_dimension)).
  destruct (for_each_seq_inv
    (λ n '(vertex_indices, vertices_in_box),
       gid ← array_get (verticesView block) n;
       vertex_coords ← blocked_point d_dimension (coordsView block) V n;
       Ok (<[gid := Z.of_nat n]> vertex_indices,
           vertices_in_box ++ [pointInBox box vertex_coords]))
    (λ k (s : gmap Z Z * list bool),
       length s.2 = k
       ∧ (∀ n, (n < k)%nat → s.2 !! n = Some (pointInBox box (pt n)))
       ∧ (∀ gid idx, s.1 !! gid = Some idx →
            (0 ≤ idx < Z.of_nat k)%Z
            ∧ verticesView block !! Z.to_nat idx = Some gid)
       ∧ (∀ n gid, (n < k)%nat → verticesView block !! n = Some gid →
                   is_Some (s.1 !! gid)))
    V 0%nat (∅, [])) as ([vi vib] & Hrun & Hlen & Hflags & Hrange & Hdom).
  - simpl. split; [done|]. split; [intros; lia|]. split.
    + intros gid idx Hl. by rewrite lookup_empty in Hl.
    + intros; lia.
  - intros n [vi vib] Hn (Hlen & Hflags & Hrange & Hdom). simpl in *.
    destruct (lookup_lt_is_Some_2 (verticesView block) n) as [gid Hgid];
      [unfold V, numVertices in Hn; lia|].
    unfold array_get at 1. rewrite Hgid, bind_Ok.
    rewrite blocked_point_Ok by (done || lia). rewrite bind_Ok. fold (pt n).
    eexists; split; [reflexivity|]. simpl.
    split; [rewrite length_app; simpl; lia|]. split; [|split].
    + intros n' Hn'. destruct (decide (n' = n)) as [->|Hne].
      * rewrite lookup_app_r by lia. by rewrite Hlen, Nat.sub_diag.
      * rewrite lookup_app_l by lia. apply Hflags. lia.
    + intros g idx Hl. destruct (decide (g = gid)) as [->|Hne].
      * rewrite lookup_insert_eq in Hl. injection Hl as <-.
        rewrite Nat2Z.id. split; [lia|done].
      * rewrite lookup_insert_ne in Hl by done.
        apply Hrange in Hl as [Hl1 Hl2]. split; [lia|done].
    + intros n' g Hn' Hg. destruct (decide (g = gid)) as [->|Hne].
      * rewrite lookup_insert_eq. eauto.
      * rewrite lookup_insert_ne by done.
        destruct (decide (n' = n)) as [->|Hnn]; [congruence|].
        apply (Hdom n'); [lia|done].
  - simpl in *. exists vi, vib. split; [done|]. split; [done|].
    split; [|split].
    + intros n Hn. exists (pt n). split; [|by apply Hflags].
      by apply blocked_point_Ok.
    + exact Hrange.
    + intros gid Hgid. apply list_elem_of_lookup in Hgid as [n Hn].
      apply (Hdom n); [|done]. by eapply lookup_lt_Some.
Qed.

Section ElementLoop.
Context (block : MeshBlock) (vertex_indices : gmap Z Z).
Context (Hconn : (verticesPerElement block * numElements block
                  ≤ length (connectivityView block))%nat).
Context (Hdom : ∀ gid, gid ∈ connectivityView block →
                       is_Some (vertex_indices !! gid)).
Context (Hrange : ∀ gid idx, vertex_indices !! gid = Some idx →
                             (0 ≤ idx < Z.of_nat (numVertices block))%Z).

(** The vertex of position [i] of element [n], as the loops resolve it. *)
Lemma element_vertex n i :
  (n < numElements block)%nat → (i < verticesPerElement block)%nat →
  ∃ gid idx,
    connectivityView block !! (i * numElements block + n)%nat = Some gid
    ∧ vertex_indices !! gid = Some idx
    ∧ (0 ≤ idx < Z.of_nat (numVertices block))%Z.
Proof.
  intros Hn Hi.
  destruct (lookup_lt_is_Some_2 (connectivityView block)
              (i * numElements block + n)) as [gid Hgid]; [nia|].
  destruct (Hdom gid) as [idx Hidx]; [by eapply list_elem_of_lookup_2|].
  exists gid, idx. eauto.
Qed.

Lemma element_decision_loop vertices_in_box n :
  length vertices_in_box = numVertices block →
  (n < numElements block)%nat →
  ∃ this_element_in_box,
    for_each
      (λ i this_element_in_box,
         vertex_ordinal ←
           array_get (connectivityView block) (i * numElements block + n);
         vertex_index ← map_find vertex_indices vertex_ordinal;
         flag ← array_get_Z vertices_in_box vertex_index;
         Ok (if flag : bool then true else this_element_in_box))
      (seq 0 (verticesPerElement block)) false
    = Ok this_element_in_box
    ∧ ∀ i gid idx,
        (i < verticesPerElement block)%nat →
        connectivityView block !! (i * numElements block + n)%nat = Some gid →
        vertex_indices !! gid = Some idx →
        vertices_in_box !! Z.to_nat idx = Some true →
        this_element_in_box = true.
Proof.
  intros Hlen Hn.
  destruct (for_each_seq_inv
    (λ i this_element_in_box,
       vertex_ordinal ←
         array_get (connectivityView block) (i * numElements block + n);
       vertex_index ← map_find vertex_indices vertex_ordinal;
       flag ← array_get_Z vertices_in_box vertex_index;
       Ok (if flag : bool then true else this_element_in_box))
    (λ k this,
       ∀ i gid idx,
         (i < k)%nat →
         connectivityView block !! (i * numElements block + n)%nat = Some gid →
         vertex_indices !! gid = Some idx →
         vertices_in_box !! Z.to_nat idx = Some true →
         this = true)
    (verticesPerElement block) 0%nat false) as (this & Hrun & Hthis).
  - intros; lia.
  - intros i this Hi Hprev.
    destruct (element_vertex n i) as (gid & idx & Hgid & Hidx & Hr);
      [done|lia|].
    unfold array_get at 1. rewrite Hgid, bind_Ok.
    unfold map_find. rewrite Hidx, bind_Ok.
    unfold array_get_Z. rewrite decide_True by lia.
    destruct (lookup_lt_is_Some_2 vertices_in_box (Z.to_nat idx))
      as [flag Hflag]; [lia|].
    unfold array_get. rewrite Hflag, bind_Ok.
    eexists; split; [reflexivity|].
    intros i' gid' idx' Hi' Hgid' Hidx' Hflag'.
    destruct (decide (i' = i)) as [->|Hne].
    + rewrite Hgid in Hgid'. injection Hgid' as <-.
      rewrite Hidx in Hidx'. injection Hidx' as <-.
      rewrite Hflag in Hflag'. by injection Hflag' as ->.
    + destruct flag; [done|]. eapply Hprev; [|done..]. lia.
  - exists this. split; [done|]. exact Hthis.
Qed.

Lemma element_halo_loop vertices_in_box n :
  length vertices_in_box = numVertices block →
  (n < numElements block)%nat →
  ∃ vertices_in_box',
    for_each
      (λ i vertices_in_box,
         vertex_ordinal ←
           array_get (connectivityView block) (i * numElements block + n);
         vertex_index ← map_find vertex_indices vertex_ordinal;
         if decide (0 ≤ vertex_index)%Z
         then array_set vertices_in_box (Z.to_nat vertex_index) true
         else Throw UndefinedBehaviour)
      (seq 0 (verticesPerElement block)) vertices_in_box
    = Ok vertices_in_box'
    ∧ length vertices_in_box' = numVertices block
    ∧ ∀ idx, vertices_in_box !! idx = Some true →
             vertices_in_box' !! idx = Some true.
Proof.
  intros Hlen Hn.
  destruct (for_each_seq_inv
    (λ i vertices_in_box,
       vertex_ordinal ←
         array_get (connectivityView block) (i * numElements block + n);
       vertex_index ← map_find vertex_indices vertex_ordinal;
       if decide (0 ≤ vertex_index)%Z
       then array_set vertices_in_box (Z.to_nat vertex_index) true
       else Throw UndefinedBehaviour)
    (λ _ vib,
       length vib = numVertices block
       ∧ ∀ idx, vertices_in_box !! idx = Some true → vib !! idx = Some true)
    (verticesPerElement block) 0%nat vertices_in_box)
    as (vib & Hrun & Hlen' & Hmono).
  - done.
  - intros i vib Hi [Hl Hm].
    destruct (element_vertex n i) as (gid & idx & Hgid & Hidx & Hr);
      [done|lia|].
    unfold array_get at 1. rewrite Hgid, bind_Ok.
    unfold map_find. rewrite Hidx, bind_Ok.
    rewrite decide_True by lia. rewrite array_set_Ok by lia.
    eexists; split; [reflexivity|].
    split; [by rewrite length_insert|].
    intros j Hj. destruct (decide (j = Z.to_nat idx)) as [->|Hne].
    + apply list_lookup_insert_eq. lia.
    + rewrite list_lookup_insert_ne by done. auto.
  - exists vib. done.
Qed.

(** The element loop of [getMeshInBox] runs; it never clears a vertex
    flag, and it marks every element one of whose vertices was flagged
    when the loop started. *)
Lemma elements_in_box_loop_spec vertices_in_box :
  length vertices_in_box = numVertices block →
  ∃ vertices_in_box' elements_in_box,
    elements_in_box_loop block vertex_indices vertices_in_box
    = Ok (vertices_in_box', elements_in_box)
    ∧ length vertices_in_box' = numVertices block
    ∧ length elements_in_box = numElements block
    ∧ (∀ idx, vertices_in_box !! idx = Some true →
              vertices_in_box' !! idx = Some true)
    ∧ ∀ n i gid idx,
        (n < numElements block)%nat →
        (i < verticesPerElement block)%nat →
        connectivityView block !! (i * numElements block + n)%nat = Some gid →
        vertex_indices !! gid = Some idx →
        vertices_in_box !! Z.to_nat idx = Some true →
        elements_in_box !! n = Some true.
Proof.
  intros Hlen. unfold elements_in_box_loop.
  destruct (for_each_seq_inv
    (λ n '(vertices_in_box, elements_in_box),
       this_element_in_box ←
         for_each
           (λ i this_element_in_box,
              vertex_ordinal ←
                array_get (connectivityView block)
                  (i * numElements block + n);
              vertex_index ← map_find vertex_indices vertex_ordinal;
              flag ← array_get_Z vertices_in_box vertex_index;
              Ok (if flag : bool then true else this_element_in_box))
           (seq 0 (verticesPerElement block)) false;
       let elements_in_box := elements_in_box ++ [this_element_in_box] in
       vertices_in_box ←
         (if this_element_in_box : bool
          then
            for_each
              (λ i vertices_in_box,
                 vertex_ordinal ←
                   array_get (connectivityView block)
                     (i * numElements block + n);
                 vertex_index ← map_find vertex_indices vertex_ordinal;
                 if decide (0 ≤ vertex_index)%Z
                 then array_set vertices_in_box (Z.to_nat vertex_index) true
                 else Throw UndefinedBehaviour)
              (seq 0 (verticesPerElement block)) vertices_in_box
          else Ok vertices_in_box);
       Ok (vertices_in_box, elements_in_box))
    (λ k (s : list bool * list bool),
       length s.1 = numVertices block
       ∧ length s.2 = k
       ∧ (∀ idx, vertices_in_box !! idx = Some true →
                 s.1 !! idx = Some true)
       ∧ ∀ n i gid idx,
           (n < k)%nat → (i < verticesPerElement block)%nat →
           connectivityView block !! (i * numElements block + n)%nat
           = Some gid →
           vertex_indices !! gid = Some idx →
           vertices_in_box !! Z.to_nat idx = Some true →
           s.2 !! n = Some true)
    (numElements block) 0%nat (vertices_in_box, []))
    as ([vib eib] & Hrun & Hl1 & Hl2 & Hmono & Hmarked).
  - simpl. repeat split; auto. intros; lia.
  - intros n [vib eib] Hn (Hl1 & Hl2 & Hmono & Hmarked). simpl in *.
    destruct (element_decision_loop vib n) as (this & -> & Hthis);
      [done|lia|].
    rewrite bind_Ok.
    assert (∃ vib',
              (if this
               then
                 for_each
                   (λ i vertices_in_box,
                      vertex_ordinal ←
                        array_get (connectivityView block)
                          (i * numElements block + n);
                      vertex_index ← map_find vertex_indices vertex_ordinal;
                      if decide (0 ≤ vertex_index)%Z
                      then array_set vertices_in_box
                             (Z.to_nat vertex_index) true
                      else Throw UndefinedBehaviour)
                   (seq 0 (verticesPerElement block)) vib
               else Ok vib) = Ok vib'
              ∧ length vib' = numVertices block
              ∧ ∀ idx, vib !! idx = Some true → vib' !! idx = Some true)
      as (vib' & -> & Hl' & Hm').
    { destruct this; [apply element_halo_loop; [done|lia]|].
      exists vib. done. }
    rewrite bind_Ok. eexists; split; [reflexivity|]. simpl.
    split; [done|]. split; [rewrite length_app; simpl; lia|].
    split; [auto|].
    intros n' i gid idx Hn' Hi Hgid Hidx Hflag.
    destruct (decide (n' = n)) as [->|Hne].
    + rewrite lookup_app_r by lia. rewrite Hl2, Nat.sub_diag. simpl.
      f_equal. eapply Hthis; eauto.
    + rewrite lookup_app_l by lia. eapply Hmarked; eauto. lia.
  - exists vib, eib. simpl in *. done.
Qed.
End ElementLoop.

(** On a block whose arrays have the sizes the mesh traits promise, whose
    vertex ids are distinct and whose connectivity names vertices of the
    block, the two loops run, and an element is marked in the box whenever
    one of its vertices has its coordinate in the stored box; such a vertex
    is flagged as well. *)
Lemma block_in_box_complete r block :
  (Z.to_nat (d_dimension r) * numVertices block
   ≤ length (coordsView block))%nat →
  (verticesPerElement block * numElements block
   ≤ length (connectivityView block))%nat →
  (∀ gid, gid ∈ connectivityView block → gid ∈ verticesView block) →
  NoDup (verticesView block) →
  ∃ vertices_in_box elements_in_box,
    block_in_box r block = Ok (vertices_in_box, elements_in_box)
    ∧ length vertices_in_box = numVertices block
    ∧ length elements_in_box = numElements block
    ∧ ∀ n i gid p point,
        (n < numElements block)%nat →
        (i < verticesPerElement block)%nat →
        connectivityView block !! (i * numElements block + n)%nat = Some gid →
        verticesView block !! p = Some gid →
        blocked_point (d_dimension r) (coordsView block) (numVertices block) p
        = Ok point →
        pointInBox (d_global_box r) point = true →
        elements_in_box !! n = Some true ∧ vertices_in_box !! p = Some true.
Proof.
  intros Hcoords Hconn Hclosed Hnodup. unfold block_in_box.
  destruct (vertices_in_box_loop_spec (d_dimension r) (d_global_box r) block
              Hcoords) as (vi & vib0 & -> & Hlen0 & Hflags & Hrange & Hdom).
  rewrite bind_Ok.
  destruct (elements_in_box_loop_spec block vi Hconn) with (vertices_in_box := vib0)
    as (vib & eib & -> & Hlen & Hlene & Hmono & Hmarked).
  - intros gid Hgid. apply Hdom. by apply Hclosed.
  - intros gid idx Hidx. by apply Hrange in Hidx as [? _].
  - done.
  - exists vib, eib. split; [done|]. split; [done|]. split; [done|].
    intros n i gid p point Hn Hi Hgid Hp Hpoint Hin.
    destruct (Hdom gid) as [idx Hidx]; [by eapply list_elem_of_lookup_2|].
    destruct (Hrange _ _ Hidx) as [Hr Hback].
    assert (Z.to_nat idx = p) as Hpos
      by (eapply NoDup_lookup; [exact Hnodup|exact Hback|exact Hp]).
    assert (vib0 !! p = Some true) as Hflag.
    { destruct (Hflags p) as (point' & Hpoint' & ->);
        [by eapply lookup_lt_Some|].
      rewrite Hpoint in Hpoint'. apply Ok_inj in Hpoint' as <-.
      by rewrite Hin. }
    split; [|by apply Hmono].
    eapply Hmarked; [exact Hn|exact Hi|exact Hgid|exact Hidx|].
    by rewrite Hpos.
Qed.

Lemma array_get_Ok {A} (a : list A) i x :
  a !! i = Some x → array_get a i = Ok x.
Proof. unfold array_get. by intros ->. Qed.

Lemma imap_fmap_ext {A B} (f : nat → A → B) (g : A → B) (l : list A) :
  (∀ i x, l !! i = Some x → f i x = g x) → imap f l = g <$> l.
Proof. intros Hfg. rewrite <- imap_const. by apply imap_ext. Qed.

(** What [elementsInGeometry] returns does not depend on any coordinate:
    with all vertices required every element of every block is appended to
    the list of every geometry, and with one vertex required no element
    is. *)
Lemma elementsInGeometry_constant `{GeometryTraits Geometry} (r : Rendezvous.t)
    (mesh : MeshManager) (geometry : list Geometry) (elements : list (list Z))
    (tolerance : Q) (all_vertices_for_inclusion : bool) :
  d_rendezvous_mesh_manager r = Some mesh →
  elementsInGeometry r geometry elements tolerance all_vertices_for_inclusion
  = Ok (if all_vertices_for_inclusion
        then (λ found, found ++ mjoin (elementsView <$> blocks mesh))
             <$> resize (length geometry) [] elements
        else resize (length geometry) [] elements).
Proof.
  intros Hmesh. unfold elementsInGeometry. rewrite Hmesh.
  set (els0 := resize (length geometry) [] elements).
  assert (length els0 = length geometry) as Hlen0
    by (unfold els0; by rewrite length_resize).
  set (step := λ (gids : list Z) (els : list (list Z)),
         if all_vertices_for_inclusion
         then (λ found, found ++ gids) <$> els else els).
  (* One block. *)
  assert (∀ b block els,
            blocks mesh !! b = Some block → length els = length geometry →
            for_each
              (λ e elements,
                 node_coords ←
                   for_collect
                     (λ n,
                        vertex_gid ←
                          array_get (connectivityView block)
                            (n * numElements block + e);
                        vertex_lid ← getLocalVertexId mesh b vertex_gid;
                        for_collect
                          (λ d, array_get (coordsView block)
                                  (numVertices block * d + vertex_lid))
                          (seq 0 (Z.to_nat (dim mesh))))
                     (seq 0 0);
                 gid ← array_get (elementsView block) e;
                 Ok (imap
                       (λ g found,
                          match geometry !! g with
                          | Some geom =>
                              if elementInGeometry geom node_coords tolerance
                                   all_vertices_for_inclusion
                              then found ++ [gid] else found
                          | None => found
                          end)
                       elements))
              (seq 0 (numElements block)) els
            = Ok (step (elementsView block) els)) as Hblock.
  { intros b block els Hb Hlen.
    assert (∀ gids, length (step gids els) = length geometry) as Hsteplen.
    { intros gids. unfold step. destruct all_vertices_for_inclusion;
        [by rewrite length_fmap|done]. }
    destruct (for_each_seq_inv
      (λ e elements,
         node_coords ←
           for_collect
             (λ n,
                vertex_gid ←
                  array_get (connectivityView block)
                    (n * numElements block + e);
                vertex_lid ← getLocalVertexId mesh b vertex_gid;
                for_collect
                  (λ d, array_get (coordsView block)
                          (numVertices block * d + vertex_lid))
                  (seq 0 (Z.to_nat (dim mesh))))
             (seq 0 0);
         gid ← array_get (elementsView block) e;
         Ok (imap
               (λ g found,
                  match geometry !! g with
                  | Some geom =>
                      if elementInGeometry geom node_coords tolerance
                           all_vertices_for_inclusion
                      then found ++ [gid] else found
                  | None => found
                  end)
               elements))
      (λ k s, s = step (take k (elementsView block)) els)
      (numElements block) 0%nat els) as (s & -> & ->).
    - unfold step. destruct all_vertices_for_inclusion; [|done].
      simpl. rewrite <- (list_fmap_id els) at 1. apply list_fmap_ext.
      intros i found _. by rewrite app_nil_r.
    - intros e s He ->. simpl in He. simpl for_collect. rewrite bind_Ok.
      destruct (lookup_lt_is_Some_2 (elementsView block) e) as [gid Hgid];
        [unfold numElements in He; lia|].
      unfold array_get. rewrite Hgid, bind_Ok.
      eexists; split; [reflexivity|].
      rewrite (take_S_r _ _ _ Hgid).
      rewrite (imap_fmap_ext _
        (λ found, if all_vertices_for_inclusion
                  then found ++ [gid] else found)).
      + unfold step.
        destruct all_vertices_for_inclusion; [|by rewrite list_fmap_id].
        rewrite <- list_fmap_compose. apply list_fmap_ext.
        intros i found _. simpl. by rewrite app_assoc.
      + intros g found Hg. apply lookup_lt_Some in Hg.
        rewrite Hsteplen in Hg.
        destruct (lookup_lt_is_Some_2 geometry g Hg) as [geom ->].
        unfold elementInGeometry. by destruct all_vertices_for_inclusion.
    - simpl. unfold numElements. by rewrite firstn_all. }
  (* All blocks. *)
  destruct (for_each_seq_inv
    (λ b elements,
       block ← array_get (blocks mesh) b;
       for_each
         (λ e elements,
            node_coords ←
              for_collect
                (λ n,
                   vertex_gid ←
                     array_get (connectivityView block)
                       (n * numElements block + e);
                   vertex_lid ← getLocalVertexId mesh b vertex_gid;
                   for_collect
                     (λ d, array_get (coordsView block)
                             (numVertices block * d + vertex_lid))
                     (seq 0 (Z.to_nat (dim mesh))))
                (seq 0 0);
            gid ← array_get (elementsView block) e;
            Ok (imap
                  (λ g found,
                     match geometry !! g with
                     | Some geom =>
                         if elementInGeometry geom node_coords tolerance
                              all_vertices_for_inclusion
                         then found ++ [gid] else found
                     | None => found
                     end)
                  elements))
         (seq 0 (numElements block)) elements)
    (λ k s, s = step (mjoin (elementsView <$> take k (blocks mesh))) els0)
    (getNumBlocks mesh) 0%nat els0) as (s & Hrun & ->).
  - unfold step. destruct all_vertices_for_inclusion; [|done].
    simpl. rewrite <- (list_fmap_id els0) at 1. apply list_fmap_ext.
    intros i found _. by rewrite app_nil_r.
  - intros b s Hb ->. simpl in Hb.
    destruct (lookup_lt_is_Some_2 (blocks mesh) b) as [block Hblk];
      [unfold getNumBlocks in Hb; lia|].
    rewrite (array_get_Ok _ _ _ Hblk), bind_Ok.
    rewrite (Hblock b block _ Hblk).
    + eexists; split; [reflexivity|].
      rewrite (take_S_r _ _ _ Hblk), fmap_app, join_app. simpl.
      rewrite app_nil_r. unfold step.
      destruct all_vertices_for_inclusion; [|done].
      rewrite <- list_fmap_compose. apply list_fmap_ext.
      intros i found _. simpl. by rewrite app_assoc.
    + unfold step. destruct all_vertices_for_inclusion;
        [by rewrite length_fmap|done].
  - rewrite Hrun. simpl. unfold getNumBlocks. rewrite firstn_all.
    unfold step. by destruct all_vertices_for_inclusion.
Qed.

End RendezvousProofs.

Lemma elementsContainingPoints_spec_witness :
  ∃ elements procs,
    Rendezvous.elementsContainingPoints UInt32 line_rendezvous
      [7 # 2; 5 # 2]%Q [] [] (1 # 1000000)
    = Ok (elements, procs)
    ∧ length elements = 2%nat ∧ length procs = 2%nat
    ∧ ∀ n, (n < 2)%nat →
        ∃ point,
          blocked_point 1 [7 # 2; 5 # 2]%Q 2 n = Ok point
          ∧ match line_tree 1 point (1 # 1000000) with
            | Some e =>
                elements !! n = Some e ∧ procs !! n = line_src_procs !! e
            | None =>
                elements !! n = Some (ordinal_max UInt32)
                ∧ procs !! n = Some (-1)%Z
            end.
Proof.
  apply (elementsContainingPoints_spec UInt32 line_rendezvous (line_tree 1)
           [7 # 2; 5 # 2]%Q [] [] (1 # 1000000)).
  - simpl. lia.
  - reflexivity.
  - intros p e. unfold line_tree.
    destruct (Qle_bool 0 _ && Qle_bool _ 1);
      [intros [= <-]; eexists; vm_compute; reflexivity|].
    destruct (Qle_bool 1 _ && Qle_bool _ 2);
      [intros [= <-]; eexists; vm_compute; reflexivity|].
    discriminate.
Defined.

(** C2: in [getMeshInBox] the exponent of the typical length is the
    quotient of the integers 1 and d, not the reciprocal of d. For the cube
    [0, 2]^3 with one element in dimension 3 the exponent is 0 and the
    typical length is 1, so every face is moved by 1 + 1/10000, while the
    cube root of the volume per element is 2. *)
Theorem getMeshInBox_exponent_is_integer_quotient :
  Rendezvous.typical_length_exponent 3 = 0%Z
  ∧ Rendezvous.typical_length cube_box 3 1 = 1%Q
  ∧ Rendezvous.expanded_bounds cube_box 3 1
    = [-10001 # 10000; -10001 # 10000; -10001 # 10000;
       30001 # 10000; 30001 # 10000; 30001 # 10000]%Q
  ∧ (2 ^ 3 == volume cube_box 3 / inject_Z 1)%Q
  ∧ ¬ (Rendezvous.typical_length cube_box 3 1 ^ 3
       == volume cube_box 3 / inject_Z 1)%Q.
Proof.
  split; [reflexivity|]. split; [reflexivity|].
  split; [vm_compute; reflexivity|].
  split; [vm_compute; reflexivity|].
  vm_compute. discriminate.
Qed.

(** C3: [elementsInGeometry] reads no vertex of an element, because the
    number of vertices it extracts per element stays 0. On the chain mesh
    and the box [0, 1] as geometry, element 100 has one vertex inside and
    one outside and element 101 has both outside; with all vertices required
    both elements are listed, and with one vertex required none is. *)
Theorem elementsInGeometry_reads_no_vertex :
  Rendezvous.elementsInGeometry chain_rendezvous [chain_box] [] 0 true
  = Ok [[100; 101]%Z]
  ∧ Rendezvous.elementsInGeometry chain_rendezvous [chain_box] [] 0 false
    = Ok [[]]
  ∧ pointInGeometry chain_box [1 # 2]%Q 0 = true
  ∧ pointInGeometry chain_box [5]%Q 0 = false
  ∧ pointInGeometry chain_box [9]%Q 0 = false.
Proof. repeat split; vm_compute; reflexivity. Qed.

(** C4: in [getMeshInBox] the vertices of an element in the box are marked
    inside the element loop, so a later element sees them. On the chain
    mesh only vertex 10 has its coordinate in the enlarged box; element 100
    is in the box, its vertex 11 is marked, and element 101, on the vertices
    11 and 12 at x = 5 and x = 9, is marked in the box as well. *)
Theorem getMeshInBox_halo_reaches_later_elements :
  ∃ r' mesh',
    Rendezvous.getMeshInBox (Rendezvous.new 1 chain_box) chain_mesh
    = Ok (r', mesh')
    ∧ (Rendezvous.vertices_in_box_loop 1 (Rendezvous.getBox r') chain_block
       ≫= λ x, Ok x.2) = Ok [true; false; false]
    ∧ pointInBox (Rendezvous.getBox r') [5]%Q = false
    ∧ pointInBox (Rendezvous.getBox r') [9]%Q = false
    ∧ getActiveElements mesh' = [[true; true]]
    ∧ getActiveVertices mesh' = [[true; true; true]].
Proof.
  eexists _, _. split; [vm_compute; reflexivity|].
  repeat split; vm_compute; reflexivity.
Qed.

(** ** Double arithmetic *)

(** Rounding to a significand of 53 bits moves a number by at most the
    fraction 2^-53 of its magnitude. *)

Lemma nearest_even_error p r :
  (0 < r)%Z → (2 * Z.abs (nearest_even p r * r - p) ≤ r)%Z.
Proof.
  intros Hr. unfold nearest_even.
  pose proof (Z.div_mod p r ltac:(lia)) as Hdm.
  pose proof (Z.mod_pos_bound p r Hr) as Hmod.
  destruct (2 * (p mod r) <? r)%Z eqn:H1; [apply Z.ltb_lt in H1; nia|].
  apply Z.ltb_ge in H1.
  destruct (r <? 2 * (p mod r))%Z eqn:H2; [apply Z.ltb_lt in H2; nia|].
  apply Z.ltb_ge in H2.
  destruct (Z.even (p / r)); nia.
Qed.

Lemma scaled_pos a b e p r :
  (0 < a)%Z → (0 < b)%Z → scaled a b e = (p, r) → (0 < p)%Z ∧ (0 < r)%Z.
Proof.
  intros Ha Hb. unfold scaled.
  destruct (0 <=? e)%Z eqn:He; intros [= <- <-].
  - apply Z.leb_le in He. pose proof (Z.pow_pos_nonneg 2 e). nia.
  - apply Z.leb_gt in He. pose proof (Z.pow_pos_nonneg 2 (- e)). nia.
Qed.

Lemma double_exponent_spec a b p r :
  (0 < a)%Z → (0 < b)%Z →
  scaled a b (double_exponent a b) = (p, r) → (2 ^ 52 * r ≤ p)%Z.
Proof.
  intros Ha Hb. unfold double_exponent.
  set (e := (Z.log2 a - Z.log2 b - 52)%Z).
  destruct (scaled a b e) as [p0 r0] eqn:H0.
  destruct (p0 <? 2 ^ 52 * r0)%Z eqn:Htest.
  - intros Hs. clear Htest H0 p0 r0.
    pose proof (Z.log2_spec a Ha) as [Hla _].
    pose proof (Z.log2_spec b Hb) as [_ Hlb].
    pose proof (Z.log2_nonneg a) as Hna.
    pose proof (Z.log2_nonneg b) as Hnb.
    unfold scaled in Hs.
    destruct (0 <=? e - 1)%Z eqn:He; injection Hs as <- <-.
    + apply Z.leb_le in He.
      assert (2 ^ 52 * 2 ^ (e - 1) * 2 ^ Z.succ (Z.log2 b) = 2 ^ Z.log2 a)%Z
        as Hpow.
      { rewrite <- !Z.pow_add_r by lia. f_equal. unfold e. lia. }
      pose proof (Z.pow_pos_nonneg 2 (e - 1) ltac:(lia) ltac:(lia)).
      pose proof (Z.pow_pos_nonneg 2 (Z.succ (Z.log2 b)) ltac:(lia) ltac:(lia)).
      nia.
    + apply Z.leb_gt in He.
      assert (2 ^ 52 * 2 ^ Z.succ (Z.log2 b)
              = 2 ^ Z.log2 a * 2 ^ (- (e - 1)))%Z as Hpow.
      { rewrite <- !Z.pow_add_r by lia. f_equal. unfold e. lia. }
      pose proof (Z.pow_pos_nonneg 2 (- (e - 1)) ltac:(lia) ltac:(lia)).
      nia.
  - intros Hs. rewrite H0 in Hs. injection Hs as <- <-.
    by apply Z.ltb_ge in Htest.
Qed.

(** The scaled quotient is below 2^53: the significand has 53 bits, no
    more. *)
Lemma scaled_upper a b :
  (0 < a)%Z → (0 < b)%Z →
  let '(p, r) := scaled a b (Z.log2 a - Z.log2 b - 52) in (p < 2 ^ 53 * r)%Z.
Proof.
  intros Ha Hb.
  pose proof (Z.log2_spec a Ha) as [_ Hla].
  pose proof (Z.log2_spec b Hb) as [Hlb _].
  pose proof (Z.log2_nonneg a) as Hna.
  pose proof (Z.log2_nonneg b) as Hnb.
  set (e := (Z.log2 a - Z.log2 b - 52)%Z).
  unfold scaled. destruct (0 <=? e)%Z eqn:He.
  - apply Z.leb_le in He.
    assert (2 ^ 53 * 2 ^ e * 2 ^ Z.log2 b = 2 ^ Z.succ (Z.log2 a))%Z as Hpow.
    { rewrite <- !Z.pow_add_r by lia. f_equal. unfold e. lia. }
    pose proof (Z.pow_pos_nonneg 2 e ltac:(lia) He).
    nia.
  - apply Z.leb_gt in He.
    assert (2 ^ Z.succ (Z.log2 a) * 2 ^ (- e) = 2 ^ 53 * 2 ^ Z.log2 b)%Z
      as Hpow.
    { rewrite <- !Z.pow_add_r by lia. f_equal. unfold e. lia. }
    pose proof (Z.pow_pos_nonneg 2 (- e) ltac:(lia) ltac:(lia)).
    nia.
Qed.

Lemma scaled_pred a b e p r p' r' :
  (0 < b)%Z →
  scaled a b e = (p, r) → scaled a b (e - 1) = (p', r') →
  (p' * r = 2 * p * r')%Z.
Proof.
  intros Hb. unfold scaled.
  destruct (0 <=? e)%Z eqn:He, (0 <=? e - 1)%Z eqn:He1;
    intros [= <- <-] [= <- <-].
  - apply Z.leb_le in He, He1.
    replace e with (Z.succ (e - 1)) at 1 by lia.
    rewrite Z.pow_succ_r by lia. lia.
  - apply Z.leb_le in He. apply Z.leb_gt in He1.
    assert (e = 0)%Z as -> by lia. simpl. lia.
  - apply Z.leb_gt in He. apply Z.leb_le in He1. lia.
  - apply Z.leb_gt in He, He1.
    replace (- (e - 1))%Z with (Z.succ (- e)) by lia.
    rewrite Z.pow_succ_r by lia. lia.
Qed.

Lemma double_exponent_upper a b p r :
  (0 < a)%Z → (0 < b)%Z →
  scaled a b (double_exponent a b) = (p, r) → (p < 2 ^ 53 * r)%Z.
Proof.
  intros Ha Hb. unfold double_exponent.
  pose proof (scaled_upper a b Ha Hb) as Hup.
  set (e := (Z.log2 a - Z.log2 b - 52)%Z) in *.
  destruct (scaled a b e) as [p0 r0] eqn:H0.
  pose proof (scaled_pos _ _ _ _ _ Ha Hb H0) as [Hp0 Hr0].
  destruct (p0 <? 2 ^ 52 * r0)%Z eqn:Htest.
  - apply Z.ltb_lt in Htest. intros Hs.
    pose proof (scaled_pos _ _ _ _ _ Ha Hb Hs) as [Hp Hr].
    pose proof (scaled_pred _ _ _ _ _ _ _ Hb H0 Hs) as Hrel.
    nia.
  - intros Hs. rewrite H0 in Hs. by injection Hs as <- <-.
Qed.

Lemma round_double_error q :
  (Qabs (round_double q - q) <= Qabs q * (1 # 9007199254740992))%Q.
Proof.
  destruct q as [n d]. unfold round_double. cbn [Qnum Qden].
  destruct (Z.abs n =? 0)%Z eqn:Hzero.
  { apply Z.eqb_eq in Hzero. assert (n = 0)%Z as -> by lia.
    assert (0 # d == 0)%Q as -> by reflexivity. vm_compute. discriminate. }
  apply Z.eqb_neq in Hzero.
  destruct (scaled (Z.abs n) (Z.pos d) (double_exponent (Z.abs n) (Z.pos d)))
    as [p r] eqn:Hs.
  assert (0 < Z.abs n)%Z as Ha by lia.
  pose proof (double_exponent_spec _ _ _ _ Ha (Pos2Z.is_pos d) Hs) as Hp.
  pose proof (scaled_pos _ _ _ _ _ Ha (Pos2Z.is_pos d) Hs) as [Hp0 Hr0].
  pose proof (nearest_even_error p r Hr0) as Herr.
  set (sig := nearest_even p r) in *. clearbody sig.
  set (e := double_exponent (Z.abs n) (Z.pos d)) in *. clearbody e.
  unfold scaled in Hs.
  destruct (0 <=? e)%Z eqn:He.
  - apply Z.leb_le in He. injection Hs as <- <-.
    pose proof (Z.pow_pos_nonneg 2 e ltac:(lia) He) as HE.
    set (E := (2 ^ e)%Z) in *. clearbody E.
    apply Qabs_Qle_condition.
    destruct (n <? 0)%Z eqn:Hneg.
    + apply Z.ltb_lt in Hneg.
      unfold Qabs, Qle, Qminus, Qplus, Qopp, Qmult, inject_Z. simpl.
      rewrite !Pos2Z.inj_mul. nia.
    + apply Z.ltb_ge in Hneg.
      unfold Qabs, Qle, Qminus, Qplus, Qopp, Qmult, inject_Z. simpl.
      rewrite !Pos2Z.inj_mul. nia.
  - apply Z.leb_gt in He. injection Hs as <- <-.
    pose proof (Z.pow_pos_nonneg 2 (- e) ltac:(lia) ltac:(lia)) as HE.
    set (E := (2 ^ (- e))%Z) in *. clearbody E.
    apply Qabs_Qle_condition.
    destruct (n <? 0)%Z eqn:Hneg.
    + apply Z.ltb_lt in Hneg.
      unfold Qabs, Qle, Qminus, Qplus, Qopp, Qmult. simpl.
      rewrite !Pos2Z.inj_mul, !Z2Pos.id by lia. nia.
    + apply Z.ltb_ge in Hneg.
      unfold Qabs, Qle, Qminus, Qplus, Qopp, Qmult. simpl.
      rewrite !Pos2Z.inj_mul, !Z2Pos.id by lia. nia.
Qed.

(** The rounding on numbers whose [double] is known: 1/10 and 1/10000 are
    the significands 0x1999999999999A and 0x1A36E2EB1C432D, a tie goes to
    the even neighbour, and beyond 2^53 the odd integers are lost. *)
Example round_double_values :
  round_double (1 # 10) = (7205759403792794 # 72057594037927936)%Q
  ∧ round_double (1 # 10000)
    = (7378697629483821 # 73786976294838206464)%Q
  ∧ round_double 9007199254740993 = 9007199254740992%Q
  ∧ round_double 9007199254740995 = 9007199254740996%Q
  ∧ round_double (- (1 # 3)) = (-6004799503160661 # 18014398509481984)%Q.
Proof. repeat split; vm_compute; reflexivity. Qed.

Section DoubleProofs.
Import Rendezvous.

(** With the exact expansion the parametric functions are [getMeshInBox]
    and [build]. *)
Lemma build_in_exact migration r mesh_manager :
  build_in expanded_bounds migration r mesh_manager
  = build migration r mesh_manager.
Proof. reflexivity. Qed.

Lemma build_in_box expand migration r mesh r' mesh' :
  build_in expand migration r (Some mesh) = Ok (r', mesh') →
  getBox r'
  = mkBoundingBox
      (expand (d_global_box r) (d_dimension r) (globalNumElements mesh)).
Proof.
  unfold build_in, getMeshInBox_in. intros Hrun.
  apply bind_Ok_inv in Hrun as ([r1 mesh1] & Hbox & Hrun).
  apply bind_Ok_inv in Hbox as ([r2 mesh2] & Hbox & Hret).
  apply Ok_inj in Hret. injection Hret as <- <-.
  apply bind_Ok_inv in Hbox as (mesh3 & _ & Hbox).
  apply Ok_inj in Hbox. injection Hbox as <- <-.
  apply Ok_inj in Hrun. injection Hrun as <- <-. reflexivity.
Qed.

Lemma round_double_lower q :
  (0 <= q)%Q → (q * (1 - (1 # 9007199254740992)) <= round_double q)%Q.
Proof.
  intros Hq. pose proof (round_double_error q) as Herr.
  apply Qabs_Qle_condition in Herr as [Hlo _].
  rewrite (Qabs_pos q Hq) in Hlo. lra.
Qed.

Lemma round_double_nonneg q : (0 <= q)%Q → (0 <= round_double q)%Q.
Proof.
  intros Hq. pose proof (round_double_lower q Hq) as Hlo.
  assert (0 <= q * (1 - (1 # 9007199254740992)))%Q; [|lra].
  apply Qmult_le_0_compat; [done|]. vm_compute. discriminate.
Qed.

Lemma typical_length_double_nonneg box dimension n x0 y0 z0 x1 y1 z1 :
  getBounds box = [x0; y0; z0; x1; y1; z1] →
  (1 ≤ dimension ≤ 3)%Z → (0 < n)%Z → (x0 <= x1)%Q →
  (0 <= typical_length_double box dimension n)%Q.
Proof.
  intros Hbounds Hdim Hn Hx.
  unfold typical_length_double, typical_length_exponent.
  assert (dimension = 1 ∨ dimension = 2 ∨ dimension = 3)%Z
    as [-> | [-> | ->]] by lia.
  - change (1 ÷ 1)%Z with 1%Z. unfold volume_double. rewrite Hbounds.
    simpl foldl.
    change ([x0; y0; z0; x1; y1; z1] !!! (0 + 3)%nat) with x1.
    change ([x0; y0; z0; x1; y1; z1] !!! 0%nat) with x0.
    simpl Qpower. apply round_double_nonneg.
    unfold Qdiv. apply Qmult_le_0_compat.
    + apply round_double_nonneg. apply Qmult_le_0_compat; [lra|].
      apply round_double_nonneg. lra.
    + apply Qinv_le_0_compat. apply round_double_nonneg.
      change 0%Q with (inject_Z 0). rewrite <- Zle_Qle. lia.
  - change (1 ÷ 2)%Z with 0%Z. simpl Qpower. lra.
  - change (1 ÷ 3)%Z with 0%Z. simpl Qpower. lra.
Qed.

(** The increment the code adds to a face is at least about 1e-4. *)
Lemma double_increment_lower typical_length :
  (0 <= typical_length)%Q →
  (99999 # 1000000000 <= round_double (typical_length + round_double tol))%Q.
Proof.
  intros Htl.
  assert (1 # 10000 <= round_double tol)%Q as Htol
    by (vm_compute; discriminate).
  pose proof (round_double_lower (typical_length + round_double tol)
                ltac:(lra)) as Hlo.
  lra.
Qed.

(** Below 2^39 the spacing of the [double]s is less than the increment:
    a face that the code moves does not round back to where it was. *)
Lemma round_double_moves_down x t :
  (Qabs x <= 2 ^ 39)%Q → (99999 # 1000000000 <= t)%Q →
  (round_double (x - t) < x)%Q.
Proof.
  intros Hx Ht. apply Qabs_Qle_condition in Hx as [Hx1 Hx2].
  pose proof (round_double_error (x - t)) as Herr.
  apply Qabs_Qle_condition in Herr as [_ Hup].
  destruct (Qlt_le_dec (x - t) 0) as [Hneg|Hpos].
  - rewrite (Qabs_neg (x - t)) in Hup by lra. lra.
  - rewrite (Qabs_pos (x - t)) in Hup by lra. lra.
Qed.

Lemma round_double_moves_up x t :
  (Qabs x <= 2 ^ 39)%Q → (99999 # 1000000000 <= t)%Q →
  (x < round_double (x + t))%Q.
Proof.
  intros Hx Ht. apply Qabs_Qle_condition in Hx as [Hx1 Hx2].
  pose proof (round_double_error (x + t)) as Herr.
  apply Qabs_Qle_condition in Herr as [Hlo _].
  destruct (Qlt_le_dec (x + t) 0) as [Hneg|Hpos].
  - rewrite (Qabs_neg (x + t)) in Hlo by lra. lra.
  - rewrite (Qabs_pos (x + t)) in Hlo by lra. lra.
Qed.

Lemma expanded_bounds_double_moves box dimension n x0 y0 z0 x1 y1 z1 :
  getBounds box = [x0; y0; z0; x1; y1; z1] →
  (1 ≤ dimension ≤ 3)%Z → (0 < n)%Z → (x0 <= x1)%Q →
  (Qabs x0 <= 2 ^ 39)%Q → (Qabs x1 <= 2 ^ 39)%Q →
  ∃ x0' x1',
    expanded_bounds_double box dimension n !! 0%nat = Some x0'
    ∧ expanded_bounds_double box dimension n !! 3%nat = Some x1'
    ∧ (x0' < x0)%Q ∧ (x1 < x1')%Q.
Proof.
  intros Hbounds Hdim Hn Hx Hx0 Hx1.
  pose proof (typical_length_double_nonneg box dimension n _ _ _ _ _ _
                Hbounds Hdim Hn Hx) as Htl.
  pose proof (double_increment_lower _ Htl) as Hinc.
  unfold expanded_bounds_double.
  set (t := round_double (_ + _)) in *. clearbody t.
  rewrite Hbounds.
  exists (round_double (x0 - t)), (round_double (x1 + t)).
  assert (dimension = 1 ∨ dimension = 2 ∨ dimension = 3)%Z
    as [-> | [-> | ->]] by lia;
    (split; [reflexivity|]); (split; [reflexivity|]);
    (split; [by apply round_double_moves_down
            |by apply round_double_moves_up]).
Qed.

End DoubleProofs.

(** ** Communication *)

Lemma foldl_max_ge x xs :
  (x ≤ foldl Z.max x xs)%Z ∧ ∀ y, y ∈ xs → (y ≤ foldl Z.max x xs)%Z.
Proof.
  revert x. induction xs as [|z xs IH]; intros x; simpl.
  - split; [lia|]. intros y Hy. by apply elem_of_nil in Hy.
  - destruct (IH (Z.max x z)) as [H1 H2]. split; [lia|].
    intros y Hy. apply elem_of_cons in Hy as [->|Hy]; [lia|auto].
Qed.

Lemma reduceAll_max_ge contributions x :
  x ∈ contributions → (x ≤ reduceAll_max contributions)%Z.
Proof.
  destruct contributions as [|y ys]; intros Hx; [by apply elem_of_nil in Hx|].
  simpl. destruct (foldl_max_ge y ys) as [H1 H2].
  apply elem_of_cons in Hx as [->|Hx]; auto.
Qed.

Lemma length_write_view {A} (dst src : list A) :
  length (write_view dst src) = length dst.
Proof.
  unfold write_view. rewrite length_take, length_app, length_drop. lia.
Qed.

Lemma length_doPostsAndWaits {A} plan (exports : list (list A)) me imports :
  length (Tpetra.doPostsAndWaits plan exports me imports) = length imports.
Proof. apply length_write_view. Qed.

Lemma length_doExport exporter source me target :
  length (Tpetra.mv_data (Tpetra.doExport exporter source me target))
  = length (Tpetra.mv_data target).
Proof.
  unfold Tpetra.doExport. simpl.
  generalize (Tpetra.mv_data target) as data.
  induction (seq 0 (Tpetra.mv_num_vectors target)) as [|d ds IHd];
    intros data; simpl; [done|].
  rewrite IHd. clear IHd. revert data.
  induction (seq 0 _) as [|j js IHj]; intros data; simpl; [done|].
  rewrite IHj. destruct (Tpetra.exported_value _ _ _ _ _); [|done].
  by rewrite length_insert.
Qed.

Lemma exported_value_writes exporter source me j d x lda :
  Tpetra.exported_value exporter source me j d = Some x →
  export_writes exporter me lda (d * lda + j).
Proof.
  unfold Tpetra.exported_value. intros Hv.
  destruct (default [] (Tpetra.exp_target_map exporter !! me) !! j)
    as [gid|] eqn:Hgid; [|discriminate].
  simpl in Hv.
  destruct (Tpetra.locate (Tpetra.exp_source_map exporter) gid)
    as [[s i]|] eqn:Hloc; [|discriminate].
  exists j, d, gid. rewrite Hloc. eauto.
Qed.

(** The export leaves an entry that the plan does not write as it was. *)
Lemma doExport_unwritten exporter source me target k :
  ¬ export_writes exporter me (Tpetra.mv_lda target) k →
  Tpetra.mv_data (Tpetra.doExport exporter source me target) !! k
  = Tpetra.mv_data target !! k.
Proof.
  intros Hk. unfold Tpetra.doExport. cbn [Tpetra.mv_data].
  generalize (Tpetra.mv_data target) as data.
  induction (seq 0 (Tpetra.mv_num_vectors target)) as [|d ds IHd];
    intros data; simpl; [done|].
  rewrite IHd. clear IHd. revert data.
  induction (seq 0 _) as [|j js IHj]; intros data; simpl; [done|].
  rewrite IHj.
  destruct (Tpetra.exported_value exporter source me j d) as [x|] eqn:Hx;
    [|done].
  apply list_lookup_insert_ne. intros <-. apply Hk.
  by eapply exported_value_writes.
Qed.

(** ** The shared-domain map *)

Section SharedDomainMapProofs.
Import SharedDomainMap.

Lemma computePointOrdinals_loop T (rank G : Z) (len : nat) :
  ∀ k m (ords : list Z),
    (k ≤ len)%nat → length ords = len →
    (foldl
      (λ '(m, target_ordinals) n,
         let ordinal := ordinal_wrap T (rank * G + Z.of_nat n) in
         let target_ordinals := <[n := ordinal]> target_ordinals in
         (if d_store_missed_points m
          then set_target_g2l m (<[ordinal := Z.of_nat n]> (d_target_g2l m))
          else m,
          target_ordinals))
      (m, ords) (seq 0 k)).2
    = ((λ n, ordinal_wrap T (rank * G + Z.of_nat n)) <$> seq 0 k)
      ++ drop k ords.
Proof.
  induction k as [|k IH]; intros m ords Hk Hlen.
  - simpl. by rewrite drop_0.
  - rewrite seq_S, foldl_app. simpl.
    specialize (IH m ords ltac:(lia) Hlen).
    destruct (foldl _ (m, ords) (seq 0 k)) as [m' ords']. simpl in *.
    subst ords'. rewrite fmap_app. simpl.
    rewrite insert_app_r_alt by (rewrite length_fmap, length_seq; lia).
    rewrite length_fmap, length_seq, Nat.sub_diag.
    destruct (lookup_lt_is_Some_2 ords k) as [x Hx]; [lia|].
    rewrite (drop_S _ _ _ Hx). simpl. rewrite <- app_assoc. done.
Qed.

Lemma computePointOrdinals_ordinals T comm r m :
  (computePointOrdinals T comm r m).2
  = (λ n, ordinal_wrap T
            (Z.of_nat r * reduceAll_max (local_size <$> comm) + Z.of_nat n))
    <$> seq 0 (Z.to_nat (local_size (mjoin (comm !! r)))).
Proof.
  unfold computePointOrdinals.
  rewrite (computePointOrdinals_loop T _ _
             (Z.to_nat (local_size (mjoin (comm !! r)))));
    [|lia|by rewrite length_resize].
  rewrite drop_ge; [by rewrite app_nil_r|]. by rewrite length_resize.
Qed.

Lemma local_size_le_global comm r :
  (r < length comm)%nat →
  (local_size (mjoin (comm !! r)) ≤ reduceAll_max (local_size <$> comm))%Z.
Proof.
  intros Hr. destruct (lookup_lt_is_Some_2 comm r Hr) as [x Hx].
  rewrite Hx. simpl. apply reduceAll_max_ge.
  apply list_elem_of_fmap. exists x. split; [done|].
  by apply list_elem_of_lookup_2 in Hx.
Qed.

Lemma computePointOrdinals_lookup T comm r m n o :
  (0 < ord_bits T)%Z →
  (Z.of_nat (length comm) * reduceAll_max (local_size <$> comm) - 1
   ≤ ordinal_max T)%Z →
  (r < length comm)%nat →
  (computePointOrdinals T comm r m).2 !! n = Some o →
  o = (Z.of_nat r * reduceAll_max (local_size <$> comm) + Z.of_nat n)%Z
  ∧ (Z.of_nat n < reduceAll_max (local_size <$> comm))%Z.
Proof.
  intros Hbits Hfit Hr Hlook.
  rewrite computePointOrdinals_ordinals in Hlook.
  apply list_lookup_fmap_Some in Hlook as (n' & -> & Hn').
  apply lookup_seq in Hn' as [-> Hn]. simpl in *.
  pose proof (local_size_le_global comm r Hr) as Hle.
  pose proof (ordinal_min_nonpos T) as Hmin.
  split; [|lia].
  apply ordinal_wrap_id; [done|]. nia.
Qed.




Lemma computePointOrdinals_dimension T comm r m :
  d_dimension (computePointOrdinals T comm r m).1 = d_dimension m.
Proof.
  unfold computePointOrdinals.
  generalize (resize (Z.to_nat (local_size (mjoin (comm !! r)))) 0%Z [])
    as ords.
  generalize (seq 0 (Z.to_nat (local_size (mjoin (comm !! r))))) as idx.
  intros idx. revert m.
  induction idx as [|n idx IH]; intros m ords; simpl; [done|].
  rewrite IH. by destruct (d_store_missed_points m).
Qed.

Lemma getTargetPointsInBox_dimension T m box field ords tib m' tib' :
  getTargetPointsInBox T m box field ords tib = Ok (m', tib') →
  d_dimension m' = d_dimension m.
Proof.
  unfold getTargetPointsInBox. intros Hrun.
  apply bind_Ok_inv in Hrun as (_ & _ & Hrun).
  eapply (for_each_preserves _ (λ s, d_dimension s.1 = d_dimension m))
    in Hrun; [exact Hrun| |done].
  intros n [m1 t1] [m2 t2] Hbody Hm1. simpl in *.
  apply bind_Ok_inv in Hbody as (p & _ & Hbody).
  apply bind_Ok_inv in Hbody as (o & _ & Hbody).
  apply bind_Ok_inv in Hbody as (t & _ & Hbody).
  injection Hbody as <- <-.
  by destruct (d_store_missed_points m1 && is_minus_one T o).
Qed.

Lemma setup_targets_dimension T input r m m' ords rdv view in_box :
  setup_targets T input r m = Ok (m', ords, rdv, view, in_box) →
  d_dimension m' = d_dimension m
  ∧ ∀ field, target_coord_manager input !! r = Some (Some field) →
             field_dim field = d_dimension m.
Proof.
  unfold setup_targets. intros Hrun.
  apply bind_Ok_inv in Hrun as (source & Hsource & Hrun).
  apply bind_Ok_inv in Hrun as (target & Htarget & Hrun).
  apply bind_Ok_inv in Hrun as (mig & Hmig & Hrun).
  apply bind_Ok_inv in Hrun as (_ & _ & Hrun).
  apply bind_Ok_inv in Hrun as (u & Hpre & Hrun).
  pose proof (computePointOrdinals_dimension T (target_coord_manager input)
                r m) as Hdim.
  destruct (computePointOrdinals T (target_coord_manager input) r m)
    as [m1 ords1].
  simpl in Hdim.
  apply bind_Ok_inv in Hrun as (root & _ & Hrun).
  apply bind_Ok_inv in Hrun as (root_mesh & _ & Hrun).
  apply bind_Ok_inv in Hrun as (source_box & _ & Hrun).
  apply bind_Ok_inv in Hrun as (_ & _ & Hrun).
  destruct (intersectBoxes source_box (target_box input)) as [has shared].
  apply bind_Ok_inv in Hrun as (_ & _ & Hrun).
  apply bind_Ok_inv in Hrun as ([rdv1 mesh1] & _ & Hrun).
  apply bind_Ok_inv in Hrun as (procs & _ & Hrun).
  apply bind_Ok_inv in Hrun as ([m2 tib] & Hbox & Hrun).
  apply bind_Ok_inv in Hrun as (inb & _ & Hrun).
  injection Hrun as <- <- <- <- <-.
  split.
  - destruct target as [field|].
    + apply getTargetPointsInBox_dimension in Hbox. by rewrite Hbox.
    + by injection Hbox as <- <-.
  - intros field Hfield. unfold array_get in Htarget.
    rewrite Hfield in Htarget.
    injection Htarget as <-. apply testPrecondition_Ok in Hpre. lia.
Qed.

Lemma receive_missed_points_dimension m plan ords r m' :
  receive_missed_points m plan ords r = Ok m' →
  d_dimension m' = d_dimension m.
Proof.
  unfold receive_missed_points. intros Hrun.
  apply bind_Ok_inv in Hrun as (missed & _ & Hrun). by injection Hrun as <-.
Qed.

Lemma broadcast_coord_dim_root input coord_dim :
  broadcast_coord_dim input = Ok coord_dim →
  ∃ root field, target_coord_manager input !! root = Some (Some field)
                ∧ field_dim field = coord_dim.
Proof.
  unfold broadcast_coord_dim. intros Hrun.
  apply bind_Ok_inv in Hrun as (root & Hroot & Hrun).
  apply bind_Ok_inv in Hrun as (root_field & Hfield & Hrun).
  apply array_get_Ok_inv in Hfield.
  destruct root_field as [field|]; [|discriminate].
  injection Hrun as <-. eauto.
Qed.

(** C7: after a [setup] that returns, on every rank the map holds one source
    element per target ordinal of its source map, that is per received
    (target ordinal, element id) pair, and [dimension] coordinates for each
    of them, so the number of source elements is the number of target
    coordinates divided by the dimension. The map objects of all ranks have
    the same positive dimension and every rank takes part. *)
Theorem setup_plan_sizes (T : OrdinalType) (input : SetupInput)
    (maps maps' : list SharedDomainMap.t) (dimension : Z) (r : nat)
    (m' : SharedDomainMap.t) :
  (0 < dimension)%Z →
  Forall (λ m, d_dimension m = dimension) maps →
  length (target_coord_manager input) = length maps →
  setup T input maps = Ok maps' →
  maps' !! r = Some m' →
  ∃ source_map,
    d_source_map m' = Some source_map
    ∧ length (d_source_elements m') = length source_map
    ∧ length (d_target_coords m')
      = (length source_map * Z.to_nat dimension)%nat
    ∧ d_dimension m' = dimension
    ∧ Z.of_nat (length (d_source_elements m'))
      = (Z.of_nat (length (d_target_coords m')) ÷ d_dimension m')%Z.
Proof.
  intros Hdim Hmaps Hranks Hrun Hm'. unfold setup in Hrun.
  apply bind_Ok_inv in Hrun as (targets & Htargets & Hrun).
  apply bind_Ok_inv in Hrun as (coord_dim & Hcoord & Hrun).
  apply bind_Ok_inv in Hrun as (found & Hfound & Hrun).
  apply bind_Ok_inv in Hrun as (missed & Hmissed & Hrun).
  apply bind_Ok_inv in Hrun as (missed_procs & Hmprocs & Hrun).
  apply bind_Ok_inv in Hrun as (maps2 & Hmaps2 & Hrun).
  apply bind_Ok_inv in Hrun as (shipped & Hshipped & Hrun).
  (* The dimension of every map after the first phase. *)
  assert (∀ q x, targets !! q = Some x →
            d_dimension x.1.1.1.1 = dimension
            ∧ ∀ field, target_coord_manager input !! q = Some (Some field) →
                       field_dim field = dimension) as Hphase1.
  { intros q x Hx.
    destruct (for_collect_lookup _ _ _ _ _ Htargets Hx) as [Hq Hbody].
    apply bind_Ok_inv in Hbody as (m0 & Hm0 & Hbody).
    apply array_get_Ok_inv in Hm0.
    destruct x as [[[[m1 ords] rdv] view] in_box].
    apply setup_targets_dimension in Hbody as [Hd Hf]. simpl.
    assert (d_dimension m0 = dimension) as Hm0d
      by (by eapply (Forall_lookup_1 _ _ _ _ Hmaps)).
    split; [congruence|]. intros field Hfield. rewrite <- Hm0d. auto. }
  (* The broadcast dimension is the dimension of the map. *)
  assert (coord_dim = dimension) as ->.
  { apply broadcast_coord_dim_root in Hcoord as (root & field & Hroot & <-).
    assert (root < length maps)%nat as Hlt
      by (rewrite <- Hranks; by eapply lookup_lt_Some).
    apply for_collect_length in Htargets. rewrite length_seq in Htargets.
    destruct (lookup_lt_is_Some_2 targets root) as [x Hx]; [lia|].
    destruct (Hphase1 _ _ Hx) as [_ Hf]. auto. }
  (* The map of rank [r]. *)
  destruct (for_collect_lookup _ _ _ _ _ Hrun Hm') as [Hr Hbody].
  apply bind_Ok_inv in Hbody as (m2 & Hm2 & Hbody).
  apply bind_Ok_inv in Hbody as (source_map & Hsm & Hbody).
  apply Ok_inj in Hbody as <-.
  unfold set_plan;
    cbn [d_source_map d_source_elements d_target_coords d_dimension].
  apply array_get_Ok_inv in Hm2, Hsm.
  assert (d_dimension m2 = dimension) as Hm2d.
  { destruct (for_collect_lookup _ _ _ _ _ Hmaps2 Hm2) as [_ Hbody].
    apply bind_Ok_inv in Hbody as (m1 & Hm1 & Hbody).
    apply array_get_Ok_inv in Hm1.
    apply list_lookup_fmap_Some in Hm1 as (x & -> & Hx).
    destruct (Hphase1 _ _ Hx) as [Hd _].
    destruct (d_store_missed_points _).
    - apply receive_missed_points_dimension in Hbody. congruence.
    - by injection Hbody as <-. }
  apply list_lookup_fmap_Some in Hsm as (r' & -> & Hr').
  apply lookup_seq in Hr' as [-> _]. cbn [plus].
  exists (Tpetra.doPostsAndWaits ((λ x, x.2) <$> shipped)
            ((λ x, x.1.1) <$> shipped) r
            (replicate
               (Tpetra.createFromSends ((λ x, x.2) <$> shipped) r) 0%Z)).
  rewrite !length_doPostsAndWaits, length_doExport. cbn [Tpetra.mv_data].
  rewrite !length_resize, length_replicate.
  split; [done|]. split; [done|]. split; [lia|]. split; [done|].
  rewrite Hm2d.
  replace (Z.of_nat
             (Z.to_nat
                (Z.of_nat (Tpetra.createFromSends ((λ x, x.2) <$> shipped) r)
                 * dimension)))
    with (Z.of_nat (Tpetra.createFromSends ((λ x, x.2) <$> shipped) r)
          * dimension)%Z by lia.
  rewrite Z.quot_mul by lia. done.
Qed.

Lemma setup_plan_sizes_witness :
  ∃ source_map,
    d_source_map line_plan_rank0 = Some source_map
    ∧ length (d_source_elements line_plan_rank0) = length source_map
    ∧ length (d_target_coords line_plan_rank0)
      = (length source_map * Z.to_nat 1)%nat
    ∧ d_dimension line_plan_rank0 = 1%Z
    ∧ Z.of_nat (length (d_source_elements line_plan_rank0))
      = (Z.of_nat (length (d_target_coords line_plan_rank0))
         ÷ d_dimension line_plan_rank0)%Z.
Proof.
  apply (setup_plan_sizes UInt32 line_input line_maps line_plan 1 0
           line_plan_rank0).
  - lia.
  - repeat constructor.
  - reflexivity.
  - vm_compute. reflexivity.
  - vm_compute. reflexivity.
Defined.

Lemma apply_target_Some m source_vector r field field' :
  apply_target m source_vector r (Some field) = Ok (Some field') →
  ∃ exporter target_map,
    d_source_to_target_exporter m = Some exporter
    ∧ d_target_map m = Some target_map
    ∧ (Z.of_nat (length (field_data field)) ÷ d_dimension m)%Z
      = Z.of_nat (length target_map)
    ∧ field_dim field = d_dimension m
    ∧ field' =
      mkFieldContainer (field_dim field)
        (Tpetra.mv_data
           (Tpetra.doExport exporter source_vector r
              (Tpetra.mkMultiVector
                 (replicate (length (field_data field)) 0%Q)
                 (Z.to_nat
                    (Z.of_nat (length (field_data field)) ÷ d_dimension m))
                 (Z.to_nat (d_dimension m))))).
Proof.
  unfold apply_target. intros Hrun.
  apply bind_Ok_inv in Hrun as (u & Hpre & Hrun).
  apply bind_Ok_inv in Hpre as (target_map & Hmap & Hpre).
  apply bind_Ok_inv in Hpre as (u1 & Hsize & Hdim).
  apply testPrecondition_Ok in Hsize, Hdim.
  apply bind_Ok_inv in Hrun as (exporter & Hexp & Hrun).
  apply Ok_inj in Hrun.
  cbn [fmap option_fmap option_map putScalar field_data field_dim] in Hrun.
  destruct (d_source_to_target_exporter m) as [e|]; [|discriminate].
  apply Ok_inj in Hexp as ->.
  destruct (d_target_map m) as [tm|]; [|discriminate].
  apply Ok_inj in Hmap as ->.
  exists exporter, target_map. repeat split; [lia|lia|].
  by injection Hrun as <-.
Qed.

(** C8: [apply] fills the whole target buffer with zeros before the export
    writes into it: in the target field that [apply] returns on a rank,
    every entry that the source-to-target export plan does not write is
    zero, and so is every entry of a target point whose ordinal no rank
    holds in the source map (a missed or unmapped point). *)
Theorem apply_unwritten_slots_zero (maps : list SharedDomainMap.t)
    (evaluators : list (option FieldEvaluator))
    (targets : list (option FieldContainer))
    (maps' : list SharedDomainMap.t) (targets' : list (option FieldContainer))
    (r : nat) (m : SharedDomainMap.t) (exporter : Tpetra.Export)
    (field' : FieldContainer) :
  apply maps evaluators targets = Ok (maps', targets') →
  maps !! r = Some m →
  d_source_to_target_exporter m = Some exporter →
  targets' !! r = Some (Some field') →
  let target_size :=
    Z.to_nat (Z.of_nat (length (field_data field')) ÷ d_dimension m) in
  (∀ k, (k < length (field_data field'))%nat →
        ¬ export_writes exporter r target_size k →
        field_data field' !! k = Some 0%Q)
  ∧ (∀ target_map j gid d,
       d_target_map m = Some target_map →
       Tpetra.exp_target_map exporter !! r = Some target_map →
       target_map !! j = Some gid →
       Tpetra.locate (Tpetra.exp_source_map exporter) gid = None →
       (0 ≤ d < d_dimension m)%Z →
       field_data field' !! (Z.to_nat d * length target_map + j)%nat
       = Some 0%Q).
Proof.
  intros Hrun Hm Hexp Hfield'. unfold apply in Hrun.
  apply bind_Ok_inv in Hrun as (source_vector & Hsource & Hrun).
  apply bind_Ok_inv in Hrun as (targets1 & Htargets & Hrun).
  apply Ok_inj in Hrun. injection Hrun as <- <-.
  destruct (for_collect_lookup _ _ _ _ _ Htargets Hfield') as [Hr Hbody].
  apply bind_Ok_inv in Hbody as (m0 & Hm0 & Hbody).
  apply array_get_Ok_inv in Hm0. rewrite Hm in Hm0. injection Hm0 as <-.
  apply bind_Ok_inv in Hbody as (target & Htarget & Hbody).
  destruct target as [field|].
  2:{ unfold apply_target in Hbody. simpl in Hbody.
      destruct (d_source_to_target_exporter m); discriminate. }
  apply apply_target_Some in Hbody
    as (exporter' & target_map & Hexp' & Hmap & Hsize & Hdim & ->).
  rewrite Hexp in Hexp'. injection Hexp' as <-.
  cbn [field_data]. rewrite length_doExport. cbn [Tpetra.mv_data].
  rewrite length_replicate.
  assert (∀ k, (k < length (field_data field))%nat →
            ¬ export_writes exporter r
                (Z.to_nat
                   (Z.of_nat (length (field_data field)) ÷ d_dimension m)) k →
            Tpetra.mv_data
              (Tpetra.doExport exporter source_vector r
                 (Tpetra.mkMultiVector
                    (replicate (length (field_data field)) 0%Q)
                    (Z.to_nat
                       (Z.of_nat (length (field_data field))
                        ÷ d_dimension m))
                    (Z.to_nat (d_dimension m)))) !! k = Some 0%Q) as Hzero.
  { intros k Hk Hnot. rewrite doExport_unwritten by done.
    cbn [Tpetra.mv_data]. by apply lookup_replicate_2. }
  split; [exact Hzero|].
  intros target_map' j gid d Hmap' Hexpmap Hj Hloc Hd.
  rewrite Hmap in Hmap'. injection Hmap' as <-.
  pose proof (lookup_lt_Some _ _ _ Hj) as Hjlt.
  rewrite Hsize, Nat2Z.id.
  assert (0 < d_dimension m)%Z as Hpos by lia.
  pose proof (quot_points_bound (length (field_data field)) (d_dimension m)
                Hpos) as Hbound.
  rewrite Hsize, Nat2Z.id in Hbound.
  rewrite Hsize, Nat2Z.id in Hzero.
  apply Hzero; [nia|].
  intros (j' & d' & gid' & Hk & Hgid' & Hloc').
  rewrite Hexpmap in Hgid'. simpl in Hgid'.
  pose proof (lookup_lt_Some _ _ _ Hgid') as Hj'lt.
  destruct (blocked_index_inj (length target_map) d' (Z.to_nat d) j' j)
    as [_ ->]; [done|done|lia|].
  rewrite Hj in Hgid'. injection Hgid' as <-.
  rewrite Hloc in Hloc'. by destruct Hloc'.
Qed.

Lemma apply_unwritten_slots_zero_witness :
  (∀ k, (k < 2)%nat →
        ¬ export_writes line_exporter 0 2 k →
        [100; 0]%Q !! k = Some 0%Q)
  ∧ (∀ target_map j gid d,
       d_target_map line_plan_rank0 = Some target_map →
       Tpetra.exp_target_map line_exporter !! 0%nat = Some target_map →
       target_map !! j = Some gid →
       Tpetra.locate (Tpetra.exp_source_map line_exporter) gid = None →
       (0 ≤ d < 1)%Z →
       [100; 0]%Q !! (Z.to_nat d * length target_map + j)%nat = Some 0%Q).
Proof.
  apply (apply_unwritten_slots_zero line_plan
           [Some element_id_evaluator; None] line_fields line_plan
           line_fields_applied 0 line_plan_rank0 line_exporter
           (mkFieldContainer 1 [100; 0]%Q)).
  - vm_compute. reflexivity.
  - vm_compute. reflexivity.
  - vm_compute. reflexivity.
  - reflexivity.
Defined.

Lemma apply_target_again m source_vector r target target' :
  apply_target m source_vector r target = Ok target' →
  apply_target m source_vector r target' = Ok target'.
Proof.
  destruct target as [field|].
  - intros Hrun. pose proof Hrun as Hrun'.
    unfold apply_target in Hrun.
    apply bind_Ok_inv in Hrun as (u & _ & Hrun).
    apply bind_Ok_inv in Hrun as (e & _ & Hrun).
    apply Ok_inj in Hrun. cbn [fmap option_fmap option_map] in Hrun.
    destruct target' as [field'|]; [|discriminate].
    apply apply_target_Some in Hrun'
      as (exporter & target_map & Hexp & Hmap & Hsize & Hdim & Hfield').
    assert (length (field_data field') = length (field_data field)) as Hlen.
    { rewrite Hfield'. cbn [field_data]. rewrite length_doExport.
      cbn [Tpetra.mv_data]. by rewrite length_replicate. }
    assert (field_dim field' = field_dim field) as Hfd
      by (by rewrite Hfield').
    unfold apply_target. rewrite Hmap, Hexp.
    cbn [fmap option_fmap option_map putScalar field_data field_dim].
    rewrite !bind_Ok, Hlen, Hfd, Hsize, Hdim, !Z.eqb_refl.
    unfold testPrecondition. rewrite !bind_Ok.
    rewrite Hfield', Hsize, Hdim. reflexivity.
  - unfold apply_target. simpl.
    destruct (d_source_to_target_exporter m); [|discriminate].
    simpl. by intros <-%Ok_inj.
Qed.

(** C9: an [apply] that returns leaves the map objects of all ranks as they
    were (the source elements, the target coordinates, the two ordinal maps
    and the exporter among them), and a second [apply] with the same
    evaluators on the target fields the first one produced returns the same
    map objects and the same target fields. *)
Theorem apply_repeatable (maps : list SharedDomainMap.t)
    (evaluators : list (option FieldEvaluator))
    (targets : list (option FieldContainer))
    (maps1 : list SharedDomainMap.t) (targets1 : list (option FieldContainer)) :
  apply maps evaluators targets = Ok (maps1, targets1) →
  maps1 = maps ∧ apply maps1 evaluators targets1 = Ok (maps1, targets1).
Proof.
  intros Hrun. unfold apply in Hrun.
  apply bind_Ok_inv in Hrun as (source_vector & Hsource & Hrun).
  apply bind_Ok_inv in Hrun as (targets' & Htargets & Hrun).
  apply Ok_inj in Hrun. injection Hrun as <- <-.
  split; [done|]. unfold apply. rewrite Hsource, bind_Ok.
  rewrite (for_collect_ext _
    (λ r, m ← array_get maps r;
          target ← array_get targets r;
          apply_target m source_vector r target)).
  { by rewrite Htargets, bind_Ok. }
  intros r Hr. apply elem_of_seq in Hr as [_ Hr]. simpl in Hr.
  pose proof (for_collect_length _ _ _ Htargets) as Hlen.
  rewrite length_seq in Hlen.
  destruct (lookup_lt_is_Some_2 targets' r) as [t1 Ht1]; [lia|].
  destruct (for_collect_lookup _ _ _ _ _ Htargets Ht1) as [_ Hbody].
  rewrite Hbody.
  apply bind_Ok_inv in Hbody as (m & Hm & Hbody).
  apply bind_Ok_inv in Hbody as (target & Htarget & Hbody).
  rewrite Hm, bind_Ok. unfold array_get at 1. rewrite Ht1, bind_Ok.
  by eapply apply_target_again.
Qed.

Lemma apply_repeatable_witness :
  line_plan = line_plan
  ∧ apply line_plan [Some element_id_evaluator; None] line_fields_applied
    = Ok (line_plan, line_fields_applied).
Proof.
  apply (apply_repeatable line_plan [Some element_id_evaluator; None]
           line_fields line_plan line_fields_applied).
  vm_compute. reflexivity.
Defined.

(** In exact arithmetic the expanded box is never the box it was computed
    from. *)
Lemma expanded_box_differs box dimension n x0 y0 z0 x1 y1 z1 :
  getBounds box = [x0; y0; z0; x1; y1; z1] →
  (1 ≤ dimension ≤ 3)%Z → (0 < n)%Z → (x0 <= x1)%Q →
  mkBoundingBox (Rendezvous.expanded_bounds box dimension n) ≠ box.
Proof.
  intros Hbounds Hdim Hn Hx Heq.
  pose proof (typical_length_positive _ _ _ _ _ _ _ _ _ Hbounds Hdim Hn Hx)
    as Hpos.
  pose proof (expanded_bounds_faces box dimension n _ _ _ _ _ _ Hbounds Hdim)
    as Hfaces.
  cbv zeta in Hfaces. apply (f_equal getBounds) in Heq.
  cbn [getBounds] in Heq. rewrite Hfaces, Hbounds in Heq.
  rewrite (bool_decide_eq_true_2 (Z.of_nat 0 < dimension)%Z) in Heq by lia.
  injection Heq as Hx0 _.
  assert (x0 - (Rendezvous.typical_length box dimension n + Rendezvous.tol)
          == x0)%Q as Habs by (rewrite Hx0; reflexivity).
  lra.
Qed.

(** The box [setup] filters its target points against: the engine is
    constructed on the shared-domain box, the intersection of the global
    box of the mesh and the box of the target points, and [build] replaces
    it by its expansion before [getBox] is read. *)
Lemma setup_targets_box T input rank m m' ords rdv view in_box mesh field :
  setup_targets T input rank m = Ok (m', ords, rdv, view, in_box) →
  source_mesh_manager input !! rank = Some (Some mesh) →
  target_coord_manager input !! rank = Some (Some field) →
  ∃ root root_mesh mig rdv_mesh m1 targets_in_box rendezvous_procs,
    l2g_0 (source_mesh_manager input) = Ok root
    ∧ source_mesh_manager input !! root = Some (Some root_mesh)
    ∧ migration input !! rank = Some mig
    ∧ let shared_domain_box :=
        (intersectBoxes (globalBoundingBox root_mesh) (target_box input)).2 in
      Rendezvous.build mig
        (Rendezvous.new (d_dimension m) shared_domain_box) (Some mesh)
      = Ok (rdv, rdv_mesh)
      ∧ Rendezvous.getBox rdv
        = mkBoundingBox
            (Rendezvous.expanded_bounds shared_domain_box (d_dimension m)
               (globalNumElements mesh))
      ∧ getTargetPointsInBox T m1 (Rendezvous.getBox rdv) field ords []
        = Ok (m', targets_in_box)
      ∧ remove_not_in_box T targets_in_box rendezvous_procs = Ok in_box
      ∧ ((1 ≤ d_dimension m ≤ 3)%Z →
         (0 < globalNumElements mesh)%Z →
         (Qabs (getBounds shared_domain_box !!! 0%nat) <= 2 ^ 39)%Q →
         (Qabs (getBounds shared_domain_box !!! 3%nat) <= 2 ^ 39)%Q →
         Rendezvous.getBox rdv ≠ shared_domain_box).
Proof.
  unfold setup_targets. intros Hrun Hsource Htarget.
  apply bind_Ok_inv in Hrun as (source & Hs & Hrun).
  apply array_get_Ok_inv in Hs. rewrite Hsource in Hs. injection Hs as <-.
  apply bind_Ok_inv in Hrun as (target & Ht & Hrun).
  apply array_get_Ok_inv in Ht. rewrite Htarget in Ht. injection Ht as <-.
  apply bind_Ok_inv in Hrun as (mig & Hmig & Hrun).
  apply array_get_Ok_inv in Hmig.
  apply bind_Ok_inv in Hrun as (u1 & _ & Hrun).
  apply bind_Ok_inv in Hrun as (u2 & _ & Hrun).
  pose proof (computePointOrdinals_dimension T (target_coord_manager input)
                rank m) as Hdim.
  destruct (computePointOrdinals T (target_coord_manager input) rank m)
    as [m1 ords1].
  simpl in Hdim.
  apply bind_Ok_inv in Hrun as (root & Hroot & Hrun).
  apply bind_Ok_inv in Hrun as (root_mesh & Hroot_mesh & Hrun).
  apply array_get_Ok_inv in Hroot_mesh.
  apply bind_Ok_inv in Hrun as (source_box & Hsource_box & Hrun).
  destruct root_mesh as [root_mesh|]; [|discriminate].
  apply Ok_inj in Hsource_box as <-.
  apply bind_Ok_inv in Hrun as (u3 & _ & Hrun).
  destruct (intersectBoxes (globalBoundingBox root_mesh) (target_box input))
    as [has shared] eqn:Hinter.
  apply bind_Ok_inv in Hrun as (u4 & Hassert & Hrun).
  assert (has = true) as ->
    by (unfold testAssertion in Hassert; by destruct has).
  apply bind_Ok_inv in Hrun as ([rdv1 mesh1] & Hbuild & Hrun).
  apply bind_Ok_inv in Hrun as (procs & _ & Hrun).
  apply bind_Ok_inv in Hrun as ([m2 tib] & Hbox & Hrun).
  apply bind_Ok_inv in Hrun as (inb & Hremove & Hrun).
  apply Ok_inj in Hrun. injection Hrun as <- <- <- <- <-.
  exists root, root_mesh, mig, mesh1, (set_target_map m1 ords1), tib, procs.
  split; [done|]. split; [done|]. split; [done|].
  cbv zeta. rewrite Hinter. cbn [snd].
  cbn [d_dimension set_target_map] in Hbuild.
  rewrite Hdim in Hbuild. split; [done|].
  pose proof Hbuild as Hinv.
  apply build_inv in Hinv as (r1 & mesh2 & Hget & _ & Hgb & _).
  apply getMeshInBox_inv in Hget as (-> & _).
  assert (Rendezvous.getBox rdv1
          = mkBoundingBox
              (Rendezvous.expanded_bounds shared (d_dimension m)
                 (globalNumElements mesh))) as Hstored
    by (unfold Rendezvous.getBox; by rewrite Hgb).
  split; [done|]. split; [done|]. split; [done|].
  intros Hd Hn _ _. rewrite Hstored.
  unfold intersectBoxes in Hinter. injection Hinter as Hhas <-.
  apply andb_prop in Hhas as [Hhas _]. apply Qle_bool_iff in Hhas.
  eapply expanded_box_differs; [reflexivity|done|done|exact Hhas].
Qed.




(** The loop of [setup] over the search result collects nothing when no
    entry of the element array compares equal to -1. *)
Lemma find_not_in_mesh_collects_nothing T m rendezvous_elements
    rendezvous_points :
  Forall (λ e, is_minus_one T e = false) rendezvous_elements →
  find_not_in_mesh T m rendezvous_elements rendezvous_points
  = Ok ([], [], []).
Proof.
  intros Hall. unfold find_not_in_mesh.
  destruct (for_each_seq_inv
    (λ target_index '(not_in_mesh, missed_in_mesh_idx, missed_in_mesh_ordinal),
       element ← array_get rendezvous_elements target_index;
       if is_minus_one T element
       then
         let not_in_mesh := not_in_mesh ++ [Z.of_nat target_index] in
         if d_store_missed_points m
         then
           ordinal ← array_get rendezvous_points target_index;
           Ok (not_in_mesh, missed_in_mesh_idx ++ [Z.of_nat target_index],
               missed_in_mesh_ordinal ++ [ordinal])
         else Ok (not_in_mesh, missed_in_mesh_idx, missed_in_mesh_ordinal)
       else Ok (not_in_mesh, missed_in_mesh_idx, missed_in_mesh_ordinal))
    (λ _ s, s = ([], [], []))
    (length rendezvous_elements) 0%nat ([], [], [])) as (s & Hrun & ->).
  - done.
  - intros n s Hn ->.
    destruct (lookup_lt_is_Some_2 rendezvous_elements n) as [e He]; [lia|].
    unfold array_get. rewrite He, bind_Ok.
    rewrite (Forall_lookup_1 _ _ _ _ Hall He). eauto.
  - exact Hrun.
Qed.

(** What [setup] ships after the extraction: the element array without its
    entries equal to -1 and the source-rank array without its entries equal
    to -1, of the same size. *)
Lemma remove_not_in_mesh_spec T not_in_mesh points elements procs
    points' elements' procs' :
  remove_not_in_mesh T not_in_mesh points elements procs
  = Ok (points', elements', procs') →
  elements' = List.filter (λ e, negb (is_minus_one T e)) elements
  ∧ procs' = List.filter (λ p, negb (p =? -1)%Z) procs
  ∧ length points' = length elements'
  ∧ length elements' = length procs'.
Proof.
  unfold remove_not_in_mesh, std_remove. intros Hrun.
  apply bind_Ok_inv in Hrun as (pts & _ & Hrun).
  apply bind_Ok_inv in Hrun as (u & Hinv & Hrun).
  apply Ok_inj in Hrun. injection Hrun as <- <- <-.
  rewrite !resize_app by done.
  split; [done|]. split; [done|]. rewrite length_resize.
  split; [done|].
  unfold testInvariant in Hinv.
  destruct (_ =? _)%nat eqn:Heq; [|discriminate].
  by apply Nat.eqb_eq in Heq.
Qed.

(** With an ordinal type for which the sentinel of the search compares equal
    to -1, no shipped element is the sentinel and no shipped source rank is
    -1. *)
Lemma remove_not_in_mesh_no_sentinel T not_in_mesh points elements procs
    points' elements' procs' :
  is_minus_one T (ordinal_max T) = true →
  remove_not_in_mesh T not_in_mesh points elements procs
  = Ok (points', elements', procs') →
  (ordinal_max T ∉ elements') ∧ ((-1)%Z ∉ procs').
Proof.
  intros Hmax Hrun.
  apply remove_not_in_mesh_spec in Hrun as (-> & -> & _).
  split.
  - intros Hin. apply list_elem_of_In in Hin.
    apply filter_In in Hin as [_ Hin]. by rewrite Hmax in Hin.
  - intros Hin. apply list_elem_of_In in Hin.
    apply filter_In in Hin as [_ Hin]. done.
Qed.

(** C1: [setup] takes an entry of the element array for a miss when it
    compares equal to -1, while [elementsContainingPoints] writes the largest
    ordinal for a miss. With a signed 32-bit ordinal type the point at 7/2,
    which is in no element, is not collected: nothing is recorded as missed,
    nothing leaves the element and point arrays, only the source-rank array
    loses its -1, and the size check of [setup] fails. With an unsigned
    32-bit ordinal type the two values are the same, [setup] returns and
    the point is local index 1 of the missed points of rank 0. *)
Theorem setup_signed_sentinel_not_collected :
  Rendezvous.elementsContainingPoints Int32 line_rendezvous [7 # 2; 5 # 2]%Q
    [] [] (1 # 1000000)
  = Ok ([2147483647; 102]%Z, [-1; 0]%Z)
  ∧ find_not_in_mesh Int32 (SharedDomainMap.new 1 true) [2147483647; 102]%Z
      [1; 5]%Z
    = Ok ([], [], [])
  ∧ remove_not_in_mesh Int32 [] [1; 5]%Z [2147483647; 102]%Z [-1; 0]%Z
    = Throw InvariantError
  ∧ setup Int32 line_input line_maps = Throw InvariantError
  ∧ setup UInt32 line_input line_maps = Ok line_plan
  ∧ d_missed_points line_plan_rank0 = [1%Z].
Proof. repeat split; vm_compute; reflexivity. Qed.

End SharedDomainMapProofs.

(** ** The distributor *)

Lemma elem_of_arrivals {A} plan (exports : list (list A)) me s x :
  (s, x) ∈ Tpetra.arrivals plan exports me
  ↔ ∃ k procs items,
      plan !! s = Some procs ∧ exports !! s = Some items
      ∧ procs !! k = Some (Z.of_nat me) ∧ items !! k = Some x.
Proof.
  unfold Tpetra.arrivals. rewrite list_elem_of_join. split.
  - intros (l & Hx & Hl).
    apply elem_of_lookup_imap in Hl as (s' & procs & -> & Hprocs).
    apply list_elem_of_omap in Hx as ([p y] & Hzip & Hsel).
    destruct (decide (p = Z.of_nat me)) as [->|]; [|discriminate].
    injection Hsel as <- <-.
    apply list_elem_of_lookup in Hzip as [k Hk].
    apply lookup_zip_Some in Hk as [Hp Hy].
    destruct (exports !! s') as [items|] eqn:Hitems; simpl in Hy;
      [|by rewrite lookup_nil in Hy].
    exists k, procs, items. done.
  - intros (k & procs & items & Hprocs & Hitems & Hk & Hx).
    eexists. split; [|apply elem_of_lookup_imap; eauto].
    apply list_elem_of_omap. exists (Z.of_nat me, x). split.
    + apply list_elem_of_lookup. exists k.
      apply lookup_zip_Some. rewrite Hitems. done.
    + by rewrite decide_True.
Qed.

(** The items of one sender arrive together: their senders are as many
    copies of its rank as it has destinations equal to the receiver. *)
Lemma arrivals_block_senders {A} (me s : nat) procs (items : list A) :
  length procs ≤ length items →
  (λ a : nat * A, Z.of_nat a.1)
  <$> omap (λ '(p, x), if decide (p = Z.of_nat me) then Some (s, x) else None)
        (zip procs items)
  = replicate
      (length (List.filter (λ p, bool_decide (p = Z.of_nat me)) procs))
      (Z.of_nat s).
Proof.
  revert items.
  induction procs as [|p procs IH]; intros items Hlen; [done|].
  destruct items as [|x items]; simpl in Hlen; [lia|]. simpl.
  destruct (decide (p = Z.of_nat me)) as [->|Hne].
  - rewrite bool_decide_eq_true_2 by done. simpl. f_equal. apply IH. lia.
  - rewrite bool_decide_eq_false_2 by done. apply IH. lia.
Qed.

Lemma lengthFrom_app plan procs me s :
  s < length plan →
  Tpetra.lengthFrom (plan ++ [procs]) me s = Tpetra.lengthFrom plan me s.
Proof.
  intros Hs. unfold Tpetra.lengthFrom. by rewrite lookup_app_l.
Qed.

(** The senders of the arrivals, sender by sender. *)
Lemma arrivals_senders {A} plan (exports : list (list A)) me :
  (∀ s procs, plan !! s = Some procs →
              length procs ≤ length (default [] (exports !! s))) →
  (λ a : nat * A, Z.of_nat a.1) <$> Tpetra.arrivals plan exports me
  = mjoin ((λ s, replicate (Tpetra.lengthFrom plan me s) (Z.of_nat s))
           <$> seq 0 (length plan)).
Proof.
  unfold Tpetra.arrivals.
  induction plan as [|procs plan IH] using rev_ind; intros Hlen; [done|].
  rewrite imap_app, join_app, fmap_app, length_app. simpl length.
  replace (length plan + 1) with (S (length plan)) by lia.
  rewrite seq_S, fmap_app, join_app. simpl.
  rewrite !app_nil_r, Nat.add_0_r. f_equal.
  - rewrite IH.
    + f_equal. apply list_fmap_ext. intros i s Hs.
      apply lookup_seq in Hs as [-> Hs]. simpl.
      by rewrite lengthFrom_app.
    + intros s procs' Hs. apply Hlen. rewrite lookup_app_l; [done|].
      by eapply lookup_lt_Some.
  - rewrite arrivals_block_senders.
    + unfold Tpetra.lengthFrom. by rewrite list_lookup_middle.
    + apply Hlen. by rewrite list_lookup_middle.
Qed.

(** The replay of the images and lengths of a distributor. *)
Lemma replay_images_lengths (g : nat → nat) (h : nat → Z) (l : list nat) :
  mjoin
    (zip_with (λ image len, replicate len (h image))
       (List.filter (λ s, negb (g s =? 0)) l)
       (g <$> List.filter (λ s, negb (g s =? 0)) l))
  = mjoin ((λ s, replicate (g s) (h s)) <$> l).
Proof.
  induction l as [|s l IH]; [done|]. simpl.
  destruct (g s =? 0) eqn:Hg; simpl.
  - apply Nat.eqb_eq in Hg. rewrite Hg. simpl. exact IH.
  - f_equal. exact IH.
Qed.

Lemma src_procs_senders {A} plan (exports : list (list A)) me :
  (∀ s procs, plan !! s = Some procs →
              length procs ≤ length (default [] (exports !! s))) →
  RendezvousImport.src_procs plan me
  = (λ a : nat * A, Z.of_nat a.1) <$> Tpetra.arrivals plan exports me.
Proof.
  intros Hlen. rewrite arrivals_senders by done.
  unfold RendezvousImport.src_procs, Tpetra.getLengthsFrom,
    Tpetra.getImagesFrom.
  apply (replay_images_lengths (Tpetra.lengthFrom plan me) Z.of_nat).
Qed.

Lemma length_src_procs plan me :
  length (RendezvousImport.src_procs plan me) = Tpetra.createFromSends plan me.
Proof.
  rewrite (src_procs_senders plan plan me).
  - by rewrite length_fmap.
  - intros s procs Hs. by rewrite Hs.
Qed.

(** ** The rendezvous engine: queries *)

Section RendezvousQueries.
Import Rendezvous.

(** X1: with a partitioner and a positive dimension
    [procsContainingPoints] never throws: it reads the coordinates as
    blocked by dimension ([N] points, coordinate [d] of point [n] at
    [d*N + n], [N] the integer quotient of the array size by the dimension)
    and returns one rank per point, the partitioner's destination of that
    point, in the order of the points. *)
Theorem procsContainingPoints_one_rank_per_point (r : Rendezvous.t)
    (coords : list Q) (partitioner : Partitioner) :
  let N := Z.to_nat (Z.of_nat (length coords) ÷ d_dimension r) in
  (0 < d_dimension r)%Z →
  d_partitioner r = Some partitioner →
  procsContainingPoints r coords
  = Ok ((λ n, partitioner
                ((λ d, coords !!! (d * N + n)%nat)
                 <$> seq 0 (Z.to_nat (d_dimension r))))
        <$> seq 0 N).
Proof.
  intros N Hdim Hpart. unfold procsContainingPoints. rewrite Hpart.
  fold N. apply for_collect_Ok. intros n Hn. apply elem_of_seq in Hn.
  rewrite blocked_point_Ok; [done| |lia].
  apply quot_points_bound. done.
Qed.

Lemma procsContainingPoints_one_rank_per_point_witness :
  procsContainingPoints line_rendezvous [1 # 2; 5 # 2; 3 # 2; 3]%Q
  = Ok [0; 1; 0; 1]%Z.
Proof.
  rewrite (procsContainingPoints_one_rank_per_point line_rendezvous
             [1 # 2; 5 # 2; 3 # 2; 3]%Q line_partitioner);
    [reflexivity|reflexivity|reflexivity].
Defined.

Lemma for_collect_Forall2_iff {I A} (body : I → Result A) idx xs :
  for_collect body idx = Ok xs ↔ Forall2 (λ n x, body n = Ok x) idx xs.
Proof.
  split; [apply for_collect_Forall2|].
  induction 1 as [|n x idx xs Hn _ IH]; simpl; [done|].
  by rewrite Hn, bind_Ok, IH.
Qed.

Lemma map_find_Ok m k v : map_find m k = Ok v ↔ m !! k = Some v.
Proof.
  unfold map_find. destruct (m !! k); split; intros H; try discriminate;
    congruence.
Qed.

Lemma for_collect_Throw {I A} (body : I → Result A) idx e :
  (∀ n, n ∈ idx → body n = Throw e ∨ ∃ x, body n = Ok x) →
  (∃ n, n ∈ idx ∧ body n = Throw e) →
  for_collect body idx = Throw e.
Proof.
  induction idx as [|n idx IH]; intros Hall (n' & Hn' & Hthrow).
  - by apply elem_of_nil in Hn'.
  - simpl. destruct (Hall n) as [->|[x Hx]]; [left|done|].
    rewrite Hx, bind_Ok.
    apply elem_of_cons in Hn' as [->|Hn']; [congruence|].
    rewrite IH; [done| |eauto]. intros; apply Hall. by right.
Qed.

(** X2: [elementSourceProcs] returns exactly when every queried element
    has an entry in the element-to-source-rank map, and then the result
    lists the recorded rank of each element in the order of the query
    (repeated elements give repeated ranks); it runs into the dereference
    of a failed [find] exactly when some queried element has no entry. *)
Theorem elementSourceProcs_spec (r : Rendezvous.t) (elements : list Z) :
  (∀ procs,
     elementSourceProcs r elements = Ok procs
     ↔ Forall2 (λ element proc,
                  d_element_src_procs_map r !! element = Some proc)
         elements procs)
  ∧ ((∃ element, element ∈ elements
                 ∧ d_element_src_procs_map r !! element = None)
     ↔ elementSourceProcs r elements = Throw UndefinedBehaviour).
Proof.
  unfold elementSourceProcs. split.
  - intros procs. rewrite for_collect_Forall2_iff.
    split; intros H; (eapply Forall2_impl; [exact H|]);
      intros e p; apply map_find_Ok.
  - split.
    + intros (e & He & Hnone). apply for_collect_Throw.
      * intros n _. unfold map_find. destruct (_ !! n); eauto.
      * exists e. split; [done|]. unfold map_find. by rewrite Hnone.
    + induction elements as [|e elements IH]; simpl; [discriminate|].
      destruct (map_find (d_element_src_procs_map r) e) as [p|err] eqn:He.
      * rewrite bind_Ok. intros Hrun.
        destruct (for_collect _ elements) as [ps|err] eqn:Hrest;
          [discriminate|].
        simpl in Hrun. destruct IH as (e' & He' & Hnone); [done|].
        exists e'. split; [by right|done].
      * intros _. exists e. split; [by left|].
        unfold map_find in He. by destruct (_ !! e).
Qed.
End RendezvousQueries.

(** ** The rendezvous engine: the mesh in the box *)

Section MeshInBox.
Import Rendezvous.

Lemma block_in_box_well_formed r block :
  block_well_formed (d_dimension r) block →
  ∃ vertices_in_box elements_in_box,
    block_in_box r block = Ok (vertices_in_box, elements_in_box)
    ∧ length vertices_in_box = numVertices block
    ∧ length elements_in_box = numElements block
    ∧ ∀ n i gid p point,
        (n < numElements block)%nat →
        (i < verticesPerElement block)%nat →
        connectivityView block !! (i * numElements block + n)%nat = Some gid →
        verticesView block !! p = Some gid →
        blocked_point (d_dimension r) (coordsView block) (numVertices block) p
        = Ok point →
        pointInBox (d_global_box r) point = true →
        elements_in_box !! n = Some true ∧ vertices_in_box !! p = Some true.
Proof.
  intros (Hcoords & Hconn & Hclosed & Hnodup).
  apply block_in_box_complete; [done|done| |done].
  intros gid Hgid. by eapply (proj1 (Forall_forall _ _) Hclosed).
Qed.

(** X3: on blocks whose views have the sizes their counts announce and
    whose connectivity names vertices of the block, [getMeshInBox] returns,
    leaves the blocks as they are and gives every block one flag per vertex
    and one flag per element; an element with a vertex whose coordinates
    are in the stored (enlarged) box is active, and so is that vertex. *)
Theorem getMeshInBox_marks_elements_with_vertex_in_box (r : Rendezvous.t)
    (mesh : MeshManager) :
  Forall (block_well_formed (d_dimension r)) (blocks mesh) →
  ∃ r1 mesh1,
    getMeshInBox r mesh = Ok (r1, mesh1)
    ∧ blocks mesh1 = blocks mesh
    ∧ ∀ b block, blocks mesh !! b = Some block →
        ∃ vertices_in_box elements_in_box,
          getActiveVertices mesh1 !! b = Some vertices_in_box
          ∧ getActiveElements mesh1 !! b = Some elements_in_box
          ∧ length vertices_in_box = numVertices block
          ∧ length elements_in_box = numElements block
          ∧ ∀ n i gid p point,
              (n < numElements block)%nat →
              (i < verticesPerElement block)%nat →
              connectivityView block !! (i * numElements block + n)%nat
              = Some gid →
              verticesView block !! p = Some gid →
              blocked_point (d_dimension r) (coordsView block)
                (numVertices block) p = Ok point →
              pointInBox (getBox r1) point = true →
              elements_in_box !! n = Some true
              ∧ vertices_in_box !! p = Some true.
Proof.
  intros Hwf.
  assert (∃ res, getMeshInBox r mesh = Ok res) as [[r1 mesh1] Hrun].
  { unfold getMeshInBox. cbv zeta.
    set (r1 := set_global_box r _).
    match goal with
    | |- context [for_each ?body _ _] =>
        destruct (for_each_seq_inv body (λ _ mm, blocks mm = blocks mesh)
                    (getNumBlocks mesh) 0%nat mesh) as (mm & -> & _)
    end; [done| |].
    - intros n mm Hn Hblocks. rewrite Hblocks.
      destruct (lookup_lt_is_Some_2 (blocks mesh) n) as [block Hblock];
        [unfold getNumBlocks in Hn; lia|].
      rewrite (array_get_Ok _ _ _ Hblock), bind_Ok.
      destruct (block_in_box_well_formed r1 block) as (v & e & -> & _).
      { by eapply (Forall_lookup_1 _ _ _ _ Hwf). }
      rewrite bind_Ok. eexists; split; [reflexivity|done].
    - rewrite bind_Ok. eauto. }
  exists r1, mesh1. split; [done|].
  apply getMeshInBox_inv in Hrun as (-> & Hblocks & Hall).
  split; [done|]. intros b block Hblock.
  destruct (Hall b block Hblock) as (v & e & Hfilter & Hv & He).
  exists v, e. split; [done|]. split; [done|].
  set (r1 := set_global_box r _) in *.
  destruct (block_in_box_well_formed r1 block) as (v' & e' & Hf' & Hlv & Hle & Hc).
  { by eapply (Forall_lookup_1 _ _ _ _ Hwf). }
  rewrite Hfilter in Hf'. apply Ok_inj in Hf'. injection Hf' as <- <-.
  split; [done|]. split; [done|]. exact Hc.
Qed.
End MeshInBox.

Section MeshInBoxFlags.
Import Rendezvous.

Section HaloLoop.
Context (block : MeshBlock) (vertex_indices : gmap Z Z).
Context (Hconn : (verticesPerElement block * numElements block
                  ≤ length (connectivityView block))%nat).
Context (Hdom : ∀ gid, gid ∈ connectivityView block →
                       is_Some (vertex_indices !! gid)).
Context (Hrange : ∀ gid idx, vertex_indices !! gid = Some idx →
                             (0 ≤ idx < Z.of_nat (numVertices block))%Z).

(** The vertices the halo loop of element [n] flags. *)
Lemma element_halo_loop_flags vertices_in_box n :
  length vertices_in_box = numVertices block →
  (n < numElements block)%nat →
  ∃ vertices_in_box',
    for_each
      (λ i vertices_in_box,
         vertex_ordinal ←
           array_get (connectivityView block) (i * numElements block + n);
         vertex_index ← map_find vertex_indices vertex_ordinal;
         if decide (0 ≤ vertex_index)%Z
         then array_set vertices_in_box (Z.to_nat vertex_index) true
         else Throw UndefinedBehaviour)
      (seq 0 (verticesPerElement block)) vertices_in_box
    = Ok vertices_in_box'
    ∧ length vertices_in_box' = numVertices block
    ∧ ∀ p, vertices_in_box' !! p = Some true
           ↔ vertices_in_box !! p = Some true
             ∨ ∃ i gid,
                 (i < verticesPerElement block)%nat
                 ∧ connectivityView block !! (i * numElements block + n)%nat
                   = Some gid
                 ∧ vertex_indices !! gid = Some (Z.of_nat p).
Proof.
  intros Hlen Hn.
  match goal with
  | |- ∃ _, for_each ?body _ _ = _ ∧ _ =>
      destruct (for_each_seq_inv body
        (λ k vib,
           length vib = numVertices block
           ∧ ∀ p, vib !! p = Some true
                  ↔ vertices_in_box !! p = Some true
                    ∨ ∃ i gid,
                        (i < k)%nat
                        ∧ connectivityView block
                          !! (i * numElements block + n)%nat = Some gid
                        ∧ vertex_indices !! gid = Some (Z.of_nat p))
        (verticesPerElement block) 0%nat vertices_in_box)
        as (vib & Hrun & Hlen' & Hflags)
  end.
  - split; [done|]. intros p. split; [by left|].
    intros [H|(i & gid & Hi & _)]; [done|lia].
  - intros i vib Hi [Hl Hf].
    destruct (element_vertex block vertex_indices Hconn Hdom Hrange n i)
      as (gid & idx & Hgid & Hidx & Hr); [done|lia|].
    rewrite (array_get_Ok _ _ _ Hgid), bind_Ok.
    unfold map_find. rewrite Hidx, bind_Ok.
    rewrite decide_True by lia. rewrite array_set_Ok by lia.
    eexists; split; [reflexivity|].
    split; [by rewrite length_insert|].
    intros p. destruct (decide (p = Z.to_nat idx)) as [->|Hne].
    + rewrite list_lookup_insert_eq by lia. split; [|done].
      intros _. right. exists i, gid. split; [lia|]. split; [done|].
      rewrite Hidx. f_equal. lia.
    + rewrite list_lookup_insert_ne by done. rewrite Hf. split.
      * intros [H|(i' & gid' & Hi' & Hg' & Hx')]; [by left|].
        right. exists i', gid'. split; [lia|done].
      * intros [H|(i' & gid' & Hi' & Hg' & Hx')]; [by left|].
        right. exists i', gid'. split; [|done].
        destruct (decide (i' = i)) as [->|]; [|lia].
        rewrite Hgid in Hg'. injection Hg' as <-.
        rewrite Hidx in Hx'. injection Hx' as ->. lia.
  - exists vib. done.
Qed.

(** The vertex flags at the end of the element loop: a vertex is flagged
    when it was flagged before the loop or belongs to an element that the
    loop marked. *)
Lemma elements_in_box_loop_flags vertices_in_box :
  length vertices_in_box = numVertices block →
  ∃ vertices_in_box' elements_in_box,
    elements_in_box_loop block vertex_indices vertices_in_box
    = Ok (vertices_in_box', elements_in_box)
    ∧ ∀ p, vertices_in_box' !! p = Some true
           ↔ vertices_in_box !! p = Some true
             ∨ ∃ n i gid,
                 (n < numElements block)%nat
                 ∧ (i < verticesPerElement block)%nat
                 ∧ elements_in_box !! n = Some true
                 ∧ connectivityView block !! (i * numElements block + n)%nat
                   = Some gid
                 ∧ vertex_indices !! gid = Some (Z.of_nat p).
Proof.
  intros Hlen. unfold elements_in_box_loop.
  match goal with
  | |- ∃ _ _, for_each ?body _ _ = _ ∧ _ =>
      destruct (for_each_seq_inv body
        (λ k (s : list bool * list bool),
           length s.1 = numVertices block
           ∧ length s.2 = k
           ∧ ∀ p, s.1 !! p = Some true
                  ↔ vertices_in_box !! p = Some true
                    ∨ ∃ n i gid,
                        (n < k)%nat
                        ∧ (i < verticesPerElement block)%nat
                        ∧ s.2 !! n = Some true
                        ∧ connectivityView block
                          !! (i * numElements block + n)%nat = Some gid
                        ∧ vertex_indices !! gid = Some (Z.of_nat p))
        (numElements block) 0%nat (vertices_in_box, []))
        as ([vib eib] & Hrun & Hl1 & Hl2 & Hflags)
  end.
  - simpl. split; [done|]. split; [done|]. intros p. split; [by left|].
    intros [H|(n & i & gid & Hn & _)]; [done|lia].
  - intros n [vib eib] Hn (Hl1 & Hl2 & Hf). simpl in *.
    destruct (element_decision_loop block vertex_indices Hconn Hdom Hrange
                vib n) as (this & -> & _); [done|lia|].
    rewrite bind_Ok.
    destruct this.
    + destruct (element_halo_loop_flags vib n) as (vib' & -> & Hl' & Hf');
        [done|lia|].
      rewrite bind_Ok. eexists; split; [reflexivity|]. simpl.
      split; [done|]. split; [rewrite length_app; simpl; lia|].
      intros p. rewrite Hf', Hf. split.
      * intros [[H|(n' & i & gid & Hn' & Hi & He & Hg & Hx)]
               |(i & gid & Hi & Hg & Hx)].
        -- by left.
        -- right. exists n', i, gid. split; [lia|]. split; [done|].
           split; [|done]. rewrite lookup_app_l by lia. done.
        -- right. exists n, i, gid. split; [lia|]. split; [done|].
           split; [|done]. rewrite lookup_app_r by lia.
           by rewrite Hl2, Nat.sub_diag.
      * intros [H|(n' & i & gid & Hn' & Hi & He & Hg & Hx)];
          [by left; left|].
        destruct (decide (n' = n)) as [->|Hne].
        -- right. exists i, gid. done.
        -- left. right. exists n', i, gid. split; [lia|]. split; [done|].
           split; [|done]. rewrite lookup_app_l in He by lia. done.
    + rewrite bind_Ok. eexists; split; [reflexivity|]. simpl.
      split; [done|]. split; [rewrite length_app; simpl; lia|].
      intros p. rewrite Hf. split.
      * intros [H|(n' & i & gid & Hn' & Hi & He & Hg & Hx)]; [by left|].
        right. exists n', i, gid. split; [lia|]. split; [done|].
        split; [|done]. rewrite lookup_app_l by lia. done.
      * intros [H|(n' & i & gid & Hn' & Hi & He & Hg & Hx)]; [by left|].
        right. exists n', i, gid.
        destruct (decide (n' = n)) as [->|Hne].
        -- rewrite lookup_app_r in He by lia.
           rewrite Hl2, Nat.sub_diag in He. discriminate.
        -- rewrite lookup_app_l in He by lia. split; [lia|done].
  - exists vib, eib. simpl in *. done.
Qed.
End HaloLoop.

(** X4: after [getMeshInBox] a vertex is active exactly when its
    coordinates are in the stored (enlarged) box or it is a vertex of an
    active element of its block: the flags of the vertices are closed under
    the connectivity of the active elements, and nothing else is
    flagged. *)
Theorem getMeshInBox_active_vertices (r r1 : Rendezvous.t)
    (mesh mesh1 : MeshManager) (b : nat) (block : MeshBlock)
    (vertices_in_box elements_in_box : list bool) (p : nat) (gid : Z)
    (point : list Q) :
  Forall (block_well_formed (d_dimension r)) (blocks mesh) →
  getMeshInBox r mesh = Ok (r1, mesh1) →
  blocks mesh !! b = Some block →
  getActiveVertices mesh1 !! b = Some vertices_in_box →
  getActiveElements mesh1 !! b = Some elements_in_box →
  verticesView block !! p = Some gid →
  blocked_point (d_dimension r) (coordsView block) (numVertices block) p
  = Ok point →
  vertices_in_box !! p = Some true
  ↔ pointInBox (getBox r1) point = true
    ∨ ∃ n i,
        (n < numElements block)%nat
        ∧ (i < verticesPerElement block)%nat
        ∧ elements_in_box !! n = Some true
        ∧ connectivityView block !! (i * numElements block + n)%nat
          = Some gid.
Proof.
  intros Hwf Hrun Hblock Hvib Heib Hp Hpoint.
  apply getMeshInBox_inv in Hrun as (-> & _ & Hall).
  destruct (Hall b block Hblock) as (v & e & Hfilter & Hv & He).
  rewrite Hvib in Hv. injection Hv as <-.
  rewrite Heib in He. injection He as <-.
  set (r1 := set_global_box r _) in *.
  destruct (Forall_lookup_1 _ _ _ _ Hwf Hblock)
    as (Hcoords & Hconn & Hclosed & Hnodup).
  unfold block_in_box in Hfilter.
  destruct (vertices_in_box_loop_spec (d_dimension r1) (d_global_box r1) block
              Hcoords) as (vi & vib0 & Hvloop & Hlen0 & Hflags & Hrange & Hdom).
  rewrite Hvloop, bind_Ok in Hfilter.
  destruct (elements_in_box_loop_flags block vi Hconn) with (vertices_in_box := vib0)
    as (vib & eib & Heloop & Hchar).
  { intros g Hg. apply Hdom. by eapply (proj1 (Forall_forall _ _) Hclosed). }
  { intros g idx Hidx. by apply Hrange in Hidx as [? _]. }
  { done. }
  rewrite Heloop in Hfilter. apply Ok_inj in Hfilter.
  injection Hfilter as <- <-.
  assert (∀ g, vi !! g = Some (Z.of_nat p) ↔ g = gid) as Hidx.
  { intros g. split.
    - intros Hg. apply Hrange in Hg as [_ Hg]. rewrite Nat2Z.id in Hg. congruence.
    - intros ->. destruct (Hdom gid) as [idx Hidx];
        [by eapply list_elem_of_lookup_2|].
      rewrite Hidx. f_equal.
      destruct (Hrange _ _ Hidx) as [Hr Hback].
      assert (Z.to_nat idx = p)
        by (eapply NoDup_lookup; [exact Hnodup|exact Hback|exact Hp]).
      lia. }
  rewrite Hchar.
  destruct (Hflags p) as (point' & Hpoint' & Hflag);
    [by eapply lookup_lt_Some|].
  change (d_dimension r1) with (d_dimension r) in Hpoint'.
  rewrite Hpoint in Hpoint'. apply Ok_inj in Hpoint' as <-.
  rewrite Hflag. unfold getBox. split.
  - intros [H|(n & i & g & Hn & Hi & He & Hg & Hx)].
    + left. congruence.
    + right. exists n, i. apply Hidx in Hx as ->. done.
  - intros [H|(n & i & Hn & Hi & He & Hg)].
    + left. by rewrite H.
    + right. exists n, i, gid. rewrite Hidx. done.
Qed.
End MeshInBoxFlags.

(** ** The shared-domain map: the target points *)

Section TargetPoints.
Import SharedDomainMap.

Lemma set_missed_points_id m :
  set_missed_points m (d_missed_points m) = m.
Proof. by destruct m. Qed.

(** X5: [getTargetPointsInBox] throws a precondition error when the number
    of points of the coordinate field differs from the number of ordinals,
    and otherwise returns one entry per point: the point's ordinal when the
    point is in the box, -1 in the ordinal type when it is not. When missed
    points are stored, the local indices of the points whose entry compares
    equal to -1 are appended, in ascending order, to the missed points;
    nothing else of the map changes, and what was in [targets_in_box]
    before is overwritten. *)
Theorem getTargetPointsInBox_spec (T : OrdinalType) (m : SharedDomainMap.t)
    (box : BoundingBox) (target_coords : FieldContainer)
    (target_ordinals targets_in_box : list Z) :
  let N := Z.to_nat (dimSize target_coords) in
  let point n :=
    (λ d, field_data target_coords !!! (N * d + n)%nat)
    <$> seq 0 (Z.to_nat (field_dim target_coords)) in
  let entry n :=
    if pointInBox box (point n) then target_ordinals !!! n
    else ordinal_wrap T (-1) in
  (0 < field_dim target_coords)%Z →
  getTargetPointsInBox T m box target_coords target_ordinals targets_in_box
  = if (dimSize target_coords =? Z.of_nat (length target_ordinals))%Z
    then
      Ok (set_missed_points m
            (d_missed_points m
             ++ if d_store_missed_points m
                then Z.of_nat
                     <$> List.filter (λ n, is_minus_one T (entry n)) (seq 0 N)
                else []),
          entry <$> seq 0 N)
    else Throw PreconditionError.
Proof.
  intros N point entry Hdim. unfold getTargetPointsInBox.
  destruct (dimSize target_coords =? Z.of_nat (length target_ordinals))%Z
    eqn:Hsize; [|done].
  apply Z.eqb_eq in Hsize. simpl. fold N.
  set (tib0 := resize N 0%Z targets_in_box).
  assert (length tib0 = N) as Hlen0 by (unfold tib0; by rewrite length_resize).
  assert (N * Z.to_nat (field_dim target_coords)
          ≤ length (field_data target_coords))%nat as Hdata.
  { unfold N, dimSize. rewrite Nat.mul_comm. by apply quot_points_bound. }
  match goal with
  | |- for_each ?body _ _ = _ =>
      destruct (for_each_seq_inv body
        (λ k (s : SharedDomainMap.t * list Z),
           s.1 = set_missed_points m
                   (d_missed_points m
                    ++ if d_store_missed_points m
                       then Z.of_nat
                            <$> List.filter (λ n, is_minus_one T (entry n))
                                  (seq 0 k)
                       else [])
           ∧ s.2 = (entry <$> seq 0 k) ++ drop k tib0)
        N 0%nat (m, tib0)) as ([m' tib'] & Hrun & Hm' & Htib')
  end.
  - simpl. split; [|by rewrite drop_0].
    destruct (d_store_missed_points m); simpl; rewrite app_nil_r;
      by rewrite set_missed_points_id.
  - intros n [mk tibk] Hn [Hmk Htibk]. simpl in Hmk, Htibk.
    rewrite (for_collect_Ok _
               (λ d, field_data target_coords !!! (N * d + n)%nat)).
    2:{ intros d Hd. apply elem_of_seq in Hd.
        destruct (lookup_lt_is_Some_2 (field_data target_coords) (N * d + n))
          as [x Hx]; [nia|].
        rewrite (array_get_Ok _ _ _ Hx). f_equal. symmetry.
        by apply list_lookup_total_correct. }
    rewrite bind_Ok. fold (point n).
    assert ((if pointInBox box (point n)
             then array_get target_ordinals n
             else Ok (ordinal_wrap T (-1))) = Ok (entry n)) as ->.
    { unfold entry. destruct (pointInBox box (point n)); [|done].
      destruct (lookup_lt_is_Some_2 target_ordinals n) as [o Ho]; [lia|].
      rewrite (array_get_Ok _ _ _ Ho). f_equal. symmetry.
      by apply list_lookup_total_correct. }
    rewrite bind_Ok.
    assert (length tibk = N) as Hlenk.
    { rewrite Htibk, length_app, length_fmap, length_seq, length_drop. lia. }
    rewrite array_set_Ok by lia. rewrite bind_Ok.
    eexists; split; [reflexivity|]. cbn [fst snd]. split.
    + rewrite Hmk. cbn [d_store_missed_points set_missed_points
                        d_missed_points].
      rewrite seq_S, List.filter_app. simpl.
      destruct (d_store_missed_points m); simpl.
      * destruct (is_minus_one T (entry n)); simpl.
        -- unfold set_missed_points; cbn. rewrite fmap_app, app_assoc. done.
        -- by rewrite app_nil_r.
      * done.
    + rewrite Htibk, seq_S, fmap_app. simpl.
      rewrite insert_app_r_alt by (rewrite length_fmap, length_seq; lia).
      rewrite length_fmap, length_seq, Nat.sub_diag.
      destruct (lookup_lt_is_Some_2 tib0 n) as [x Hx]; [lia|].
      rewrite (drop_S _ _ _ Hx). simpl. by rewrite <- app_assoc.
  - rewrite Hrun. simpl in Hm', Htib'. rewrite Hm', Htib'.
    rewrite drop_ge by lia. by rewrite app_nil_r.
Qed.
End TargetPoints.

Lemma for_each_app {I S} (body : I → S → Result S) idx1 idx2 s :
  for_each body (idx1 ++ idx2) s
  = for_each body idx1 s ≫= for_each body idx2.
Proof.
  revert s. induction idx1 as [|n idx1 IH]; intros s; simpl; [done|].
  destruct (body n s) as [s1|e]; [|done]. rewrite !bind_Ok. apply IH.
Qed.

Section NotInBox.
Import SharedDomainMap.

Lemma positions_of_minus_one_snoc T a x :
  positions_of_minus_one T (a ++ [x])
  = positions_of_minus_one T a
    ++ if is_minus_one T x then [Z.of_nat (length a)] else [].
Proof.
  unfold positions_of_minus_one. rewrite imap_app, omap_app. simpl.
  rewrite Nat.add_0_r. by destruct (is_minus_one T x).
Qed.

Lemma positions_of_minus_one_bound T a i :
  i ∈ positions_of_minus_one T a → (0 ≤ i < Z.of_nat (length a))%Z.
Proof.
  unfold positions_of_minus_one. intros Hi.
  apply list_elem_of_omap in Hi as ([k x] & Hk & Hsel).
  apply elem_of_lookup_imap in Hk as (k' & x' & [= -> ->] & Hk).
  apply lookup_lt_Some in Hk.
  destruct (is_minus_one T x'); [|discriminate]. injection Hsel as <-. lia.
Qed.

(** Erasing entries below the length of a prefix leaves what follows the
    prefix in place. *)
Lemma array_remove_app {A} (idx : list Z) (l l' l2 : list A) :
  for_each (λ i a, array_remove i a) idx l = Ok l' →
  for_each (λ i a, array_remove i a) idx (l ++ l2) = Ok (l' ++ l2).
Proof.
  revert l. induction idx as [|i idx IH]; intros l Hrun; simpl in *.
  - by apply Ok_inj in Hrun as ->.
  - apply bind_Ok_inv in Hrun as (l1 & Hl1 & Hrun).
    unfold array_remove in Hl1 |- *.
    destruct (decide (0 ≤ i < Z.of_nat (length l))%Z) as [Hi|]; [|done].
    apply Ok_inj in Hl1 as <-.
    rewrite decide_True by (rewrite length_app; lia).
    rewrite bind_Ok.
    replace (delete (Z.to_nat i) (l ++ l2)) with (delete (Z.to_nat i) l ++ l2).
    + by apply IH.
    + rewrite !delete_take_drop.
      rewrite take_app_le, drop_app_le by lia. by rewrite app_assoc.
Qed.

Lemma array_remove_last {A} (l : list A) y :
  array_remove (Z.of_nat (length l)) (l ++ [y]) = Ok l.
Proof.
  unfold array_remove.
  rewrite decide_True by (rewrite length_app; simpl; lia).
  by rewrite Nat2Z.id, delete_middle, app_nil_r.
Qed.

Lemma remove_positions_of_minus_one {A} T (a : list Z) :
  ∀ procs : list A,
    length procs = length a →
    for_each (λ i procs, array_remove i procs)
      (reverse (positions_of_minus_one T a)) procs
    = Ok (List.filter (λ x, negb (is_minus_one T x.1)) (zip a procs)).*2.
Proof.
  induction a as [|x a IH] using rev_ind; intros procs Hlen.
  - destruct procs; [done|discriminate].
  - rewrite length_app in Hlen. simpl in Hlen.
    destruct (decide (procs = [])) as [->|Hne]; [simpl in Hlen; lia|].
    destruct (exists_last Hne) as (procs' & y & ->).
    rewrite length_app in Hlen. simpl in Hlen.
    assert (length procs' = length a) as Hlen' by lia.
    rewrite positions_of_minus_one_snoc, reverse_app, for_each_app.
    rewrite zip_with_app by done. simpl.
    rewrite List.filter_app, fmap_app. simpl.
    destruct (is_minus_one T x); simpl.
    + rewrite <- Hlen', array_remove_last, !bind_Ok, app_nil_r.
      by apply IH.
    + apply array_remove_app. by apply IH.
Qed.

Lemma length_filter_zip {A} (f : Z → bool) (a : list Z) (procs : list A) :
  length procs = length a →
  length (List.filter (λ x, f x.1) (zip a procs)) = length (List.filter f a).
Proof.
  revert procs. induction a as [|x a IH]; intros [|y procs] Hlen;
    simpl in *; try done.
  destruct (f x); simpl; rewrite IH; (done || lia).
Qed.

(** X6: the extraction of [setup] that drops the target points outside the
    box keeps the ordinal array and the rank array aligned: on arrays of
    equal length it returns the ordinals that do not compare equal to -1,
    in their order, and the ranks that stood at the same positions. *)
Theorem remove_not_in_box_spec (T : OrdinalType)
    (targets_in_box rendezvous_procs : list Z) :
  length rendezvous_procs = length targets_in_box →
  remove_not_in_box T targets_in_box rendezvous_procs
  = Ok (List.filter (λ ordinal, negb (is_minus_one T ordinal)) targets_in_box,
        (List.filter (λ x, negb (is_minus_one T x.1))
           (zip targets_in_box rendezvous_procs)).*2).
Proof.
  intros Hlen. unfold remove_not_in_box, std_remove.
  rewrite remove_positions_of_minus_one by done. rewrite bind_Ok.
  rewrite resize_app by done. f_equal. f_equal.
  apply resize_all_alt. rewrite length_fmap.
  symmetry. by apply (length_filter_zip (λ x, negb (is_minus_one T x))).
Qed.
End NotInBox.

Section GlobalToLocal.
Import SharedDomainMap.

Lemma computePointOrdinals_g2l_loop T (rank G : Z) (k : nat) m
    (ords : list Z) :
  let o n := ordinal_wrap T (rank * G + Z.of_nat n) in
  let res :=
    foldl
      (λ '(m, target_ordinals) n,
         let ordinal := ordinal_wrap T (rank * G + Z.of_nat n) in
         let target_ordinals := <[n := ordinal]> target_ordinals in
         (if d_store_missed_points m
          then set_target_g2l m (<[ordinal := Z.of_nat n]> (d_target_g2l m))
          else m,
          target_ordinals))
      (m, ords) (seq 0 k) in
  d_store_missed_points res.1 = d_store_missed_points m
  ∧ (d_store_missed_points m = true →
       set_target_g2l res.1 (d_target_g2l m) = m
       ∧ (∀ n, (n < k)%nat →
             (∀ n', (n' < k)%nat → o n' = o n → n' = n) →
             d_target_g2l res.1 !! o n = Some (Z.of_nat n))
       ∧ (∀ key, (∀ n, (n < k)%nat → o n ≠ key) →
             d_target_g2l res.1 !! key = d_target_g2l m !! key))
  ∧ (d_store_missed_points m = false → res.1 = m).
Proof.
  intros o. induction k as [|k IH].
  - simpl. split; [done|]. split; [|done]. intros _.
    split; [by destruct m|]. split; [intros; lia|done].
  - cbv zeta in IH |- *. rewrite seq_S, foldl_app. simpl.
    destruct (foldl _ (m, ords) (seq 0 k)) as [mk ordsk]. simpl in *.
    destruct IH as (Hflag & Hstore & Hnostore).
    rewrite Hflag. destruct (d_store_missed_points m) eqn:Hm.
    + destruct Hstore as (Hsame & Hround & Hother); [done|].
      split; [done|]. split; [|done]. intros _.
      cbn [set_target_g2l d_target_g2l]. split; [|split].
      * rewrite <- Hsame at 2. done.
      * intros n Hn Hinj. destruct (decide (n = k)) as [->|Hne].
        -- by rewrite lookup_insert_eq.
        -- rewrite lookup_insert_ne.
           ++ apply Hround; [lia|]. intros n' Hn'. apply Hinj. lia.
           ++ intros Heq. apply Hne. symmetry. apply Hinj; [lia|done].
      * intros key Hkey. rewrite lookup_insert_ne by (apply Hkey; lia).
        apply Hother. intros n Hn. apply Hkey. lia.
    + split; [done|]. split; [done|]. auto.
Qed.

(** X7: when missed points are stored and the ordinals do not overflow the
    ordinal type, [computePointOrdinals] makes the global-to-local map the
    inverse of the ordinal array (the ordinal at local index [n] is mapped
    to [n]), leaves every other key as it was and changes nothing else of
    the map object; when missed points are not stored the map object is
    not touched at all. *)
Theorem computePointOrdinals_global_to_local (T : OrdinalType)
    (comm : list (option FieldContainer)) (r : nat) (m : SharedDomainMap.t) :
  let G := reduceAll_max (local_size <$> comm) in
  let m' := (computePointOrdinals T comm r m).1 in
  let target_ordinals := (computePointOrdinals T comm r m).2 in
  (0 < ord_bits T)%Z →
  (Z.of_nat (length comm) * G - 1 ≤ ordinal_max T)%Z →
  (r < length comm)%nat →
  (d_store_missed_points m = true →
     (∀ n ordinal, target_ordinals !! n = Some ordinal →
                   d_target_g2l m' !! ordinal = Some (Z.of_nat n))
     ∧ (∀ key, key ∉ target_ordinals →
               d_target_g2l m' !! key = d_target_g2l m !! key)
     ∧ set_target_g2l m' (d_target_g2l m) = m)
  ∧ (d_store_missed_points m = false → m' = m).
Proof.
  intros G m' target_ordinals Hbits Hfit Hr.
  pose proof (computePointOrdinals_ordinals T comm r m) as Hords.
  fold target_ordinals G in Hords.
  set (L := Z.to_nat (local_size (mjoin (comm !! r)))) in *.
  destruct (computePointOrdinals_g2l_loop T (Z.of_nat r) G L m
              (resize L 0%Z [])) as (_ & Hstore & Hnostore).
  change (foldl _ _ _) with (computePointOrdinals T comm r m) in Hstore, Hnostore.
  fold m' in Hstore, Hnostore.
  assert (∀ n, (n < L)%nat →
            ordinal_wrap T (Z.of_nat r * G + Z.of_nat n)
            = (Z.of_nat r * G + Z.of_nat n)%Z) as Hwrap.
  { intros n Hn.
    destruct (computePointOrdinals_lookup T comm r m n
                (ordinal_wrap T (Z.of_nat r * G + Z.of_nat n)))
      as [Ho _]; [done|done|done| |done].
    fold target_ordinals. rewrite Hords. apply list_lookup_fmap_Some.
    exists n. split; [done|]. by apply lookup_seq. }
  split; [|done]. intros Hm.
  destruct (Hstore Hm) as (Hsame & Hround & Hother).
  split; [|split; [|done]].
  - intros n o Hn. rewrite Hords in Hn.
    apply list_lookup_fmap_Some in Hn as (n' & -> & Hn').
    apply lookup_seq in Hn' as [-> Hn]. simpl in *.
    apply Hround; [done|]. intros n' Hn'.
    rewrite !Hwrap by done. lia.
  - intros key Hkey. apply Hother. intros n Hn Heq. apply Hkey.
    rewrite Hords. apply list_elem_of_fmap. exists n. split; [done|].
    apply elem_of_seq. lia.
Qed.
End GlobalToLocal.

(** ** The shared-domain map: the missed points *)

Lemma length_arrivals {A} plan (exports : list (list A)) me :
  (∀ s procs, plan !! s = Some procs →
              length procs ≤ length (default [] (exports !! s))) →
  length (Tpetra.arrivals plan exports me) = Tpetra.createFromSends plan me.
Proof.
  intros Hlen. unfold Tpetra.createFromSends.
  rewrite <- (length_fmap (λ a : nat * A, Z.of_nat a.1)).
  rewrite <- (length_fmap (λ a : nat * Z, Z.of_nat a.1)
                (Tpetra.arrivals plan plan me)).
  rewrite !arrivals_senders; [done| |done].
  intros s procs Hs. by rewrite Hs.
Qed.

Lemma write_view_full {A} (dst src : list A) :
  length src = length dst → write_view dst src = src.
Proof.
  intros Hlen. unfold write_view. rewrite <- Hlen.
  rewrite take_app_length. done.
Qed.

(** What a rank receives through a distributor, when every sender ships one
    item per destination it listed. *)
Lemma doPostsAndWaits_arrivals {A} plan (exports : list (list A)) me (x : A) :
  (∀ s procs, plan !! s = Some procs →
              length procs ≤ length (default [] (exports !! s))) →
  Tpetra.doPostsAndWaits plan exports me
    (replicate (Tpetra.createFromSends plan me) x)
  = (Tpetra.arrivals plan exports me).*2.
Proof.
  intros Hlen. unfold Tpetra.doPostsAndWaits. apply write_view_full.
  rewrite length_fmap, length_replicate. by apply length_arrivals.
Qed.

Lemma map_find_Some m k v : m !! k = Some v → map_find m k = Ok v.
Proof. unfold map_find. by intros ->. Qed.

Lemma map_find_None m k :
  m !! k = None → map_find m k = Throw UndefinedBehaviour.
Proof. unfold map_find. by intros ->. Qed.

Section MissedPoints.
Import SharedDomainMap.

(** X8: in [setup], the target rank computed for a missed point from the
    images and lengths of the target-to-rendezvous distributor is the rank
    that sent that point to this rendezvous rank, for every missed index
    inside the received points; the size check of the replayed ranks never
    fails. *)
Theorem missed_target_procs_are_senders {A : Type}
    (plan : Tpetra.Distributor) (exports : list (list A)) (r : nat)
    (missed_in_mesh_idx : list Z) :
  (∀ s procs, plan !! s = Some procs →
              length procs ≤ length (default [] (exports !! s))) →
  Forall (λ i, (0 ≤ i < Z.of_nat (Tpetra.createFromSends plan r))%Z)
    missed_in_mesh_idx →
  missed_target_procs plan r (Tpetra.createFromSends plan r)
    missed_in_mesh_idx
  = Ok ((λ i, Z.of_nat ((Tpetra.arrivals plan exports r).*1 !!! Z.to_nat i))
        <$> missed_in_mesh_idx).
Proof.
  intros Hlen Hidx. unfold missed_target_procs.
  change (mjoin (zip_with _ _ _)) with (RendezvousImport.src_procs plan r).
  rewrite length_src_procs, Nat.eqb_refl. simpl.
  apply for_collect_Ok. intros i Hi.
  pose proof (proj1 (Forall_forall _ _) Hidx i Hi) as Hrange.
  cbv beta in Hrange.
  unfold array_get_Z. rewrite decide_True by lia.
  rewrite (src_procs_senders plan exports r Hlen).
  rewrite <- (length_arrivals plan exports r Hlen) in Hrange.
  destruct (lookup_lt_is_Some_2 (Tpetra.arrivals plan exports r) (Z.to_nat i))
    as [[s x] Hsx]; [lia|].
  apply array_get_Ok. rewrite list_lookup_fmap, Hsx. simpl. f_equal. f_equal.
  symmetry. apply list_lookup_total_correct.
  by rewrite list_lookup_fmap, Hsx.
Qed.

(** X9: in [setup], the missed ordinals that come back to a target rank are
    appended behind the missed points already listed, each translated to
    its local index through the global-to-local map, in arrival order; an
    arriving ordinal without an entry in that map runs into the dereference
    of a failed [find]. *)
Theorem receive_missed_points_spec (m : SharedDomainMap.t)
    (plan : Tpetra.Distributor) (missed_in_mesh_ordinal : list (list Z))
    (r : nat) :
  let arrived := (Tpetra.arrivals plan missed_in_mesh_ordinal r).*2 in
  (∀ s procs, plan !! s = Some procs →
     length procs ≤ length (default [] (missed_in_mesh_ordinal !! s))) →
  (Forall (λ ordinal, is_Some (d_target_g2l m !! ordinal)) arrived →
   receive_missed_points m plan missed_in_mesh_ordinal r
   = Ok (set_missed_points m
           (d_missed_points m
            ++ ((λ ordinal, default 0%Z (d_target_g2l m !! ordinal))
                <$> arrived))))
  ∧ (Exists (λ ordinal, d_target_g2l m !! ordinal = None) arrived →
     receive_missed_points m plan missed_in_mesh_ordinal r
     = Throw UndefinedBehaviour).
Proof.
  intros arrived Hlen.
  assert (length arrived = Tpetra.createFromSends plan r) as Hnum.
  { unfold arrived. rewrite length_fmap. by apply length_arrivals. }
  unfold receive_missed_points.
  rewrite resize_add_eq by done.
  rewrite take_app_length, drop_app_length.
  rewrite doPostsAndWaits_arrivals by done. fold arrived.
  set (offset := length (d_missed_points m)).
  set (num := Tpetra.createFromSends plan r) in *.
  set (conv := λ ordinal, default 0%Z (d_target_g2l m !! ordinal)).
  split.
  - intros Hdom.
    match goal with
    | |- for_each ?body _ _ ≫= _ = _ =>
        destruct (for_each_seq_inv body
          (λ n missed,
             missed = d_missed_points m
                      ++ (conv <$> take (n - offset) arrived)
                      ++ drop (n - offset) arrived)
          num offset (d_missed_points m ++ arrived))
          as (missed & -> & Hmissed)
    end.
    + by rewrite Nat.sub_diag, take_0, drop_0.
    + intros n missed Hn ->.
      assert (n = offset + (n - offset))%nat as Hsplit by lia.
      set (k := (n - offset)%nat) in *.
      destruct (lookup_lt_is_Some_2 arrived k) as [o Ho]; [lia|].
      destruct (proj1 (Forall_forall _ _) Hdom o
                  (list_elem_of_lookup_2 _ _ _ Ho)) as [local Hlocal].
      assert ((d_missed_points m ++ (conv <$> take k arrived)
               ++ drop k arrived) !! n = Some o) as Hget.
      { rewrite lookup_app_r by (fold offset; lia).
        rewrite lookup_app_r
          by (rewrite length_fmap, length_take; fold offset; lia).
        rewrite length_fmap, length_take. fold offset.
        rewrite lookup_drop. rewrite <- Ho. f_equal. lia. }
      rewrite (array_get_Ok _ _ _ Hget), bind_Ok.
      unfold map_find. rewrite Hlocal, bind_Ok.
      rewrite array_set_Ok
        by (rewrite !length_app, length_fmap, length_take, length_drop;
            fold offset; lia).
      eexists; split; [reflexivity|].
      replace (S n - offset)%nat with (S k) by lia.
      rewrite (take_S_r _ _ _ Ho), fmap_app. simpl.
      rewrite insert_app_r_alt by (fold offset; lia).
      fold offset. fold k.
      rewrite insert_app_r_alt
        by (rewrite length_fmap, length_take; lia).
      rewrite length_fmap, length_take.
      replace (k - k `min` length arrived)%nat with 0%nat by lia.
      rewrite (drop_S _ _ _ Ho). simpl.
      rewrite <- app_assoc. simpl.
      replace (conv o) with local; [done|]. unfold conv. by rewrite Hlocal.
    + rewrite bind_Ok. f_equal. f_equal. rewrite Hmissed.
      replace (offset + num - offset)%nat with num by lia.
      rewrite <- Hnum, firstn_all, drop_all. by rewrite app_nil_r.
  - intros Hex. apply Exists_exists in Hex as (o & Ho & Hnone).
    apply list_elem_of_lookup in Ho as [k Hk].
    (* The loop fails at the first ordinal without an entry. *)
    assert (∀ len a missed,
              (a + len ≤ offset + num)%nat → (offset ≤ a)%nat →
              length missed = (offset + num)%nat →
              (∀ j, (a ≤ j < offset + num)%nat →
                    missed !! j = arrived !! (j - offset)%nat) →
              (a ≤ offset + k < a + len)%nat →
              for_each
                (λ n missed,
                   ordinal ← array_get missed n;
                   local ← map_find (d_target_g2l m) ordinal;
                   array_set missed n local)
                (seq a len) missed = Throw UndefinedBehaviour) as Hloop.
    { induction len as [|len IH]; intros a missed Hlen' Ha Hl Hrest Hk';
        [lia|].
      simpl.
      destruct (lookup_lt_is_Some_2 arrived (a - offset)) as [o' Ho'];
        [lia|].
      assert (missed !! a = Some o') as Hget by (rewrite Hrest; [done|lia]).
      rewrite (array_get_Ok missed a o' Hget).
      rewrite bind_Ok.
      destruct (d_target_g2l m !! o') as [local|] eqn:Hlocal;
        [|by rewrite (map_find_None _ _ Hlocal)].
      rewrite (map_find_Some _ _ _ Hlocal).
      rewrite bind_Ok, array_set_Ok by lia. rewrite bind_Ok.
      destruct (decide (a = offset + k)%nat) as [->|Hne].
      { replace (offset + k - offset)%nat with k in Ho' by lia. congruence. }
      apply IH; [lia|lia|by rewrite length_insert| |lia].
      intros j Hj. rewrite list_lookup_insert_ne by lia. apply Hrest. lia. }
    rewrite (Hloop num offset); [done|lia|lia| | |].
    + rewrite length_app. fold offset. lia.
    + intros j Hj. rewrite lookup_app_r by (fold offset; lia). done.
    + apply lookup_lt_Some in Hk. lia.
Qed.
End MissedPoints.

(** ** The shared-domain map: [apply] *)

(** ** The export writes what the source holds *)

Section ExportFold.
Context {A : Type} (ev : nat → nat → option A) (lda : nat).

Local Abbreviation inner d data js :=
  (foldl
     (λ (data : list A) (j : nat),
        match ev j d with
        | Some x => <[(d * lda + j)%nat := x]> data
        | None => data
        end)
     data js).

Local Abbreviation outer js data ds :=
  (foldl (λ (data : list A) (d : nat), inner d data js) data ds).

Lemma export_inner_length d data js : length (inner d data js) = length data.
Proof.
  revert data. induction js as [|j js IH]; intros data; simpl; [done|].
  rewrite IH. destruct (ev j d); [|done].
  by rewrite length_insert.
Qed.

Lemma export_inner_other d data js k :
  (∀ j, j ∈ js → (d * lda + j)%nat ≠ k) →
  inner d data js !! k = data !! k.
Proof.
  revert data. induction js as [|j js IH]; intros data Hk; simpl; [done|].
  rewrite IH by (intros; apply Hk; by right).
  destruct (ev j d); [|done].
  apply list_lookup_insert_ne. apply Hk. by left.
Qed.

Lemma export_inner_hit d data js j x :
  NoDup js → j ∈ js → ev j d = Some x →
  (d * lda + j < length data)%nat →
  inner d data js !! (d * lda + j)%nat = Some x.
Proof.
  revert data. induction js as [|j0 js IH]; intros data Hnd Hj Hx Hlen.
  - by apply elem_of_nil in Hj.
  - apply NoDup_cons in Hnd as [Hj0 Hnd]. simpl.
    destruct (decide (j0 = j)) as [->|Hne].
    + rewrite Hx.
      rewrite export_inner_other.
      * by apply list_lookup_insert_eq.
      * intros j' Hj' Heq. assert (j' = j) as -> by lia. done.
    + apply elem_of_cons in Hj as [->|Hj]; [done|].
      apply IH; [done|done|done|].
      destruct (ev j0 d); [by rewrite length_insert|done].
Qed.

Lemma export_outer_other js data ds k :
  (∀ d j, d ∈ ds → j ∈ js → (d * lda + j)%nat ≠ k) →
  outer js data ds !! k = data !! k.
Proof.
  revert data. induction ds as [|d ds IH]; intros data Hk; simpl; [done|].
  rewrite IH by (intros; apply Hk; [by right|done]).
  apply export_inner_other. intros j Hj. apply Hk; [by left|done].
Qed.

Lemma export_outer_hit js data ds d j x :
  NoDup js → NoDup ds → (∀ j, j ∈ js → (j < lda)%nat) →
  d ∈ ds → j ∈ js → ev j d = Some x →
  (d * lda + j < length data)%nat →
  outer js data ds !! (d * lda + j)%nat = Some x.
Proof.
  intros Hndj. revert data.
  induction ds as [|d0 ds IH]; intros data Hndd Hlda Hd Hj Hx Hlen.
  - by apply elem_of_nil in Hd.
  - apply NoDup_cons in Hndd as [Hd0 Hndd]. simpl.
    destruct (decide (d0 = d)) as [->|Hne].
    + rewrite export_outer_other.
      * by apply export_inner_hit.
      * intros d' j' Hd' Hj' Heq.
        destruct (blocked_index_inj lda d' d j' j) as [-> _]; auto.
    + apply elem_of_cons in Hd as [->|Hd]; [done|].
      apply IH; [done|done|done|done|done|].
      by rewrite export_inner_length.
Qed.
End ExportFold.

Lemma doExport_written exporter source me target j d x :
  Tpetra.exported_value exporter source me j d = Some x →
  (length (default [] (Tpetra.exp_target_map exporter !! me))
   ≤ Tpetra.mv_lda target)%nat →
  (d < Tpetra.mv_num_vectors target)%nat →
  (d * Tpetra.mv_lda target + j < length (Tpetra.mv_data target))%nat →
  Tpetra.mv_data (Tpetra.doExport exporter source me target)
  !! (d * Tpetra.mv_lda target + j)%nat = Some x.
Proof.
  intros Hx Hlda Hd Hlen. unfold Tpetra.doExport. cbn [Tpetra.mv_data].
  assert (j < length (default [] (Tpetra.exp_target_map exporter !! me)))%nat
    as Hj.
  { unfold Tpetra.exported_value in Hx.
    destruct (default [] _ !! j) as [gid|] eqn:Hgid; [|discriminate].
    by eapply lookup_lt_Some. }
  apply (export_outer_hit
           (λ j d, Tpetra.exported_value exporter source me j d)).
  - apply NoDup_seq.
  - apply NoDup_seq.
  - intros j' Hj'. apply elem_of_seq in Hj'. lia.
  - apply elem_of_seq. lia.
  - apply elem_of_seq. lia.
  - done.
  - done.
Qed.

Lemma for_collect_lookup_l {A} (body : nat → Result A) len xs r :
  for_collect body (seq 0 len) = Ok xs → (r < len)%nat →
  ∃ x, xs !! r = Some x ∧ body r = Ok x.
Proof.
  intros Hrun Hr. pose proof (for_collect_length _ _ _ Hrun) as Hlen.
  rewrite length_seq in Hlen.
  destruct (lookup_lt_is_Some_2 xs r) as [x Hx]; [lia|].
  exists x. split; [done|]. by eapply for_collect_lookup.
Qed.

Section ApplyProofs.
Import SharedDomainMap.

(** X10: when [apply] returns, the map objects are unchanged, the rank has
    an exporter (so [setup] ran before), the source evaluation on a rank
    with a source has the map's dimension, and a target field has the
    map's dimension and as many entries per dimension as the target map
    has ordinals; the field that comes back has the same dimension and
    size. *)
Theorem apply_checks (maps : list SharedDomainMap.t)
    (source_evaluator : list (option FieldEvaluator))
    (target_space_manager : list (option FieldContainer))
    (maps' : list SharedDomainMap.t)
    (targets' : list (option FieldContainer)) (r : nat)
    (m : SharedDomainMap.t) :
  apply maps source_evaluator target_space_manager = Ok (maps', targets') →
  maps !! r = Some m →
  maps' = maps
  ∧ is_Some (d_source_to_target_exporter m)
  ∧ (∀ evaluate,
       source_evaluator !! r = Some (Some evaluate) →
       field_dim (evaluate (d_source_elements m) (d_target_coords m))
       = d_dimension m)
  ∧ (∀ field,
       target_space_manager !! r = Some (Some field) →
       field_dim field = d_dimension m
       ∧ ∃ target_map,
           d_target_map m = Some target_map
           ∧ (Z.of_nat (length (field_data field)) ÷ d_dimension m)%Z
             = Z.of_nat (length target_map)
           ∧ ∃ field',
               targets' !! r = Some (Some field')
               ∧ field_dim field' = field_dim field
               ∧ length (field_data field') = length (field_data field)).
Proof.
  intros Hrun Hm. unfold apply in Hrun.
  apply bind_Ok_inv in Hrun as (source_vector & Hsource & Hrun).
  apply bind_Ok_inv in Hrun as (targets1 & Htargets & Hrun).
  apply Ok_inj in Hrun. injection Hrun as <- <-.
  pose proof (lookup_lt_Some _ _ _ Hm) as Hr.
  destruct (for_collect_lookup_l _ _ _ r Hsource Hr) as (sv & _ & Hsv).
  destruct (for_collect_lookup_l _ _ _ r Htargets Hr) as (t' & Ht' & Ht).
  cbv beta in Hsv, Ht.
  rewrite (array_get_Ok _ _ _ Hm), bind_Ok in Hsv.
  rewrite (array_get_Ok _ _ _ Hm), bind_Ok in Ht.
  apply bind_Ok_inv in Hsv as (ev & Hev & Hsv).
  apply bind_Ok_inv in Ht as (target & Htarget & Ht).
  apply array_get_Ok_inv in Hev, Htarget.
  split; [done|]. split; [|split].
  - unfold apply_target in Ht.
    apply bind_Ok_inv in Ht as (u & _ & Ht).
    destruct (d_source_to_target_exporter m); [eauto|discriminate].
  - intros evaluate Hevaluate.
    pose proof (eq_trans (eq_sym Hev) Hevaluate) as Heq.
    injection Heq as ->. unfold apply_source in Hsv.
    apply bind_Ok_inv in Hsv as (copy & Hcopy & _).
    apply bind_Ok_inv in Hcopy as (u & Hpre & _).
    apply testPrecondition_Ok in Hpre. lia.
  - intros field Hfield. rewrite Htarget in Hfield. injection Hfield as ->.
    destruct t' as [field'|].
    2:{ unfold apply_target in Ht.
        apply bind_Ok_inv in Ht as (u & _ & Ht).
        apply bind_Ok_inv in Ht as (e & _ & Ht). discriminate. }
    apply apply_target_Some in Ht
      as (exporter & target_map & Hexp & Hmap & Hsize & Hdim & ->).
    split; [done|]. exists target_map. split; [done|]. split; [done|].
    eexists. split; [exact Ht'|]. split; [done|].
    cbn [field_data]. rewrite length_doExport. cbn [Tpetra.mv_data].
    by rewrite length_replicate.
Qed.

(** X11: [apply] delivers the source values: when the exporter's source
    map holds the ordinal of target point [j] at local index [i] of rank
    [s], component [d] of the target field at point [j] is component [d]
    of the evaluation of rank [s] at its point [i], both read in the
    blocked layout. *)
Theorem apply_delivers_source_values (maps : list SharedDomainMap.t)
    (source_evaluator : list (option FieldEvaluator))
    (target_space_manager : list (option FieldContainer))
    (maps' : list SharedDomainMap.t)
    (targets' : list (option FieldContainer)) (r s : nat)
    (m ms : SharedDomainMap.t) (exporter : Tpetra.Export)
    (target_map : Tpetra.Map) (field' : FieldContainer) (j i d : nat)
    (gid : Z) (evaluate : FieldEvaluator) (x : Q) :
  let values :=
    field_data (evaluate (d_source_elements ms) (d_target_coords ms)) in
  let source_size :=
    Z.to_nat (Z.of_nat (length values) ÷ d_dimension ms) in
  apply maps source_evaluator target_space_manager = Ok (maps', targets') →
  maps !! r = Some m →
  d_source_to_target_exporter m = Some exporter →
  d_target_map m = Some target_map →
  Tpetra.exp_target_map exporter !! r = Some target_map →
  targets' !! r = Some (Some field') →
  target_map !! j = Some gid →
  Tpetra.locate (Tpetra.exp_source_map exporter) gid = Some (s, i) →
  maps !! s = Some ms →
  source_evaluator !! s = Some (Some evaluate) →
  (Z.of_nat d < d_dimension m)%Z →
  values !! (d * source_size + i)%nat = Some x →
  field_data field' !! (d * length target_map + j)%nat = Some x.
Proof.
  intros values source_size Hrun Hm Hexp Hmap Hexpmap Hfield' Hj Hloc Hms
    Hev Hd Hx.
  unfold apply in Hrun.
  apply bind_Ok_inv in Hrun as (source_vector & Hsource & Hrun).
  apply bind_Ok_inv in Hrun as (targets1 & Htargets & Hrun).
  apply Ok_inj in Hrun. injection Hrun as <- <-.
  (* The source vector of rank [s]. *)
  pose proof (lookup_lt_Some _ _ _ Hms) as Hs.
  destruct (for_collect_lookup_l _ _ _ s Hsource Hs) as (sv & Hsv & Hbody).
  rewrite (array_get_Ok _ _ _ Hms), bind_Ok in Hbody.
  rewrite (array_get_Ok _ _ _ Hev), bind_Ok in Hbody.
  unfold apply_source in Hbody.
  apply bind_Ok_inv in Hbody as (copy & Hcopy & Hbody).
  apply bind_Ok_inv in Hcopy as (u & _ & Hcopy).
  apply Ok_inj in Hcopy as <-. apply Ok_inj in Hbody as <-.
  fold values source_size in Hsv.
  (* The target field of rank [r]. *)
  destruct (for_collect_lookup _ _ _ _ _ Htargets Hfield') as [Hr Hbody].
  rewrite (array_get_Ok _ _ _ Hm), bind_Ok in Hbody.
  apply bind_Ok_inv in Hbody as (target & Htarget & Hbody).
  destruct target as [field|].
  2:{ unfold apply_target in Hbody. simpl in Hbody.
      destruct (d_source_to_target_exporter m); discriminate. }
  apply apply_target_Some in Hbody
    as (exporter' & target_map' & Hexp' & Hmap' & Hsize & Hdim & ->).
  rewrite Hexp in Hexp'. injection Hexp' as <-.
  rewrite Hmap in Hmap'. injection Hmap' as <-.
  cbn [field_data]. rewrite Hsize, Nat2Z.id.
  pose proof (lookup_lt_Some _ _ _ Hj) as Hjlt.
  assert (0 < d_dimension m)%Z as Hpos by lia.
  pose proof (quot_points_bound (length (field_data field)) (d_dimension m)
                Hpos) as Hbound.
  rewrite Hsize, Nat2Z.id in Hbound.
  apply (doExport_written exporter source_vector r
           (Tpetra.mkMultiVector (replicate (length (field_data field)) 0%Q)
              (length target_map) (Z.to_nat (d_dimension m))) j d x).
  - unfold Tpetra.exported_value. rewrite Hexpmap. simpl.
    rewrite Hj. simpl. rewrite Hloc. simpl. rewrite Hsv. simpl. exact Hx.
  - rewrite Hexpmap. simpl. lia.
  - simpl. lia.
  - simpl. rewrite length_replicate. nia.
Qed.
End ApplyProofs.

(** ** The shared-domain map: [setup] *)

Section SetupProofs.
Import SharedDomainMap.

(** What a run of the first part of [setup] went through on one rank. *)
Lemma setup_targets_inv T input r m m' ords rdv view in_box :
  setup_targets T input r m = Ok (m', ords, rdv, view, in_box) →
  ∃ source target mig root root_mesh m1 rdv_mesh tib procs,
    source_mesh_manager input !! r = Some source
    ∧ target_coord_manager input !! r = Some target
    ∧ migration input !! r = Some mig
    ∧ (∀ mesh, source = Some mesh → dim mesh = d_dimension m)
    ∧ (∀ field, target = Some field → field_dim field = d_dimension m)
    ∧ computePointOrdinals T (target_coord_manager input) r m = (m1, ords)
    ∧ l2g_0 (source_mesh_manager input) = Ok root
    ∧ source_mesh_manager input !! root = Some (Some root_mesh)
    ∧ is_Some (mjoin (target_coord_manager input
                      !! default 0%nat
                           (fst <$> list_find (λ m, is_Some m)
                                      (target_coord_manager input))))
    ∧ (intersectBoxes (globalBoundingBox root_mesh) (target_box input)).1
      = true
    ∧ Rendezvous.build mig
        (Rendezvous.new (d_dimension m1)
           (intersectBoxes (globalBoundingBox root_mesh)
              (target_box input)).2) source
      = Ok (rdv, rdv_mesh)
    ∧ view = match target with
             | Some field => field_data field
             | None => []
             end
    ∧ Rendezvous.procsContainingPoints rdv view = Ok procs
    ∧ match target with
      | Some field =>
          getTargetPointsInBox T (set_target_map m1 ords)
            (Rendezvous.getBox rdv) field ords [] = Ok (m', tib)
      | None => m' = set_target_map m1 ords ∧ tib = []
      end
    ∧ remove_not_in_box T tib procs = Ok in_box.
Proof.
  unfold setup_targets. intros Hrun.
  apply bind_Ok_inv in Hrun as (source & Hsource & Hrun).
  apply bind_Ok_inv in Hrun as (target & Htarget & Hrun).
  apply bind_Ok_inv in Hrun as (mig & Hmig & Hrun).
  apply bind_Ok_inv in Hrun as (u1 & Hpre1 & Hrun).
  apply bind_Ok_inv in Hrun as (u2 & Hpre2 & Hrun).
  destruct (computePointOrdinals T (target_coord_manager input) r m)
    as [m1 ords1] eqn:Hords.
  apply bind_Ok_inv in Hrun as (root & Hroot & Hrun).
  apply bind_Ok_inv in Hrun as (root_mesh & Hroot_mesh & Hrun).
  apply bind_Ok_inv in Hrun as (source_box & Hsource_box & Hrun).
  apply bind_Ok_inv in Hrun as (troot & Htroot & Hrun).
  destruct (intersectBoxes source_box (target_box input))
    as [has shared] eqn:Hint.
  apply bind_Ok_inv in Hrun as (u3 & Hassert & Hrun).
  apply bind_Ok_inv in Hrun as ([rdv1 mesh1] & Hbuild & Hrun).
  apply bind_Ok_inv in Hrun as (procs & Hprocs & Hrun).
  apply bind_Ok_inv in Hrun as ([m2 tib] & Hbox & Hrun).
  apply bind_Ok_inv in Hrun as (inb & Hinb & Hrun).
  apply Ok_inj in Hrun. injection Hrun as <- <- <- <- <-.
  apply array_get_Ok_inv in Hsource, Htarget, Hmig, Hroot_mesh.
  destruct root_mesh as [root_mesh|]; [|discriminate].
  apply Ok_inj in Hsource_box as <-.
  exists source, target, mig, root, root_mesh, m1, mesh1, tib, procs.
  rewrite Hint. simpl.
  split; [done|]. split; [done|]. split; [done|]. split.
  { intros mesh ->. apply testPrecondition_Ok in Hpre1. lia. }
  split.
  { intros field ->. apply testPrecondition_Ok in Hpre2. lia. }
  split; [done|]. split; [done|]. split; [done|]. split.
  { unfold l2g_0 in Htroot.
    destruct (list_find _ (target_coord_manager input)) as [[i x]|] eqn:Hfind;
      [|discriminate].
    simpl. apply list_find_Some in Hfind as (Hi & Hx & _).
    rewrite Hi. simpl. done. }
  split.
  { unfold testAssertion in Hassert. by destruct has. }
  split; [done|]. split; [done|]. split; [done|]. split; [|done].
  destruct target as [field|]; [done|].
  apply Ok_inj in Hbox. by injection Hbox as <- <-.
Qed.

(** [getTargetPointsInBox] assigns the list of missed points only, and only
    appends to it: the local indices of points of the field, and nothing
    when missed points are not stored. *)
Lemma getTargetPointsInBox_missed T m box field ords tib m' tib' :
  getTargetPointsInBox T m box field ords tib = Ok (m', tib') →
  ∃ extra,
    m' = set_missed_points m (d_missed_points m ++ extra)
    ∧ (d_store_missed_points m = false → extra = [])
    ∧ Forall (λ i, (0 ≤ i < Z.of_nat (length ords))%Z) extra.
Proof.
  unfold getTargetPointsInBox. intros Hrun.
  apply bind_Ok_inv in Hrun as (u & Hpre & Hrun).
  apply testPrecondition_Ok in Hpre. apply Z.eqb_eq in Hpre.
  eapply (for_each_seq_run _
    (λ k (s : SharedDomainMap.t * list Z),
       ∃ extra,
         s.1 = set_missed_points m (d_missed_points m ++ extra)
         ∧ (d_store_missed_points m = false → extra = [])
         ∧ Forall (λ i, (0 ≤ i < Z.of_nat (length ords))%Z) extra))
    in Hrun.
  - exact Hrun.
  - exists []. rewrite app_nil_r. simpl. by destruct m.
  - intros n [mk tk] [mk' tk'] Hn (extra & Hmk & Hflag & Hextra) Hbody.
    simpl in Hmk.
    apply bind_Ok_inv in Hbody as (p & _ & Hbody).
    apply bind_Ok_inv in Hbody as (o & _ & Hbody).
    apply bind_Ok_inv in Hbody as (t & _ & Hbody).
    apply Ok_inj in Hbody. injection Hbody as <- <-. simpl.
    destruct (d_store_missed_points mk && is_minus_one T o) eqn:Hcase.
    + exists (extra ++ [Z.of_nat n]). subst mk.
      cbn [set_missed_points d_dimension d_store_missed_points d_source_map
           d_target_map d_source_to_target_exporter d_source_elements
           d_target_coords d_missed_points d_target_g2l] in *.
      rewrite app_assoc. split; [done|]. split.
      * intros Hf. rewrite Hf in Hcase. discriminate.
      * apply Forall_app. split; [done|]. constructor; [lia|constructor].
    + exists extra. done.
Qed.

Lemma receive_missed_points_missed m plan ordinals r m' :
  receive_missed_points m plan ordinals r = Ok m' →
  ∃ extra,
    m' = set_missed_points m (d_missed_points m ++ extra)
    ∧ Forall (λ i, ∃ k, d_target_g2l m !! k = Some i) extra.
Proof.
  unfold receive_missed_points. intros Hrun.
  apply bind_Ok_inv in Hrun as (missed & Hloop & Hrun).
  apply Ok_inj in Hrun as <-.
  rewrite resize_add_eq in Hloop by done.
  rewrite take_app_length, drop_app_length in Hloop.
  match type of Hloop with
  | for_each _ _ ?s0 = _ => set (missed0 := s0) in *
  end.
  assert (length missed0
          = (length (d_missed_points m) + Tpetra.createFromSends plan r)%nat
          ∧ take (length (d_missed_points m)) missed0 = d_missed_points m)
    as [Hlen0 Htake0].
  { unfold missed0.
    rewrite length_app, length_doPostsAndWaits, length_replicate.
    split; [done|]. by rewrite take_app_length. }
  set (offset := length (d_missed_points m)) in *.
  set (num := Tpetra.createFromSends plan r) in *.
  eapply (for_each_seq_run _
    (λ n missed,
       length missed = (offset + num)%nat
       ∧ take offset missed = d_missed_points m
       ∧ Forall (λ i, ∃ k, d_target_g2l m !! k = Some i)
           (take (n - offset) (drop offset missed)))) in Hloop.
  - destruct Hloop as (Hlen & Htake & Hall).
    exists (drop offset missed). split.
    + by rewrite <- Htake, take_drop.
    + replace (offset + num - offset)%nat with num in Hall by lia.
      rewrite take_ge in Hall by (rewrite length_drop; lia). done.
  - split; [done|]. split; [done|]. rewrite Nat.sub_diag. constructor.
  - intros n s s1 Hn (Hlen & Htake & Hall) Hbody.
    apply bind_Ok_inv in Hbody as (o & Ho & Hbody).
    apply bind_Ok_inv in Hbody as (local & Hlocal & Hbody).
    unfold array_set in Hbody.
    destruct (decide (n < length s)%nat); [|discriminate].
    apply Ok_inj in Hbody as <-.
    unfold map_find in Hlocal.
    destruct (d_target_g2l m !! o) as [v|] eqn:Hv; [|discriminate].
    apply Ok_inj in Hlocal as ->.
    split; [by rewrite length_insert|]. split.
    + rewrite take_insert_ge by lia. done.
    + replace (S n - offset)%nat with (S (n - offset)) by lia.
      rewrite drop_insert_ge by lia.
      rewrite take_S_r with (x := local).
      * apply Forall_app. split.
        -- rewrite take_insert_ge by lia. done.
        -- constructor; [eauto|constructor].
      * apply list_lookup_insert_eq. rewrite length_drop. lia.
Qed.

Lemma computePointOrdinals_g2l_values_loop T (rank G : Z) (k : nat) m
    (ords : list Z) :
  let res :=
    foldl
      (λ '(m, target_ordinals) n,
         let ordinal := ordinal_wrap T (rank * G + Z.of_nat n) in
         let target_ordinals := <[n := ordinal]> target_ordinals in
         (if d_store_missed_points m
          then set_target_g2l m (<[ordinal := Z.of_nat n]> (d_target_g2l m))
          else m,
          target_ordinals))
      (m, ords) (seq 0 k) in
  set_target_g2l res.1 (d_target_g2l m) = m
  ∧ (d_store_missed_points m = false → res.1 = m)
  ∧ ∀ key v, d_target_g2l res.1 !! key = Some v →
             d_target_g2l m !! key = Some v ∨ (0 ≤ v < Z.of_nat k)%Z.
Proof.
  induction k as [|k IH].
  - simpl. split; [by destruct m|]. auto.
  - cbv zeta in IH |- *. rewrite seq_S, foldl_app. simpl.
    destruct (foldl _ (m, ords) (seq 0 k)) as [mk ordsk]. simpl in *.
    destruct IH as (Hsame & Hnostore & Hvals).
    destruct (d_store_missed_points mk) eqn:Hmk.
    + cbn [set_target_g2l d_target_g2l d_dimension d_store_missed_points
           d_source_map d_target_map d_source_to_target_exporter
           d_source_elements d_target_coords d_missed_points].
      split; [exact Hsame|]. split.
      { intros Hm. rewrite (Hnostore Hm) in Hmk. congruence. }
      intros key v Hv.
      destruct (decide (key = ordinal_wrap T (rank * G + Z.of_nat k)))
        as [->|Hne].
      * rewrite lookup_insert_eq in Hv. injection Hv as <-. right. lia.
      * rewrite lookup_insert_ne in Hv by done.
        destruct (Hvals _ _ Hv) as [?|?]; [by left|right; lia].
    + split; [done|]. split; [done|]. intros key v Hv.
      destruct (Hvals _ _ Hv) as [?|?]; [by left|right; lia].
Qed.

Lemma computePointOrdinals_g2l_values T comm r m :
  let res := computePointOrdinals T comm r m in
  set_target_g2l res.1 (d_target_g2l m) = m
  ∧ (d_store_missed_points m = false → res.1 = m)
  ∧ ∀ k v, d_target_g2l res.1 !! k = Some v →
           d_target_g2l m !! k = Some v
           ∨ (0 ≤ v < Z.of_nat (length res.2))%Z.
Proof.
  intros res.
  assert (length res.2 = Z.to_nat (local_size (mjoin (comm !! r)))) as ->.
  { unfold res. rewrite computePointOrdinals_ordinals.
    by rewrite length_fmap, length_seq. }
  apply computePointOrdinals_g2l_values_loop.
Qed.

(** What a run of [setup] went through on every rank. *)
Lemma setup_inv T input maps maps' :
  setup T input maps = Ok maps' →
  ∃ targets coord_dim source_points,
    length maps' = length maps
    ∧ broadcast_coord_dim input = Ok coord_dim
    ∧ ∀ r m, maps !! r = Some m →
        ∃ x m2 m' source_map source_elements target_coords,
          setup_targets T input r m = Ok x
          ∧ targets !! r = Some x
          ∧ (if d_store_missed_points x.1.1.1.1
             then ∃ plan ordinals,
                 receive_missed_points x.1.1.1.1 plan ordinals r = Ok m2
             else m2 = x.1.1.1.1)
          ∧ source_points !! r = Some source_map
          ∧ maps' !! r = Some m'
          ∧ m' = set_plan m2 source_elements source_map target_coords
                   (Tpetra.mkExport source_points
                      ((λ x, x.1.1.1.2) <$> targets)).
Proof.
  intros Hrun. unfold setup in Hrun.
  apply bind_Ok_inv in Hrun as (targets & Htargets & Hrun).
  apply bind_Ok_inv in Hrun as (coord_dim & Hcoord & Hrun).
  apply bind_Ok_inv in Hrun as (found & Hfound & Hrun).
  apply bind_Ok_inv in Hrun as (missed & Hmissed & Hrun).
  apply bind_Ok_inv in Hrun as (missed_procs & Hmprocs & Hrun).
  apply bind_Ok_inv in Hrun as (maps2 & Hmaps2 & Hrun).
  apply bind_Ok_inv in Hrun as (shipped & Hshipped & Hrun).
  match type of Hrun with
  | for_collect
      (λ r, _ ← _; _ ← array_get ?sp r; _) _ = _ =>
      exists targets, coord_dim, sp
  end.
  pose proof (for_collect_length _ _ _ Hrun) as Hlen.
  rewrite length_seq in Hlen.
  split; [done|]. split; [done|].
  intros r m Hm. pose proof (lookup_lt_Some _ _ _ Hm) as Hr.
  destruct (for_collect_lookup_l _ _ _ r Htargets Hr) as (x & Hx & Hbody1).
  cbv beta in Hbody1.
  rewrite (array_get_Ok _ _ _ Hm), bind_Ok in Hbody1.
  destruct (for_collect_lookup_l _ _ _ r Hmaps2 Hr) as (m2 & Hm2 & Hbody2).
  cbv beta in Hbody2.
  apply bind_Ok_inv in Hbody2 as (m1 & Hm1 & Hbody2).
  apply array_get_Ok_inv in Hm1. rewrite list_lookup_fmap, Hx in Hm1.
  injection Hm1 as <-.
  destruct (for_collect_lookup_l _ _ _ r Hrun Hr) as (m' & Hm' & Hbody3).
  cbv beta in Hbody3.
  rewrite (array_get_Ok _ _ _ Hm2), bind_Ok in Hbody3.
  apply bind_Ok_inv in Hbody3 as (source_map & Hsm & Hbody3).
  apply array_get_Ok_inv in Hsm. apply Ok_inj in Hbody3.
  eexists x, m2, m', source_map, _, _.
  split; [done|]. split; [done|]. split.
  { destruct (d_store_missed_points x.1.1.1.1); [eauto|].
    by apply Ok_inj in Hbody2. }
  split; [exact Hsm|]. split; [done|]. symmetry. exact Hbody3.
Qed.

(** X12: when [setup] returns, every rank got a map object back, the
    source mesh and the target coordinate field have the map's dimension
    wherever they exist, the source mesh and the target field each exist
    on at least one rank, and the global box of the mesh and the box of
    the target points intersect. *)
Theorem setup_checks (T : OrdinalType) (input : SetupInput)
    (maps maps' : list SharedDomainMap.t) (r : nat) (m : SharedDomainMap.t) :
  setup T input maps = Ok maps' →
  maps !! r = Some m →
  length maps' = length maps
  ∧ (∀ mesh, source_mesh_manager input !! r = Some (Some mesh) →
             dim mesh = d_dimension m)
  ∧ (∀ field, target_coord_manager input !! r = Some (Some field) →
              field_dim field = d_dimension m)
  ∧ (∃ root mesh,
       l2g_0 (source_mesh_manager input) = Ok root
       ∧ source_mesh_manager input !! root = Some (Some mesh)
       ∧ (intersectBoxes (globalBoundingBox mesh) (target_box input)).1
         = true)
  ∧ (∃ root field,
       l2g_0 (target_coord_manager input) = Ok root
       ∧ target_coord_manager input !! root = Some (Some field)).
Proof.
  intros Hrun Hm.
  apply setup_inv in Hrun as (targets & coord_dim & sp & Hlen & Hcoord & Hall).
  destruct (Hall r m Hm)
    as ([[[[m1 ords] rdv] view] in_box] & m2 & m' & sm & se & tc & Hst & _).
  apply setup_targets_inv in Hst
    as (source & target & mig & root & root_mesh & m0 & rdv_mesh & tib
        & procs & Hsource & Htarget & _ & Hsdim & Htdim & _ & Hroot
        & Hroot_mesh & _ & Hint & _).
  split; [done|]. split; [|split; [|split]].
  - intros mesh Hmesh. rewrite Hsource in Hmesh. injection Hmesh as ->. auto.
  - intros field Hfield. rewrite Htarget in Hfield. injection Hfield as ->.
    auto.
  - eauto.
  - unfold broadcast_coord_dim in Hcoord.
    apply bind_Ok_inv in Hcoord as (troot & Htroot & Hcoord).
    apply bind_Ok_inv in Hcoord as (tfield & Htfield & Hcoord).
    apply array_get_Ok_inv in Htfield.
    destruct tfield as [field|]; [|discriminate]. eauto.
Qed.

(** X13: [setup] keeps the flag of the missed points and only appends to
    the list of missed points. Without the flag nothing is appended, the
    global-to-local map is not touched and [getMissedTargetPoints] throws
    a precondition error; with the flag [getMissedTargetPoints] returns
    the list. When the global-to-local map held only valid local indices
    before, every appended entry is a valid local index of a target point
    of the rank. *)
Theorem setup_missed_points (T : OrdinalType) (input : SetupInput)
    (maps maps' : list SharedDomainMap.t) (r : nat)
    (m m' : SharedDomainMap.t) :
  let local_size :=
    local_size (mjoin (target_coord_manager input !! r)) in
  setup T input maps = Ok maps' →
  maps !! r = Some m →
  maps' !! r = Some m' →
  d_store_missed_points m' = d_store_missed_points m
  ∧ ∃ missed,
      d_missed_points m' = d_missed_points m ++ missed
      ∧ (d_store_missed_points m = false →
           missed = []
           ∧ d_target_g2l m' = d_target_g2l m
           ∧ getMissedTargetPoints m' = Throw PreconditionError)
      ∧ (d_store_missed_points m = true →
           getMissedTargetPoints m' = Ok (d_missed_points m ++ missed))
      ∧ ((∀ key index, d_target_g2l m !! key = Some index →
                       (0 ≤ index < local_size)%Z) →
           Forall (λ index, (0 ≤ index < local_size)%Z) missed).
Proof.
  intros L Hrun Hm Hm'.
  apply setup_inv in Hrun as (targets & coord_dim & sp & Hlen & Hcoord & Hall).
  destruct (Hall r m Hm)
    as ([[[[m1 ords] rdv] view] in_box] & m2 & m'' & sm & se & tc & Hst & _
        & Hm2 & _ & Hm'' & ->).
  rewrite Hm' in Hm''. injection Hm'' as ->. cbn [fst] in Hm2.
  apply setup_targets_inv in Hst
    as (source & target & mig & root & root_mesh & m0 & rdv_mesh & tib
        & procs & _ & Htarget & _ & _ & _ & Hords & _ & _ & _ & _ & _ & _
        & _ & Hbox & _).
  (* The ordinals. *)
  pose proof (computePointOrdinals_g2l_values T (target_coord_manager input)
                r m) as (Hsame & Hnostore & Hvals).
  pose proof (computePointOrdinals_ordinals T (target_coord_manager input)
                r m) as Hlen_ords.
  rewrite Hords in Hsame, Hnostore, Hvals, Hlen_ords. cbn [fst snd] in *.
  assert (Z.of_nat (length ords) = Z.max 0 L) as HL.
  { rewrite Hlen_ords, length_fmap, length_seq. fold L. lia. }
  assert (d_store_missed_points m0 = d_store_missed_points m
          ∧ d_missed_points m0 = d_missed_points m) as [Hflag0 Hmissed0].
  { rewrite <- Hsame. by destruct m0. }
  (* The points outside the box. *)
  assert (∃ extra1,
            m1 = set_missed_points (set_target_map m0 ords)
                   (d_missed_points m ++ extra1)
            ∧ (d_store_missed_points m = false → extra1 = [])
            ∧ Forall (λ i, (0 ≤ i < Z.of_nat (length ords))%Z) extra1)
    as (extra1 & -> & Hnone1 & Hvalid1).
  { destruct target as [field|].
    - apply getTargetPointsInBox_missed in Hbox
        as (extra & -> & Hnone & Hvalid).
      exists extra. cbn [set_target_map d_missed_points d_store_missed_points]
        in *. rewrite Hmissed0. rewrite Hflag0 in Hnone. done.
    - destruct Hbox as [-> _]. exists []. rewrite app_nil_r.
      split; [|done]. rewrite <- Hmissed0. by destruct m0. }
  cbn [set_missed_points set_target_map d_store_missed_points] in Hm2.
  rewrite Hflag0 in Hm2.
  (* The points outside the mesh. *)
  assert (∃ extra2,
            m2 = set_missed_points (set_target_map m0 ords)
                   (d_missed_points m ++ extra1 ++ extra2)
            ∧ (d_store_missed_points m = false → extra2 = [])
            ∧ Forall (λ i, ∃ k, d_target_g2l m0 !! k = Some i) extra2)
    as (extra2 & -> & Hnone2 & Hvalid2).
  { destruct (d_store_missed_points m) eqn:Hflag.
    - destruct Hm2 as (plan & ordinals & Hm2).
      apply receive_missed_points_missed in Hm2 as (extra & -> & Hvalid).
      exists extra. split; [|done].
      cbn [set_missed_points d_missed_points]. by rewrite app_assoc.
    - subst m2. exists []. rewrite app_nil_r. done. }
  unfold set_plan, set_missed_points, set_target_map;
    cbn [d_store_missed_points d_missed_points d_target_g2l].
  split; [done|]. exists (extra1 ++ extra2). split; [done|].
  split; [|split].
  - intros Hflag. rewrite Hnone1, Hnone2 by done. split; [done|].
    split.
    + by rewrite (Hnostore Hflag).
    + unfold getMissedTargetPoints. cbn [d_store_missed_points].
      by rewrite Hflag0, Hflag.
  - intros Hflag. unfold getMissedTargetPoints.
    cbn [d_store_missed_points d_missed_points].
    by rewrite Hflag0, Hflag.
  - intros Hg2l. apply Forall_app. split.
    + eapply Forall_impl; [exact Hvalid1|]. intros i Hi. cbv beta in Hi. lia.
    + eapply Forall_impl; [exact Hvalid2|]. intros i [k Hk]. cbv beta.
      destruct (Hvals _ _ Hk) as [Hold|Hnew]; [eauto|lia].
Qed.

(** X14: after [setup] all ranks share one export plan: its source and
    target maps are, rank by rank, the source and target maps stored in the
    map objects, both exist on every rank, and the target map of a rank is
    the list of ordinals [computePointOrdinals] gives to the rank's target
    points, whether or not they are in the box or were found. *)
Theorem setup_export_plan (T : OrdinalType) (input : SetupInput)
    (maps maps' : list SharedDomainMap.t) :
  setup T input maps = Ok maps' →
  ∃ exporter,
    ∀ r m m', maps !! r = Some m → maps' !! r = Some m' →
      d_source_to_target_exporter m' = Some exporter
      ∧ is_Some (d_source_map m')
      ∧ d_source_map m' = Tpetra.exp_source_map exporter !! r
      ∧ d_target_map m' = Tpetra.exp_target_map exporter !! r
      ∧ is_Some (d_target_map m')
      ∧ d_target_map m'
        = Some (computePointOrdinals T (target_coord_manager input) r m).2.
Proof.
  intros Hrun.
  apply setup_inv in Hrun as (targets & coord_dim & sp & Hlen & Hcoord & Hall).
  exists (Tpetra.mkExport sp ((λ x, x.1.1.1.2) <$> targets)).
  intros r m m' Hm Hm'.
  destruct (Hall r m Hm)
    as ([[[[m1 ords] rdv] view] in_box] & m2 & m'' & sm & se & tc & Hst & Hx
        & Hm2 & Hsm & Hm'' & ->).
  rewrite Hm' in Hm''. injection Hm'' as ->. cbn [fst] in Hm2.
  apply setup_targets_inv in Hst
    as (source & target & mig & root & root_mesh & m0 & rdv_mesh & tib
        & procs & _ & Htarget & _ & _ & _ & Hords & _ & _ & _ & _ & _ & _
        & _ & Hbox & _).
  assert (d_target_map m1 = Some ords) as Hmap1.
  { destruct target as [field|].
    - by apply getTargetPointsInBox_missed in Hbox as (extra & -> & _).
    - by destruct Hbox as [-> _]. }
  assert (d_target_map m2 = Some ords) as Hmap2.
  { destruct (d_store_missed_points m1).
    - destruct Hm2 as (plan & ordinals & Hm2).
      by apply receive_missed_points_missed in Hm2 as (extra & -> & _).
    - by subst m2. }
  unfold set_plan;
    cbn [d_source_to_target_exporter d_source_map d_target_map
         Tpetra.exp_source_map Tpetra.exp_target_map].
  rewrite list_lookup_fmap, Hx, Hsm, Hmap2. cbn.
  split; [done|]. split; [eauto|]. split; [done|]. split; [done|].
  split; [eauto|]. by rewrite Hords.
Qed.
End SetupProofs.

(** ** Examples *)

Lemma islands_block_well_formed : block_well_formed 1 islands_block.
Proof.
  unfold block_well_formed. split; [simpl; lia|]. split; [simpl; lia|].
  split; by_computation.
Qed.

Section RendezvousExamples.
Import Rendezvous.

Lemma getMeshInBox_marks_elements_with_vertex_in_box_witness :
  ∃ r1 mesh1,
    getMeshInBox (Rendezvous.new 1 chain_box) islands_mesh = Ok (r1, mesh1)
    ∧ blocks mesh1 = blocks islands_mesh
    ∧ ∀ b block, blocks islands_mesh !! b = Some block →
        ∃ vertices_in_box elements_in_box,
          getActiveVertices mesh1 !! b = Some vertices_in_box
          ∧ getActiveElements mesh1 !! b = Some elements_in_box
          ∧ length vertices_in_box = numVertices block
          ∧ length elements_in_box = numElements block
          ∧ ∀ n i gid p point,
              (n < numElements block)%nat →
              (i < verticesPerElement block)%nat →
              connectivityView block !! (i * numElements block + n)%nat
              = Some gid →
              verticesView block !! p = Some gid →
              blocked_point (d_dimension (Rendezvous.new 1 chain_box))
                (coordsView block) (numVertices block) p = Ok point →
              pointInBox (getBox r1) point = true →
              elements_in_box !! n = Some true
              ∧ vertices_in_box !! p = Some true.
Proof.
  apply (getMeshInBox_marks_elements_with_vertex_in_box
           (Rendezvous.new 1 chain_box) islands_mesh).
  repeat constructor; by_computation.
Defined.

Lemma getMeshInBox_active_vertices_witness :
  ([true; true; false; false] !! 1%nat = Some true
   ↔ pointInBox (getBox islands_filtered.1) [5%Q] = true
     ∨ ∃ n i,
         (n < numElements islands_block)%nat
         ∧ (i < verticesPerElement islands_block)%nat
         ∧ [true; false] !! n = Some true
         ∧ connectivityView islands_block
           !! (i * numElements islands_block + n)%nat = Some 11%Z)
  ∧ ([true; true; false; false] !! 2%nat = Some true
     ↔ pointInBox (getBox islands_filtered.1) [9%Q] = true
       ∨ ∃ n i,
           (n < numElements islands_block)%nat
           ∧ (i < verticesPerElement islands_block)%nat
           ∧ [true; false] !! n = Some true
           ∧ connectivityView islands_block
             !! (i * numElements islands_block + n)%nat = Some 12%Z).
Proof.
  split.
  - apply (getMeshInBox_active_vertices (Rendezvous.new 1 chain_box)
             islands_filtered.1 islands_mesh islands_filtered.2 0
             islands_block [true; true; false; false] [true; false] 1 11
             [5%Q]); try reflexivity.
    repeat constructor; by_computation.
  - apply (getMeshInBox_active_vertices (Rendezvous.new 1 chain_box)
             islands_filtered.1 islands_mesh islands_filtered.2 0
             islands_block [true; true; false; false] [true; false] 2 12
             [9%Q]); try reflexivity.
    repeat constructor; by_computation.
Defined.
End RendezvousExamples.

Section TargetPointExamples.
Import SharedDomainMap.

Lemma getTargetPointsInBox_spec_witness :
  getTargetPointsInBox UInt32 (SharedDomainMap.new 1 true) line_shared_box
    (mkFieldContainer 1 [1 # 2; 7; 5 # 2]%Q) [3; 4; 5]%Z []
  = Ok (set_missed_points (SharedDomainMap.new 1 true) [1]%Z,
        [3; 4294967295; 5]%Z)
  ∧ getTargetPointsInBox UInt32 (SharedDomainMap.new 1 true) line_shared_box
      (mkFieldContainer 1 [1 # 2; 7; 5 # 2]%Q) [3; 4]%Z []
    = Throw PreconditionError.
Proof.
  split.
  - rewrite (getTargetPointsInBox_spec UInt32 (SharedDomainMap.new 1 true)
               line_shared_box (mkFieldContainer 1 [1 # 2; 7; 5 # 2]%Q)
               [3; 4; 5]%Z []); [reflexivity|simpl; lia].
  - rewrite (getTargetPointsInBox_spec UInt32 (SharedDomainMap.new 1 true)
               line_shared_box (mkFieldContainer 1 [1 # 2; 7; 5 # 2]%Q)
               [3; 4]%Z []); [reflexivity|simpl; lia].
Defined.

Lemma remove_not_in_box_spec_witness :
  remove_not_in_box UInt32 [3; 4294967295; 5]%Z [0; 1; 1]%Z
  = Ok ([3; 5]%Z, [0; 1]%Z).
Proof.
  rewrite (remove_not_in_box_spec UInt32 [3; 4294967295; 5]%Z [0; 1; 1]%Z);
    reflexivity.
Defined.

Lemma computePointOrdinals_global_to_local_witness :
  let m' :=
    (computePointOrdinals Int64 three_ranks 2 (SharedDomainMap.new 2 true)).1
  in
  (d_store_missed_points (SharedDomainMap.new 2 true) = true →
     (∀ n ordinal,
        [6; 7]%Z !! n = Some ordinal →
        d_target_g2l m' !! ordinal = Some (Z.of_nat n))
     ∧ (∀ key, key ∉ [6; 7]%Z →
               d_target_g2l m' !! key
               = d_target_g2l (SharedDomainMap.new 2 true) !! key)
     ∧ set_target_g2l m' (d_target_g2l (SharedDomainMap.new 2 true))
       = SharedDomainMap.new 2 true)
  ∧ (d_store_missed_points (SharedDomainMap.new 2 true) = false →
     m' = SharedDomainMap.new 2 true).
Proof.
  apply (computePointOrdinals_global_to_local Int64 three_ranks 2
           (SharedDomainMap.new 2 true)).
  - simpl. lia.
  - vm_compute. discriminate.
  - simpl. lia.
Defined.

Lemma missed_target_procs_are_senders_witness :
  missed_target_procs [[1; 0; 1]; [0; 1]]%Z 1 3 [2; 0]%Z = Ok [1; 0]%Z.
Proof.
  apply (missed_target_procs_are_senders [[1; 0; 1]; [0; 1]]%Z
           [[10; 11; 12]; [20; 21]]%Z 1 [2; 0]%Z).
  - intros [|[|s]] procs [= <-]; simpl; lia.
  - repeat constructor; vm_compute; discriminate.
Defined.

Lemma receive_missed_points_spec_witness :
  receive_missed_points echo_map [[0]; [0]]%Z [[6]; [5]]%Z 0
  = Ok (set_missed_points echo_map [7; 1; 0]%Z)
  ∧ receive_missed_points echo_map [[0]; [0]]%Z [[6]; [4]]%Z 0
    = Throw UndefinedBehaviour.
Proof.
  split.
  - apply (receive_missed_points_spec echo_map [[0]; [0]]%Z [[6]; [5]]%Z 0).
    + intros [|[|s]] procs [= <-]; simpl; lia.
    + repeat constructor; by_computation.
  - apply (receive_missed_points_spec echo_map [[0]; [0]]%Z [[6]; [4]]%Z 0).
    + intros [|[|s]] procs [= <-]; simpl; lia.
    + right. left. reflexivity.
Defined.
End TargetPointExamples.

Section SetupExamples.
Import SharedDomainMap.

Lemma apply_checks_witness :
  line_plan = line_plan
  ∧ is_Some (d_source_to_target_exporter line_plan_rank0)
  ∧ (∀ evaluate,
       [Some element_id_evaluator; None] !! 0%nat = Some (Some evaluate) →
       field_dim (evaluate (d_source_elements line_plan_rank0)
                    (d_target_coords line_plan_rank0))
       = d_dimension line_plan_rank0)
  ∧ (∀ field,
       line_fields !! 0%nat = Some (Some field) →
       field_dim field = d_dimension line_plan_rank0
       ∧ ∃ target_map,
           d_target_map line_plan_rank0 = Some target_map
           ∧ (Z.of_nat (length (field_data field))
              ÷ d_dimension line_plan_rank0)%Z
             = Z.of_nat (length target_map)
           ∧ ∃ field',
               line_fields_applied !! 0%nat = Some (Some field')
               ∧ field_dim field' = field_dim field
               ∧ length (field_data field') = length (field_data field)).
Proof.
  apply (apply_checks line_plan [Some element_id_evaluator; None] line_fields
           line_plan line_fields_applied 0 line_plan_rank0).
  - vm_compute. reflexivity.
  - vm_compute. reflexivity.
Defined.

Lemma apply_delivers_source_values_witness :
  [101; 0; 102]%Q !! (0 * length [3; 4; 5]%Z + 2)%nat = Some 102%Q.
Proof.
  apply (apply_delivers_source_values line_plan
           [Some element_id_evaluator; None] line_fields line_plan
           line_fields_applied 1 0
           (default (SharedDomainMap.new 1 true) (line_plan !! 1%nat))
           line_plan_rank0 line_exporter [3; 4; 5]%Z
           (mkFieldContainer 1 [101; 0; 102]%Q) 2 2 0 5 element_id_evaluator
           102%Q); try (vm_compute; reflexivity).
Defined.

Lemma setup_checks_witness :
  length line_plan = length line_maps
  ∧ (∀ mesh, source_mesh_manager line_input !! 0%nat = Some (Some mesh) →
             dim mesh = d_dimension (SharedDomainMap.new 1 true))
  ∧ (∀ field, target_coord_manager line_input !! 0%nat = Some (Some field) →
              field_dim field = d_dimension (SharedDomainMap.new 1 true))
  ∧ (∃ root mesh,
       l2g_0 (source_mesh_manager line_input) = Ok root
       ∧ source_mesh_manager line_input !! root = Some (Some mesh)
       ∧ (intersectBoxes (globalBoundingBox mesh) (target_box line_input)).1
         = true)
  ∧ (∃ root field,
       l2g_0 (target_coord_manager line_input) = Ok root
       ∧ target_coord_manager line_input !! root = Some (Some field)).
Proof.
  apply (setup_checks UInt32 line_input line_maps line_plan 0
           (SharedDomainMap.new 1 true)).
  - vm_compute. reflexivity.
  - reflexivity.
Defined.

Lemma setup_missed_points_witness :
  d_store_missed_points line_plan_rank0
  = d_store_missed_points (SharedDomainMap.new 1 true)
  ∧ ∃ missed,
      d_missed_points line_plan_rank0
      = d_missed_points (SharedDomainMap.new 1 true) ++ missed
      ∧ (d_store_missed_points (SharedDomainMap.new 1 true) = false →
           missed = []
           ∧ d_target_g2l line_plan_rank0
             = d_target_g2l (SharedDomainMap.new 1 true)
           ∧ getMissedTargetPoints line_plan_rank0 = Throw PreconditionError)
      ∧ (d_store_missed_points (SharedDomainMap.new 1 true) = true →
           getMissedTargetPoints line_plan_rank0
           = Ok (d_missed_points (SharedDomainMap.new 1 true) ++ missed))
      ∧ ((∀ key index,
            d_target_g2l (SharedDomainMap.new 1 true) !! key = Some index →
            (0 ≤ index < 2)%Z) →
           Forall (λ index, (0 ≤ index < 2)%Z) missed).
Proof.
  apply (setup_missed_points UInt32 line_input line_maps line_plan 0
           (SharedDomainMap.new 1 true) line_plan_rank0).
  - vm_compute. reflexivity.
  - reflexivity.
  - vm_compute. reflexivity.
Defined.

Lemma setup_export_plan_witness :
  ∃ exporter,
    ∀ r m m', line_maps !! r = Some m → line_plan !! r = Some m' →
      d_source_to_target_exporter m' = Some exporter
      ∧ is_Some (d_source_map m')
      ∧ d_source_map m' = Tpetra.exp_source_map exporter !! r
      ∧ d_target_map m' = Tpetra.exp_target_map exporter !! r
      ∧ is_Some (d_target_map m')
      ∧ d_target_map m'
        = Some (computePointOrdinals UInt32 (target_coord_manager line_input)
                  r m).2.
Proof.
  apply (setup_export_plan UInt32 line_input line_maps line_plan).
  vm_compute. reflexivity.
Defined.
End SetupExamples.

(** ** The rendezvous engine: where the mesh goes *)

(** ** Sets and index maps *)

Section SetsAndIndices.
Import RendezvousImport.

Lemma elem_of_set_begin_end (s : gset Z) x : x ∈ set_begin_end s ↔ x ∈ s.
Proof.
  unfold set_begin_end. rewrite merge_sort_Permutation. apply elem_of_elements.
Qed.

Lemma StronglySorted_le_lt (l : list Z) :
  StronglySorted Z.le l → NoDup l → StronglySorted Z.lt l.
Proof.
  induction 1 as [|x l Hl IH Hx]; intros Hnd; constructor.
  - apply IH. by apply NoDup_cons in Hnd as [_ ?].
  - apply NoDup_cons in Hnd as [Hnin _].
    apply Forall_forall. intros y Hy.
    pose proof (proj1 (Forall_forall _ _) Hx y Hy) as Hle. cbv beta in Hle.
    assert (x ≠ y) by (intros ->; done). lia.
Qed.

Lemma set_begin_end_sorted (s : gset Z) : StronglySorted Z.lt (set_begin_end s).
Proof.
  apply StronglySorted_le_lt.
  - apply (StronglySorted_merge_sort Z.le).
  - unfold set_begin_end. rewrite merge_sort_Permutation. apply NoDup_elements.
Qed.

Lemma index_map_fold ids :
  (foldl
     (λ '(indices, array_index) id,
        (<[id := array_index]> indices, (array_index + 1)%Z))
     ((∅ : gmap Z Z), 0%Z) ids).2
  = Z.of_nat (length ids).
Proof.
  induction ids as [|id ids IH] using rev_ind; [done|].
  rewrite foldl_app, length_app. simpl.
  destruct (foldl _ _ ids) as [indices array_index]. simpl in *. lia.
Qed.

Lemma index_map_snoc ids id :
  index_map (ids ++ [id]) = <[id := Z.of_nat (length ids)]> (index_map ids).
Proof.
  unfold index_map. rewrite foldl_app. simpl.
  pose proof (index_map_fold ids) as Hlen.
  destruct (foldl _ _ ids) as [indices array_index]. simpl in *.
  by rewrite Hlen.
Qed.

(** The index map sends an id to its last position in the array. *)
Lemma index_map_lookup ids id idx :
  index_map ids !! id = Some idx →
  (0 ≤ idx < Z.of_nat (length ids))%Z ∧ ids !! Z.to_nat idx = Some id.
Proof.
  revert idx. induction ids as [|id' ids IH] using rev_ind; intros idx.
  - unfold index_map. simpl. by rewrite lookup_empty.
  - rewrite index_map_snoc, length_app. simpl.
    destruct (decide (id = id')) as [->|Hne].
    + rewrite lookup_insert_eq. intros [= <-]. split; [lia|].
      rewrite Nat2Z.id. by rewrite list_lookup_middle.
    + rewrite lookup_insert_ne by done. intros Hidx.
      destruct (IH _ Hidx) as [Hr Hl]. split; [lia|].
      rewrite lookup_app_l by lia. done.
Qed.

Lemma index_map_is_Some ids id : id ∈ ids → is_Some (index_map ids !! id).
Proof.
  induction ids as [|id' ids IH] using rev_ind; intros Hid.
  - by apply elem_of_nil in Hid.
  - rewrite index_map_snoc.
    destruct (decide (id = id')) as [->|Hne].
    + rewrite lookup_insert_eq. eauto.
    + rewrite lookup_insert_ne by done. apply IH.
      apply elem_of_app in Hid as [?|Hid]; [done|].
      apply list_elem_of_singleton in Hid. done.
Qed.

Lemma index_map_NoDup ids id n :
  NoDup ids → ids !! n = Some id → index_map ids !! id = Some (Z.of_nat n).
Proof.
  intros Hnd Hn.
  destruct (index_map_is_Some ids id) as [idx Hidx];
    [by eapply list_elem_of_lookup_2|].
  rewrite Hidx. f_equal.
  destruct (index_map_lookup _ _ _ Hidx) as [Hr Hl].
  assert (Z.to_nat idx = n) by (eapply NoDup_lookup; eauto). lia.
Qed.

Lemma elem_of_unroll ids procs_set id p :
  (id, p) ∈ unroll ids procs_set
  ↔ ∃ n procs, ids !! n = Some id ∧ procs_set !! n = Some procs ∧ p ∈ procs.
Proof.
  unfold unroll. rewrite list_elem_of_join. split.
  - intros (l & Hl & Hzip).
    apply elem_of_lookup_zip_with in Hzip as (n & id' & procs & -> & Hid & Hp).
    apply list_elem_of_fmap in Hl as (p' & [= -> ->] & Hp').
    apply elem_of_set_begin_end in Hp'. eauto.
  - intros (n & procs & Hid & Hprocs & Hp).
    exists (pair id <$> set_begin_end procs). split.
    + apply list_elem_of_fmap. exists p. split; [done|].
      by apply elem_of_set_begin_end.
    + apply elem_of_lookup_zip_with. eauto 10.
Qed.
End SetsAndIndices.

(** A loop over a list that runs to its end establishes its invariant,
    stated on the part of the list that has been visited. *)
Lemma for_each_list_inv {I S} (body : I → S → Result S)
    (Inv : list I → S → Prop) (idx : list I) (s : S) :
  Inv [] s →
  (∀ visited x s, x ∈ idx → Inv visited s →
                  ∃ s', body x s = Ok s' ∧ Inv (visited ++ [x]) s') →
  ∃ s', for_each body idx s = Ok s' ∧ Inv idx s'.
Proof.
  intros H0 Hstep.
  assert (∀ rest visited s,
            (∀ x, x ∈ rest → x ∈ idx) → Inv visited s →
            ∃ s', for_each body rest s = Ok s' ∧ Inv (visited ++ rest) s')
    as Hgen.
  { induction rest as [|x rest IH]; intros visited s0 Hsub Hinv; simpl.
    - exists s0. by rewrite app_nil_r.
    - destruct (Hstep visited x s0) as (s1 & -> & Hs1);
        [apply Hsub; by left|done|].
      rewrite bind_Ok.
      destruct (IH (visited ++ [x]) s1) as (s2 & -> & Hs2);
        [intros; apply Hsub; by right|done|].
      exists s2. split; [done|]. by rewrite <- app_assoc in Hs2. }
  apply (Hgen idx [] s); auto.
Qed.

Section ElementExports.
Import Rendezvous RendezvousImport.

Lemma rcp_deref_Some {A} (p : option A) x : p = Some x → rcp_deref p = Ok x.
Proof. by intros ->. Qed.

Lemma array_get_Z_Ok {A} (a : list A) i x :
  (0 ≤ i)%Z → a !! Z.to_nat i = Some x → array_get_Z a i = Ok x.
Proof.
  intros Hi Hx. unfold array_get_Z. rewrite decide_True by done.
  by apply array_get_Ok.
Qed.

Lemma array_set_Z_Ok {A} (a : list A) i x :
  (0 ≤ i < Z.of_nat (length a))%Z →
  array_set_Z a i x = Ok (<[Z.to_nat i := x]> a).
Proof.
  intros Hi. unfold array_set_Z. rewrite decide_True by lia.
  apply array_set_Ok. lia.
Qed.

Lemma vertex_procs_spec r block partitioner :
  (Z.to_nat (d_dimension r) * numVertices block
   ≤ length (coordsView block))%nat →
  d_partitioner r = Some partitioner →
  ∃ procs,
    vertex_procs r block = Ok procs
    ∧ length procs = numVertices block
    ∧ ∀ v, (v < numVertices block)%nat →
        ∃ point,
          blocked_point (d_dimension r) (coordsView block)
            (numVertices block) v = Ok point
          ∧ procs !! v = Some (partitioner point).
Proof.
  intros Hcoords Hpart. unfold vertex_procs.
  set (pt := λ n : nat,
         (λ d, coordsView block !!! (d * numVertices block + n)%nat)
         <$> seq 0 (Z.to_nat (d_dimension r))).
  exists ((λ n, partitioner (pt n)) <$> seq 0 (numVertices block)).
  split; [|split].
  - apply for_collect_Ok. intros n Hn. apply elem_of_seq in Hn.
    rewrite blocked_point_Ok by (done || lia). rewrite bind_Ok.
    by rewrite (rcp_deref_Some _ _ Hpart).
  - by rewrite length_fmap, length_seq.
  - intros v Hv. exists (pt v). split; [by apply blocked_point_Ok|].
    rewrite list_lookup_fmap, lookup_seq_lt by done. done.
Qed.

Section Loops.
Context (block : MeshBlock) (vertex_indices : gmap Z Z).
Context (Hconn : (verticesPerElement block * numElements block
                  ≤ length (connectivityView block))%nat).
Context (Hdom : ∀ gid, gid ∈ connectivityView block →
                       is_Some (vertex_indices !! gid)).
Context (Hrange : ∀ gid idx, vertex_indices !! gid = Some idx →
                             (0 ≤ idx < Z.of_nat (numVertices block))%Z).

Local Abbreviation element_has_vertex :=
  (element_has_vertex block vertex_indices).

Lemma element_procs_inner (vertex_procs : list Z) (n : nat)
    (sets : list (gset Z)) :
  length vertex_procs = numVertices block →
  length sets = numElements block →
  (n < numElements block)%nat →
  ∃ sets',
    for_each
      (λ i export_element_procs_set,
         vertex_ordinal ←
           array_get (connectivityView block) (i * numElements block + n);
         vertex_index ← map_find vertex_indices vertex_ordinal;
         proc ← array_get_Z vertex_procs vertex_index;
         procs ← array_get export_element_procs_set n;
         array_set export_element_procs_set n ({[proc]} ∪ procs))
      (seq 0 (verticesPerElement block)) sets
    = Ok sets'
    ∧ length sets' = numElements block
    ∧ (∀ n', n' ≠ n → sets' !! n' = sets !! n')
    ∧ ∀ p, p ∈ default ∅ (sets' !! n)
           ↔ p ∈ default ∅ (sets !! n)
             ∨ ∃ i v, element_has_vertex n i v ∧ vertex_procs !! v = Some p.
Proof.
  intros Hvp Hlen Hn.
  match goal with
  | |- ∃ _, for_each ?body _ _ = _ ∧ _ =>
      destruct (for_each_seq_inv body
        (λ k (s : list (gset Z)),
           length s = numElements block
           ∧ (∀ n', n' ≠ n → s !! n' = sets !! n')
           ∧ ∀ p, p ∈ default ∅ (s !! n)
                  ↔ p ∈ default ∅ (sets !! n)
                    ∨ ∃ i v, (i < k)%nat ∧ element_has_vertex n i v
                             ∧ vertex_procs !! v = Some p)
        (verticesPerElement block) 0%nat sets)
        as (sets' & Hrun & Hlen' & Hother & Hn')
  end.
  - split; [done|]. split; [done|]. intros p. split; [by left|].
    intros [?|(i & v & Hi & _)]; [done|lia].
  - intros i s Hi (Hl & Ho & Hp).
    destruct (element_vertex block vertex_indices Hconn Hdom Hrange n i)
      as (gid & idx & Hgid & Hidx & Hr); [done|lia|].
    rewrite (array_get_Ok _ _ _ Hgid), bind_Ok.
    rewrite (map_find_Some _ _ _ Hidx), bind_Ok.
    unfold array_get_Z. rewrite decide_True by lia.
    destruct (lookup_lt_is_Some_2 vertex_procs (Z.to_nat idx)) as [proc Hproc];
      [lia|].
    rewrite (array_get_Ok _ _ _ Hproc), bind_Ok.
    destruct (lookup_lt_is_Some_2 s n) as [S HS]; [lia|].
    rewrite (array_get_Ok _ _ _ HS), bind_Ok.
    rewrite array_set_Ok by lia.
    eexists; split; [reflexivity|].
    split; [by rewrite length_insert|]. split.
    + intros n' Hne. rewrite list_lookup_insert_ne by done. auto.
    + intros p. rewrite list_lookup_insert_eq by lia. simpl.
      rewrite elem_of_union, elem_of_singleton.
      specialize (Hp p). rewrite HS in Hp. simpl in Hp. rewrite Hp.
      assert (element_has_vertex n i (Z.to_nat idx)) as Hhas.
      { split; [lia|]. exists gid. split; [done|].
        rewrite Hidx. f_equal. lia. }
      split.
      * intros [->|[?|(i' & v & Hi' & Hv & Hpv)]].
        -- right. exists i, (Z.to_nat idx). split; [lia|done].
        -- by left.
        -- right. exists i', v. split; [lia|done].
      * intros [?|(i' & v & Hi' & Hv & Hpv)]; [by right; left|].
        destruct (decide (i' = i)) as [->|Hne].
        -- left. destruct Hv as (_ & gid' & Hgid' & Hidx').
           rewrite Hgid in Hgid'. injection Hgid' as <-.
           rewrite Hidx in Hidx'. injection Hidx' as ->.
           rewrite Nat2Z.id in Hproc. congruence.
        -- right. right. exists i', v. split; [lia|done].
  - exists sets'. split; [done|]. split; [done|]. split; [done|].
    intros p. rewrite Hn'. split.
    + intros [?|(i & v & _ & Hv & Hpv)]; [by left|right; eauto].
    + intros [?|(i & v & Hv & Hpv)]; [by left|].
      right. exists i, v. split; [|done]. by destruct Hv.
Qed.

Lemma export_element_procs_set_spec (elements_in_box : list bool)
    (vertex_procs : list Z) :
  length vertex_procs = numVertices block →
  (numElements block ≤ length elements_in_box)%nat →
  ∃ sets,
    export_element_procs_set block elements_in_box vertex_indices vertex_procs
    = Ok sets
    ∧ length sets = numElements block
    ∧ ∀ n p, p ∈ default ∅ (sets !! n)
             ↔ elements_in_box !! n = Some true
               ∧ (n < numElements block)%nat
               ∧ ∃ i v, element_has_vertex n i v
                        ∧ vertex_procs !! v = Some p.
Proof.
  intros Hvp Hin. unfold export_element_procs_set.
  match goal with
  | |- ∃ _, for_each ?body _ _ = _ ∧ _ =>
      destruct (for_each_seq_inv body
        (λ k (s : list (gset Z)),
           length s = numElements block
           ∧ ∀ n p, p ∈ default ∅ (s !! n)
                    ↔ elements_in_box !! n = Some true
                      ∧ (n < k)%nat
                      ∧ ∃ i v, element_has_vertex n i v
                               ∧ vertex_procs !! v = Some p)
        (numElements block) 0%nat (replicate (numElements block) ∅))
        as (sets & Hrun & Hlen & Hsets)
  end.
  - split; [by rewrite length_replicate|]. intros n p. split.
    + intros Hp. destruct (replicate _ _ !! n) as [S|] eqn:HS; simpl in Hp.
      * apply lookup_replicate in HS as [-> _]. set_solver.
      * set_solver.
    + intros (_ & Hn & _). lia.
  - intros n s Hn (Hl & Hs).
    destruct (lookup_lt_is_Some_2 elements_in_box n) as [flag Hflag]; [lia|].
    rewrite (array_get_Ok _ _ _ Hflag), bind_Ok.
    destruct flag.
    + destruct (element_procs_inner vertex_procs n s)
        as (s' & -> & Hl' & Hother & Hthis); [done|done|lia|].
      eexists; split; [reflexivity|]. split; [done|].
      intros n' p. destruct (decide (n' = n)) as [->|Hne].
      * rewrite Hthis, Hs. split.
        -- intros [(_ & Hlt & _)|Hv]; [lia|]. split; [done|]. split; [lia|done].
        -- intros (_ & _ & Hv). by right.
      * rewrite Hother, Hs by done. split.
        -- intros (? & ? & ?). split; [done|]. split; [lia|done].
        -- intros (? & ? & ?). split; [done|]. split; [lia|done].
    + eexists; split; [reflexivity|]. split; [done|].
      intros n' p. rewrite Hs. split.
      * intros (? & ? & ?). split; [done|]. split; [lia|done].
      * intros (Hf & Hlt & Hv). split; [done|]. split; [|done].
        destruct (decide (n' = n)) as [->|]; [congruence|lia].
  - exists sets. split; [done|]. split; [done|]. exact Hsets.
Qed.

Lemma vertex_procs_set_inner (proc : Z) (element_index : Z)
    (sets : list (gset Z)) :
  (0 ≤ element_index < Z.of_nat (numElements block))%Z →
  length sets = numVertices block →
  ∃ sets',
    for_each
      (λ i export_vertex_procs_set,
         vertex_ordinal ←
           array_get_Z (connectivityView block)
             (Z.of_nat i * Z.of_nat (numElements block) + element_index);
         vertex_index ← map_find vertex_indices vertex_ordinal;
         procs ← array_get_Z export_vertex_procs_set vertex_index;
         array_set_Z export_vertex_procs_set vertex_index ({[proc]} ∪ procs))
      (seq 0 (verticesPerElement block)) sets
    = Ok sets'
    ∧ length sets' = numVertices block
    ∧ ∀ v p, p ∈ default ∅ (sets' !! v)
             ↔ p ∈ default ∅ (sets !! v)
               ∨ (p = proc
                  ∧ ∃ i, element_has_vertex (Z.to_nat element_index) i v).
Proof.
  intros Hei Hlen.
  match goal with
  | |- ∃ _, for_each ?body _ _ = _ ∧ _ =>
      destruct (for_each_seq_inv body
        (λ k (s : list (gset Z)),
           length s = numVertices block
           ∧ ∀ v p, p ∈ default ∅ (s !! v)
                    ↔ p ∈ default ∅ (sets !! v)
                      ∨ (p = proc
                         ∧ ∃ i, (i < k)%nat
                                ∧ element_has_vertex
                                    (Z.to_nat element_index) i v))
        (verticesPerElement block) 0%nat sets)
        as (sets' & Hrun & Hlen' & Hsets)
  end.
  - split; [done|]. intros v p. split; [by left|].
    intros [?|(_ & i & Hi & _)]; [done|lia].
  - intros i s Hi (Hl & Hs).
    destruct (element_vertex block vertex_indices Hconn Hdom Hrange
                (Z.to_nat element_index) i)
      as (gid & idx & Hgid & Hidx & Hr); [lia|lia|].
    rewrite (array_get_Z_Ok (connectivityView block) _ gid);
      [|lia|rewrite <- Hgid; f_equal; lia].
    rewrite bind_Ok, (map_find_Some _ _ _ Hidx), bind_Ok.
    destruct (lookup_lt_is_Some_2 s (Z.to_nat idx)) as [S HS]; [lia|].
    rewrite (array_get_Z_Ok s idx S) by (done || lia).
    rewrite bind_Ok, array_set_Z_Ok by lia.
    eexists; split; [reflexivity|].
    split; [by rewrite length_insert|].
    assert (element_has_vertex (Z.to_nat element_index) i (Z.to_nat idx))
      as Hhas.
    { split; [lia|]. exists gid. split; [done|]. rewrite Hidx. f_equal. lia. }
    intros v p. destruct (decide (v = Z.to_nat idx)) as [->|Hne].
    + rewrite list_lookup_insert_eq by lia. simpl.
      rewrite elem_of_union, elem_of_singleton.
      specialize (Hs (Z.to_nat idx) p). rewrite HS in Hs. simpl in Hs.
      rewrite Hs. split.
      * intros [->|[?|(-> & i' & Hi' & Hv)]].
        -- right. split; [done|]. exists i. split; [lia|done].
        -- by left.
        -- right. split; [done|]. exists i'. split; [lia|done].
      * intros [?|(-> & i' & Hi' & Hv)]; [by right; left|]. by left.
    + rewrite list_lookup_insert_ne by done. rewrite Hs. split.
      * intros [?|(-> & i' & Hi' & Hv)]; [by left|].
        right. split; [done|]. exists i'. split; [lia|done].
      * intros [?|(-> & i' & Hi' & Hv)]; [by left|].
        right. split; [done|]. exists i'. split; [|done].
        destruct (decide (i' = i)) as [->|]; [|lia].
        destruct Hv as (_ & gid' & Hgid' & Hidx').
        rewrite Hgid in Hgid'. injection Hgid' as <-.
        rewrite Hidx in Hidx'. injection Hidx' as ->. lia.
  - exists sets'. split; [done|]. split; [done|].
    intros v p. rewrite Hsets. split.
    + intros [?|(-> & i & _ & Hv)]; [by left|right; eauto].
    + intros [?|(-> & i & Hv)]; [by left|].
      right. split; [done|]. exists i. split; [|done]. by destruct Hv.
Qed.

Lemma export_vertex_procs_set_spec (element_indices : gmap Z Z)
    (export_elements export_element_procs : list Z) :
  (∀ e p, (e, p) ∈ zip export_elements export_element_procs →
          ∃ ei, element_indices !! e = Some ei
                ∧ (0 ≤ ei < Z.of_nat (numElements block))%Z) →
  ∃ sets,
    export_vertex_procs_set block vertex_indices element_indices
      export_elements export_element_procs
    = Ok sets
    ∧ length sets = numVertices block
    ∧ ∀ v p, p ∈ default ∅ (sets !! v)
             ↔ ∃ e ei i,
                 (e, p) ∈ zip export_elements export_element_procs
                 ∧ element_indices !! e = Some ei
                 ∧ element_has_vertex (Z.to_nat ei) i v.
Proof.
  intros Hexports. unfold export_vertex_procs_set.
  match goal with
  | |- ∃ _, for_each ?body _ _ = _ ∧ _ =>
      destruct (for_each_list_inv body
        (λ visited (s : list (gset Z)),
           length s = numVertices block
           ∧ ∀ v p, p ∈ default ∅ (s !! v)
                    ↔ ∃ e ei i,
                        (e, p) ∈ visited
                        ∧ element_indices !! e = Some ei
                        ∧ element_has_vertex (Z.to_nat ei) i v)
        (zip export_elements export_element_procs)
        (replicate (numVertices block) ∅))
        as (sets & Hrun & Hlen & Hsets)
  end.
  - split; [by rewrite length_replicate|]. intros v p. split.
    + intros Hp. destruct (replicate _ _ !! v) as [S|] eqn:HS; simpl in Hp.
      * apply lookup_replicate in HS as [-> _]. set_solver.
      * set_solver.
    + intros (e & ei & i & He & _). by apply elem_of_nil in He.
  - intros visited [e proc] s Hin (Hl & Hs).
    destruct (Hexports e proc Hin) as (ei & Hei & Hr).
    rewrite (map_find_Some _ _ _ Hei), bind_Ok.
    destruct (vertex_procs_set_inner proc ei s) as (s' & -> & Hl' & Hs');
      [done|done|].
    eexists; split; [reflexivity|]. split; [done|].
    intros v p. rewrite Hs', Hs. split.
    + intros [(e' & ei' & i & He' & Hei' & Hv)|(-> & i & Hv)].
      * exists e', ei', i. split; [|done]. apply elem_of_app. by left.
      * exists e, ei, i. split; [|done]. apply elem_of_app. right.
        by apply list_elem_of_singleton.
    + intros (e' & ei' & i & He' & Hei' & Hv).
      apply elem_of_app in He' as [He'|He'].
      * left. eauto 10.
      * apply list_elem_of_singleton in He'. injection He' as -> ->.
        rewrite Hei in Hei'. injection Hei' as <-. right. eauto.
  - exists sets. done.
Qed.
End Loops.
End ElementExports.

Section LocalExports.
Import Rendezvous RendezvousImport.

(** The elements a rank exports and where they go. *)
Lemma export_elements_spec r mesh in_box :
  (∀ block, mesh = Some block →
     block_well_formed (d_dimension r) block
     ∧ is_Some (d_partitioner r)
     ∧ length in_box = numElements block) →
  ∃ exports,
    export_elements r mesh in_box = Ok (exports.*1, exports.*2)
    ∧ ∀ e p, (e, p) ∈ exports
             ↔ ∃ block n,
                 mesh = Some block
                 ∧ elementsView block !! n = Some e
                 ∧ element_destination r block in_box n p.
Proof.
  intros Hwf. destruct mesh as [block|].
  2:{ exists []. split; [done|]. intros e p. split.
      - intros He. by apply elem_of_nil in He.
      - intros (block & n & Hb & _). discriminate. }
  destruct (Hwf block eq_refl)
    as ((Hcoords & Hconn & Hclosed & Hnodup) & [partitioner Hpart] & Hin).
  unfold export_elements. cbn [block_data].
  destruct (vertex_procs_spec r block partitioner Hcoords Hpart)
    as (vp & -> & Hlen & Hvp).
  rewrite bind_Ok.
  set (vi := index_map (verticesView block)).
  assert (∀ gid, gid ∈ connectivityView block → is_Some (vi !! gid)) as Hdom.
  { intros gid Hgid. apply index_map_is_Some.
    by eapply (proj1 (Forall_forall _ _) Hclosed). }
  assert (∀ gid idx, vi !! gid = Some idx →
                     (0 ≤ idx < Z.of_nat (numVertices block))%Z) as Hrange.
  { intros gid idx Hidx. by apply index_map_lookup in Hidx as [? _]. }
  destruct (export_element_procs_set_spec block vi Hconn Hdom Hrange in_box vp)
    as (sets & -> & Hlens & Hsets); [done|lia|].
  rewrite bind_Ok.
  exists (unroll (elementsView block) sets). split; [done|].
  intros e p. rewrite elem_of_unroll. split.
  - intros (n & S & He & HS & Hp).
    exists block, n. split; [done|]. split; [done|].
    specialize (Hsets n p). rewrite HS in Hsets. simpl in Hsets.
    apply Hsets in Hp as (Hflag & Hn & i & v & (Hi & gid & Hgid & Hidx) & Hpv).
    split; [done|].
    apply index_map_lookup in Hidx as [Hr Hv]. rewrite Nat2Z.id in Hv.
    destruct (Hvp v) as (point & Hpoint & Hproc);
      [unfold numVertices; lia|].
    exists i, gid, v, point, partitioner.
    repeat split; try done. congruence.
  - intros (block' & n & [= <-] & He & Hflag & i & gid & v & point
            & partitioner' & Hi & Hgid & Hv & Hpoint & Hpart' & <-).
    pose proof (lookup_lt_Some _ _ _ He) as Hn.
    destruct (lookup_lt_is_Some_2 sets n) as [S HS];
      [unfold numElements in Hlens; lia|].
    exists n, S. split; [done|]. split; [done|].
    specialize (Hsets n (partitioner' point)). rewrite HS in Hsets.
    simpl in Hsets. apply Hsets. split; [done|]. split; [done|].
    exists i, v. split.
    + split; [done|]. exists gid. split; [done|].
      by apply index_map_NoDup.
    + destruct (Hvp v) as (point' & Hpoint' & Hproc);
        [by eapply lookup_lt_Some|].
      rewrite Hpoint in Hpoint'. apply Ok_inj in Hpoint' as <-.
      rewrite Hpart in Hpart'. by injection Hpart' as <-.
Qed.

(** The vertices a rank exports and where they go: a vertex goes wherever
    an exported element holding it goes. *)
Lemma export_vertices_spec dimension mesh export_elements
    export_element_procs :
  (∀ block, mesh = Some block → block_well_formed dimension block) →
  (∀ e p, (e, p) ∈ zip export_elements export_element_procs →
          ∃ block, mesh = Some block ∧ e ∈ elementsView block) →
  ∃ exports,
    export_vertices mesh export_elements export_element_procs
    = Ok (exports.*1, exports.*2)
    ∧ ∀ g p, (g, p) ∈ exports
             ↔ ∃ block e ei i v,
                 mesh = Some block
                 ∧ (e, p) ∈ zip export_elements export_element_procs
                 ∧ index_map (elementsView block) !! e = Some ei
                 ∧ element_has_vertex block (index_map (verticesView block))
                     (Z.to_nat ei) i v
                 ∧ verticesView block !! v = Some g.
Proof.
  intros Hwf Hels. destruct mesh as [block|].
  2:{ assert (zip export_elements export_element_procs = []) as Hnil.
      { destruct (zip _ _) as [|[e p] l] eqn:Hzip; [done|].
        destruct (Hels e p) as (block & Hb & _); [by left|].
        discriminate. }
      exists []. split.
      - unfold export_vertices, export_vertex_procs_set. by rewrite Hnil.
      - intros g p. split.
        + intros Hg. by apply elem_of_nil in Hg.
        + intros (block & e & ei & i & v & Hb & _). discriminate. }
  destruct (Hwf block eq_refl) as (Hcoords & Hconn & Hclosed & Hnodup).
  unfold export_vertices. cbn [block_data].
  set (vi := index_map (verticesView block)).
  set (ei := index_map (elementsView block)).
  assert (∀ gid, gid ∈ connectivityView block → is_Some (vi !! gid)) as Hdom.
  { intros gid Hgid. apply index_map_is_Some.
    by eapply (proj1 (Forall_forall _ _) Hclosed). }
  assert (∀ gid idx, vi !! gid = Some idx →
                     (0 ≤ idx < Z.of_nat (numVertices block))%Z) as Hrange.
  { intros gid idx Hidx. by apply index_map_lookup in Hidx as [? _]. }
  destruct (export_vertex_procs_set_spec block vi Hconn Hdom Hrange ei
              export_elements export_element_procs)
    as (sets & -> & Hlens & Hsets).
  { intros e p Hin. destruct (Hels e p Hin) as (block' & [= <-] & He).
    destruct (index_map_is_Some _ _ He) as [idx Hidx].
    exists idx. split; [done|].
    by apply index_map_lookup in Hidx as [? _]. }
  rewrite bind_Ok.
  exists (unroll (verticesView block) sets). split; [done|].
  intros g p. rewrite elem_of_unroll. split.
  - intros (v & S & Hg & HS & Hp).
    specialize (Hsets v p). rewrite HS in Hsets. simpl in Hsets.
    apply Hsets in Hp as (e & idx & i & He & Hidx & Hv).
    exists block, e, idx, i, v. done.
  - intros (block' & e & idx & i & v & [= <-] & He & Hidx & Hv & Hg).
    pose proof (lookup_lt_Some _ _ _ Hg) as Hlt.
    destruct (lookup_lt_is_Some_2 sets v) as [S HS];
      [unfold numVertices in Hlens; lia|].
    exists v, S. split; [done|]. split; [done|].
    specialize (Hsets v p). rewrite HS in Hsets. simpl in Hsets.
    apply Hsets. eauto 10.
Qed.
End LocalExports.

(** ** The receiving side *)

Lemma StronglySorted_lookup_le (l : list Z) j j' x x' :
  StronglySorted Z.le l → (j ≤ j')%nat →
  l !! j = Some x → l !! j' = Some x' → (x ≤ x')%Z.
Proof.
  intros Hs Hj Hx Hx'.
  destruct (decide (j = j')) as [->|Hne]; [by simplify_eq; lia|].
  rewrite <- (take_drop j' l) in Hs.
  eapply (StronglySorted_app_1_elem_of _ _ _ x x' Hs).
  - apply list_elem_of_lookup. exists j. rewrite lookup_take_lt by lia. done.
  - apply list_elem_of_lookup. exists 0%nat. rewrite lookup_drop.
    by rewrite Nat.add_0_r.
Qed.

Lemma senders_blocks_sorted (g : nat → nat) (n : nat) :
  StronglySorted Z.le
    (mjoin ((λ s, replicate (g s) (Z.of_nat s)) <$> seq 0 n)).
Proof.
  induction n as [|n IH]; [constructor|].
  rewrite seq_S, fmap_app, join_app. simpl. rewrite app_nil_r.
  apply StronglySorted_app_2; [|done|].
  - intros x1 x2 Hx1 Hx2.
    apply list_elem_of_join in Hx1 as (l & Hx1 & Hl).
    apply list_elem_of_fmap in Hl as (s & -> & Hs).
    apply elem_of_seq in Hs.
    apply elem_of_replicate in Hx1 as [-> _].
    apply elem_of_replicate in Hx2 as [-> _]. lia.
  - induction (g n) as [|k IHk]; simpl; constructor; [done|].
    apply Forall_forall. intros x Hx.
    apply elem_of_replicate in Hx as [-> _]. lia.
Qed.

(** Arrivals are ordered by sending rank. *)
Lemma arrivals_sorted {A} plan (exports : list (list A)) me j j' a a' :
  (∀ s procs, plan !! s = Some procs →
              length procs ≤ length (default [] (exports !! s))) →
  (j ≤ j')%nat →
  Tpetra.arrivals plan exports me !! j = Some a →
  Tpetra.arrivals plan exports me !! j' = Some a' →
  a.1 ≤ a'.1.
Proof.
  intros Hlen Hj Ha Ha'.
  pose proof (arrivals_senders plan exports me Hlen) as Hsenders.
  pose proof (senders_blocks_sorted (Tpetra.lengthFrom plan me) (length plan))
    as Hsorted.
  rewrite <- Hsenders in Hsorted.
  pose proof (StronglySorted_lookup_le _ j j' (Z.of_nat a.1) (Z.of_nat a'.1)
                Hsorted Hj) as Hle.
  rewrite !list_lookup_fmap, Ha, Ha' in Hle. simpl in Hle.
  specialize (Hle eq_refl eq_refl). lia.
Qed.

Section Receive.
Import Rendezvous RendezvousImport.

Lemma rendezvous_elements_set_spec (map0 : gmap Z Z) (A : list (nat * Z)) :
  ∃ set map',
    rendezvous_elements_set map0 A.*2 ((λ a, Z.of_nat a.1) <$> A)
    = Ok (set, map')
    ∧ (∀ e, e ∈ set ↔ ∃ j s, A !! j = Some (s, e))
    ∧ (∀ e, (∀ j s, A !! j ≠ Some (s, e)) → map' !! e = map0 !! e)
    ∧ (∀ e j s,
         A !! j = Some (s, e) →
         (∀ j' s', (j' < j)%nat → A !! j' ≠ Some (s', e)) →
         map' !! e = Some (Z.of_nat s)).
Proof.
  unfold rendezvous_elements_set. rewrite length_fmap.
  match goal with
  | |- ∃ _ _, for_each ?body _ _ = _ ∧ _ =>
      destruct (for_each_seq_inv body
        (λ k (st : gset Z * gmap Z Z),
           (∀ e, e ∈ st.1 ↔ ∃ j s, (j < k)%nat ∧ A !! j = Some (s, e))
           ∧ (∀ e, (∀ j s, (j < k)%nat → A !! j ≠ Some (s, e)) →
                   st.2 !! e = map0 !! e)
           ∧ (∀ e j s,
                (j < k)%nat → A !! j = Some (s, e) →
                (∀ j' s', (j' < j)%nat → A !! j' ≠ Some (s', e)) →
                st.2 !! e = Some (Z.of_nat s)))
        (length A) 0%nat (∅, map0))
        as ([set map'] & Hrun & Hset & Hother & Hfirst)
  end.
  - simpl. split; [|split].
    + intros e. split; [set_solver|]. intros (j & s & Hj & _). lia.
    + done.
    + intros; lia.
  - intros k [set map'] Hk (Hset & Hother & Hfirst). simpl in *.
    destruct (lookup_lt_is_Some_2 A k) as [[s e] Hse]; [lia|].
    rewrite (array_get_Ok A.*2 k e) by (by rewrite list_lookup_fmap, Hse).
    rewrite bind_Ok.
    destruct (bool_decide (e ∉ set)) eqn:Hnew.
    + apply bool_decide_eq_true in Hnew.
      rewrite (array_get_Ok _ k (Z.of_nat s))
        by (by rewrite list_lookup_fmap, Hse).
      rewrite bind_Ok. eexists; split; [reflexivity|]. simpl.
      assert (∀ j s', (j < k)%nat → A !! j ≠ Some (s', e)) as Hfresh.
      { intros j s' Hj Hjs. apply Hnew. apply Hset. eauto. }
      split; [|split].
      * intros e'. rewrite elem_of_union, elem_of_singleton, Hset. split.
        -- intros [->|(j & s' & Hj & Hjs)]; [exists k, s|exists j, s'].
           ++ split; [lia|exact Hse].
           ++ split; [lia|done].
        -- intros (j & s' & Hj & Hjs).
           destruct (decide (j = k)) as [->|Hne].
           ++ left. congruence.
           ++ right. exists j, s'. split; [lia|done].
      * intros e' He'. rewrite lookup_insert_ne.
        -- apply Hother. intros j s' Hj. apply He'. lia.
        -- intros <-. apply (He' k s); [lia|done].
      * intros e' j s' Hj Hjs Hmin.
        destruct (decide (j = k)) as [->|Hne].
        -- rewrite Hse in Hjs. injection Hjs as <- <-.
           by rewrite lookup_insert_eq.
        -- rewrite lookup_insert_ne.
           ++ apply (Hfirst e' j s'); [lia|done|done].
           ++ intros <-. apply (Hfresh j s'); [lia|done].
    + apply bool_decide_eq_false in Hnew. apply dec_stable in Hnew.
      apply Hset in Hnew as (j0 & s0 & Hj0 & Hjs0).
      eexists; split; [reflexivity|]. simpl. split; [|split].
      * intros e'. rewrite Hset. split.
        -- intros (j & s' & Hj & Hjs). exists j, s'. split; [lia|done].
        -- intros (j & s' & Hj & Hjs).
           destruct (decide (j = k)) as [->|Hne].
           ++ rewrite Hse in Hjs. injection Hjs as <- <-. eauto.
           ++ exists j, s'. split; [lia|done].
      * intros e' He'. apply Hother. intros j s' Hj. apply He'. lia.
      * intros e' j s' Hj Hjs Hmin.
        destruct (decide (j = k)) as [->|Hne].
        -- rewrite Hse in Hjs. injection Hjs as <- <-.
           exfalso. by apply (Hmin j0 s0).
        -- apply (Hfirst e' j s'); [lia|done|done].
  - exists set, map'. simpl in *. split; [done|]. split; [|split].
    + intros e. rewrite Hset. split.
      * intros (j & s & _ & Hjs). eauto.
      * intros (j & s & Hjs). exists j, s. split; [|done].
        by eapply lookup_lt_Some.
    + intros e He. apply Hother. intros j s _. apply He.
    + intros e j s Hjs Hmin. apply (Hfirst e j s); [|done|done].
      by eapply lookup_lt_Some.
Qed.

(** In a list with an occurrence of [e] there is a first one. *)
Lemma first_occurrence (A : list (nat * Z)) e :
  (∃ j s, A !! j = Some (s, e)) →
  ∃ j s, A !! j = Some (s, e)
         ∧ ∀ j' s', (j' < j)%nat → A !! j' ≠ Some (s', e).
Proof.
  induction A as [|[s0 e0] A IH]; intros (j & s & Hjs).
  - by rewrite lookup_nil in Hjs.
  - destruct (decide (e0 = e)) as [->|Hne].
    + exists 0%nat, s0. split; [done|]. intros; lia.
    + destruct j as [|j]; [simpl in Hjs; congruence|]. simpl in Hjs.
      destruct IH as (j1 & s1 & Hj1 & Hmin); [eauto|].
      exists (S j1), s1. split; [done|].
      intros [|j'] s' Hj' Hjs'; simpl in Hjs'; [congruence|].
      apply (Hmin j' s'); [lia|done].
Qed.

Lemma import_elements_spec r plan (exports : list (list Z)) me :
  (∀ s procs, plan !! s = Some procs →
              length procs ≤ length (default [] (exports !! s))) →
  ∃ r' rendezvous_elements,
    import_elements r plan exports me = Ok (r', rendezvous_elements)
    ∧ d_dimension r' = d_dimension r
    ∧ d_global_box r' = d_global_box r
    ∧ d_partitioner r' = d_partitioner r
    ∧ d_rendezvous_mesh_manager r' = d_rendezvous_mesh_manager r
    ∧ d_element_tree r' = d_element_tree r
    ∧ StronglySorted Z.lt rendezvous_elements
    ∧ (∀ e, e ∈ rendezvous_elements
            ↔ ∃ s, (s, e) ∈ Tpetra.arrivals plan exports me)
    ∧ (∀ e, e ∉ rendezvous_elements →
            d_element_src_procs_map r' !! e = d_element_src_procs_map r !! e)
    ∧ (∀ e, e ∈ rendezvous_elements →
            ∃ s, (s, e) ∈ Tpetra.arrivals plan exports me
                 ∧ d_element_src_procs_map r' !! e = Some (Z.of_nat s)
                 ∧ ∀ s', (s', e) ∈ Tpetra.arrivals plan exports me →
                         s ≤ s').
Proof.
  intros Hlen. unfold import_elements.
  rewrite length_src_procs, Nat.eqb_refl. simpl.
  rewrite doPostsAndWaits_arrivals by done.
  rewrite (src_procs_senders plan exports me Hlen).
  set (A := Tpetra.arrivals plan exports me).
  destruct (rendezvous_elements_set_spec (d_element_src_procs_map r) A)
    as (set & map' & -> & Hset & Hother & Hfirst).
  rewrite bind_Ok. eexists _, _. split; [reflexivity|].
  cbn [d_dimension d_global_box d_partitioner d_rendezvous_mesh_manager
       d_element_tree d_element_src_procs_map].
  do 5 (split; [done|]).
  split; [apply set_begin_end_sorted|].
  assert (∀ e, e ∈ set_begin_end set ↔ ∃ s, (s, e) ∈ A) as Hmem.
  { intros e. rewrite elem_of_set_begin_end, Hset. split.
    - intros (j & s & Hjs). exists s. by eapply list_elem_of_lookup_2.
    - intros (s & Hs). apply list_elem_of_lookup in Hs as [j Hj]. eauto. }
  split; [exact Hmem|]. split.
  - intros e He. apply Hother. intros j s Hjs. apply He. apply Hmem.
    exists s. by eapply list_elem_of_lookup_2.
  - intros e He. apply Hmem in He as (s0 & Hs0).
    apply list_elem_of_lookup in Hs0 as [j0 Hj0].
    destruct (first_occurrence A e) as (j & s & Hjs & Hmin); [eauto|].
    exists s. split; [by eapply list_elem_of_lookup_2|].
    split; [by apply (Hfirst e j s)|].
    intros s' Hs'. apply list_elem_of_lookup in Hs' as [j' Hj'].
    assert (j ≤ j')%nat as Hle.
    { destruct (decide (j ≤ j')%nat); [done|].
      exfalso. apply (Hmin j' s'); [lia|done]. }
    apply (arrivals_sorted plan exports me j j' (s, e) (s', e) Hlen Hle Hjs Hj').
Qed.

Lemma elem_of_foldl_insert (l : list Z) (s0 : gset Z) x :
  x ∈ foldl (λ (set : gset Z) vertex, {[vertex]} ∪ set) s0 l
  ↔ x ∈ s0 ∨ x ∈ l.
Proof.
  revert s0. induction l as [|y l IH]; intros s0; simpl.
  - split; [by left|]. intros [H|H]; [done|]. by apply elem_of_nil in H.
  - rewrite IH, elem_of_union, elem_of_singleton, elem_of_cons. tauto.
Qed.

Lemma import_vertices_spec plan (exports : list (list Z)) me :
  (∀ s procs, plan !! s = Some procs →
              length procs ≤ length (default [] (exports !! s))) →
  StronglySorted Z.lt (import_vertices plan exports me)
  ∧ ∀ v, v ∈ import_vertices plan exports me
         ↔ ∃ s, (s, v) ∈ Tpetra.arrivals plan exports me.
Proof.
  intros Hlen. unfold import_vertices.
  split; [apply set_begin_end_sorted|].
  intros v. rewrite elem_of_set_begin_end, elem_of_foldl_insert.
  rewrite doPostsAndWaits_arrivals by done.
  rewrite list_elem_of_fmap. split.
  - intros [?|([s v'] & -> & Hin)]; [set_solver|]. eauto.
  - intros (s & Hs). right. exists (s, v). done.
Qed.
End Receive.

(** A loop that produces one value per index runs when every iteration
    does. *)
Lemma for_collect_total {I A} (body : I → Result A) (Q : I → A → Prop) idx :
  (∀ n, n ∈ idx → ∃ x, body n = Ok x ∧ Q n x) →
  ∃ xs, for_collect body idx = Ok xs ∧ Forall2 Q idx xs.
Proof.
  induction idx as [|n idx IH]; intros Hall; simpl.
  - exists []. split; [done|constructor].
  - destruct (Hall n) as (x & -> & Hx); [by left|].
    destruct IH as (xs & -> & Hxs); [intros; apply Hall; by right|].
    exists (x :: xs). split; [done|]. by constructor.
Qed.

Lemma Forall2_seq_lookup {A} (Q : nat → A → Prop) len xs :
  Forall2 Q (seq 0 len) xs →
  length xs = len ∧ ∀ n x, xs !! n = Some x → Q n x.
Proof.
  intros HQ. split.
  - apply Forall2_length in HQ. by rewrite length_seq in HQ.
  - intros n x Hx.
    destruct (Forall2_lookup_r _ _ _ _ _ HQ Hx) as (n' & Hn' & Hq).
    apply lookup_seq in Hn' as [-> _]. done.
Qed.

(** What arrives on a rank when every sender lists its items with their
    destinations. *)
Lemma elem_of_arrivals_zip (eps : list (list Z * list Z)) me s e :
  (s, e) ∈ Tpetra.arrivals (snd <$> eps) (fst <$> eps) me
  ↔ ∃ ep, eps !! s = Some ep ∧ (e, Z.of_nat me) ∈ zip ep.1 ep.2.
Proof.
  rewrite elem_of_arrivals. split.
  - intros (k & procs & items & Hprocs & Hitems & Hk & Hx).
    rewrite list_lookup_fmap in Hprocs, Hitems.
    destruct (eps !! s) as [ep|] eqn:Hep; [|discriminate].
    simpl in *. injection Hprocs as <-. injection Hitems as <-.
    exists ep. split; [done|]. apply list_elem_of_lookup. exists k.
    by apply lookup_zip_Some.
  - intros (ep & Hep & Hin). apply list_elem_of_lookup in Hin as [k Hk].
    apply lookup_zip_Some in Hk as [Hitem Hproc].
    exists k, ep.2, ep.1. rewrite !list_lookup_fmap, Hep. done.
Qed.

Lemma arrivals_zip_lengths (eps : list (list Z * list Z)) :
  (∀ s ep, eps !! s = Some ep → length ep.1 = length ep.2) →
  ∀ s procs, (snd <$> eps) !! s = Some procs →
             length procs ≤ length (default [] ((fst <$> eps) !! s)).
Proof.
  intros Hlen s procs Hs. rewrite list_lookup_fmap in Hs |- *.
  destruct (eps !! s) as [ep|] eqn:Hep; [|discriminate].
  simpl in *. injection Hs as <-. rewrite (Hlen s ep Hep). done.
Qed.

Section ImportCommunication.
Import Rendezvous RendezvousImport.

Lemma setupImportCommunication_spec rs mesh elements_in_box :
  import_well_formed rs mesh elements_in_box →
  ∃ out,
    setupImportCommunication rs mesh elements_in_box = Ok out
    ∧ length out = length rs
    ∧ ∀ p r r' rendezvous_vertices rendezvous_elements,
        rs !! p = Some r →
        out !! p = Some (r', rendezvous_vertices, rendezvous_elements) →
        d_dimension r' = d_dimension r
        ∧ d_global_box r' = d_global_box r
        ∧ d_partitioner r' = d_partitioner r
        ∧ d_rendezvous_mesh_manager r' = d_rendezvous_mesh_manager r
        ∧ d_element_tree r' = d_element_tree r
        ∧ StronglySorted Z.lt rendezvous_elements
        ∧ (∀ e, e ∈ rendezvous_elements
                ↔ ∃ s n, sends_element rs mesh elements_in_box s n e p)
        ∧ (∀ e, e ∉ rendezvous_elements →
                d_element_src_procs_map r' !! e
                = d_element_src_procs_map r !! e)
        ∧ (∀ e, e ∈ rendezvous_elements →
                ∃ s n,
                  sends_element rs mesh elements_in_box s n e p
                  ∧ d_element_src_procs_map r' !! e = Some (Z.of_nat s)
                  ∧ ∀ s' n',
                      sends_element rs mesh elements_in_box s' n' e p →
                      s ≤ s')
        ∧ StronglySorted Z.lt rendezvous_vertices
        ∧ (∀ g, g ∈ rendezvous_vertices
                ↔ ∃ s n i, sends_vertex rs mesh elements_in_box s n i g p).
Proof.
  intros (Hmesh & Hin_box & Hwf). unfold setupImportCommunication.
  set (P := length rs).
  (* The elements every rank exports. *)
  match goal with
  | |- ∃ _, for_collect ?body _ ≫= _ = _ ∧ _ =>
      destruct (for_collect_total body
        (λ s (ep : list Z * list Z),
           length ep.1 = length ep.2
           ∧ ∀ e p, (e, p) ∈ zip ep.1 ep.2
                    ↔ ∃ r block in_box n,
                        rs !! s = Some r
                        ∧ mesh !! s = Some (Some block)
                        ∧ elements_in_box !! s = Some in_box
                        ∧ elementsView block !! n = Some e
                        ∧ element_destination r block in_box n p)
        (seq 0 P)) as (eps & -> & Heps)
  end.
  { intros s Hs. apply elem_of_seq in Hs.
    destruct (lookup_lt_is_Some_2 rs s) as [r Hr]; [unfold P in Hs; lia|].
    destruct (lookup_lt_is_Some_2 mesh s) as [m Hm]; [unfold P in Hs; lia|].
    destruct (lookup_lt_is_Some_2 elements_in_box s) as [ib Hib];
      [unfold P in Hs; lia|].
    rewrite (array_get_Ok _ _ _ Hr), bind_Ok.
    rewrite (array_get_Ok _ _ _ Hm), bind_Ok.
    rewrite (array_get_Ok _ _ _ Hib), bind_Ok.
    destruct (export_elements_spec r m ib) as (exports & -> & Hexports).
    { intros block ->. destruct (Hwf s r block ib) as (? & ? & ? & ? & ?); auto. }
    eexists; split; [reflexivity|]. cbn [fst snd].
    split; [by rewrite !length_fmap|].
    intros e p. rewrite zip_fst_snd, Hexports. split.
    - intros (block & n & -> & He & Hd). exists r, block, ib, n. done.
    - intros (r' & block & ib' & n & Hr' & Hm' & Hib' & He & Hd).
      simplify_eq. eauto. }
  rewrite bind_Ok.
  apply Forall2_seq_lookup in Heps as [Hleps Heps].
  pose proof (arrivals_zip_lengths eps (λ s ep Hep, proj1 (Heps s ep Hep)))
    as Hplan.
  (* What every rank receives. *)
  match goal with
  | |- ∃ _, for_collect ?body _ ≫= _ = _ ∧ _ =>
      destruct (for_collect_total body
        (λ p (x : Rendezvous.t * list Z),
           ∃ r, rs !! p = Some r
                ∧ import_elements r (snd <$> eps) (fst <$> eps) p = Ok x)
        (seq 0 P)) as (imports & -> & Himports)
  end.
  { intros p Hp. apply elem_of_seq in Hp.
    destruct (lookup_lt_is_Some_2 rs p) as [r Hr]; [unfold P in Hp; lia|].
    rewrite (array_get_Ok _ _ _ Hr), bind_Ok.
    destruct (import_elements_spec r (snd <$> eps) (fst <$> eps) p Hplan)
      as (r' & re & Hrun & _).
    exists (r', re). split; [done|]. eauto. }
  rewrite bind_Ok.
  apply Forall2_seq_lookup in Himports as [Hlimports Himports].
  (* The vertices every rank exports. *)
  match goal with
  | |- ∃ _, for_collect ?body _ ≫= _ = _ ∧ _ =>
      destruct (for_collect_total body
        (λ s (vp : list Z * list Z),
           length vp.1 = length vp.2
           ∧ ∀ g p, (g, p) ∈ zip vp.1 vp.2
                    ↔ ∃ block ep e ei i v,
                        mesh !! s = Some (Some block)
                        ∧ eps !! s = Some ep
                        ∧ (e, p) ∈ zip ep.1 ep.2
                        ∧ index_map (elementsView block) !! e = Some ei
                        ∧ element_has_vertex block
                            (index_map (verticesView block))
                            (Z.to_nat ei) i v
                        ∧ verticesView block !! v = Some g)
        (seq 0 P)) as (vps & -> & Hvps)
  end.
  { intros s Hs. apply elem_of_seq in Hs.
    destruct (lookup_lt_is_Some_2 rs s) as [r Hr]; [unfold P in Hs; lia|].
    destruct (lookup_lt_is_Some_2 mesh s) as [m Hm]; [unfold P in Hs; lia|].
    destruct (lookup_lt_is_Some_2 elements_in_box s) as [ib Hib];
      [unfold P in Hs; lia|].
    destruct (lookup_lt_is_Some_2 eps s) as [[els procs] Hep]; [lia|].
    rewrite (array_get_Ok _ _ _ Hm), bind_Ok.
    rewrite (array_get_Ok _ _ _ Hep), bind_Ok.
    destruct (Heps s _ Hep) as [Hlen Hchar]. cbn [fst snd] in Hlen, Hchar.
    destruct (export_vertices_spec (d_dimension r) m els procs)
      as (exports & -> & Hexports).
    { intros block ->. destruct (Hwf s r block ib) as (? & ? & ? & ? & ?); auto. }
    { intros e p Hin. apply Hchar in Hin
        as (r' & block & ib' & n & Hr' & Hm' & Hib' & He & Hd).
      simplify_eq. exists block. split; [done|].
      by eapply list_elem_of_lookup_2. }
    eexists; split; [reflexivity|]. cbn [fst snd].
    split; [by rewrite !length_fmap|].
    intros g p. rewrite zip_fst_snd, Hexports. split.
    - intros (block & e & ei & i & v & -> & He & Hei & Hv & Hg).
      exists block, (els, procs), e, ei, i, v. done.
    - intros (block & ep & e & ei & i & v & Hm' & Hep' & He & Hei & Hv & Hg).
      simplify_eq. exists block, e, ei, i, v. done. }
  rewrite bind_Ok.
  apply Forall2_seq_lookup in Hvps as [Hlvps Hvps].
  pose proof (arrivals_zip_lengths vps (λ s vp Hvp, proj1 (Hvps s vp Hvp)))
    as Hvplan.
  (* The result. *)
  match goal with
  | |- ∃ _, for_collect ?body _ = _ ∧ _ =>
      destruct (for_collect_total body
        (λ p (x : Rendezvous.t * list Z * list Z),
           ∃ r' re,
             imports !! p = Some (r', re)
             ∧ x = (r', import_vertices (snd <$> vps) (fst <$> vps) p, re))
        (seq 0 P)) as (out & -> & Hout)
  end.
  { intros p Hp. apply elem_of_seq in Hp.
    destruct (lookup_lt_is_Some_2 imports p) as [[r' re] Hx]; [lia|].
    rewrite (array_get_Ok _ _ _ Hx), bind_Ok.
    eexists; split; [reflexivity|]. eauto. }
  apply Forall2_seq_lookup in Hout as [Hlout Hout].
  exists out. split; [done|]. split; [done|].
  intros p r r' rv re Hr Hp.
  destruct (Hout p _ Hp) as (r'' & re' & Himp & Heq).
  injection Heq as <- -> <-.
  destruct (Himports p _ Himp) as (r0 & Hr0 & Hrun).
  rewrite Hr in Hr0. injection Hr0 as <-.
  destruct (import_elements_spec r (snd <$> eps) (fst <$> eps) p Hplan)
    as (r1 & re1 & Hrun1 & Hd & Hb & Hpart & Hmm & Htree & Hsorted & Hmem
        & Hother & Hsrc).
  rewrite Hrun in Hrun1. apply Ok_inj in Hrun1. injection Hrun1 as <- <-.
  (* Arrivals in terms of the mesh. *)
  assert (∀ s e, (s, e) ∈ Tpetra.arrivals (snd <$> eps) (fst <$> eps) p
                 ↔ ∃ n, sends_element rs mesh elements_in_box s n e p)
    as Harr.
  { intros s e. rewrite elem_of_arrivals_zip. split.
    - intros (ep & Hep & Hin). apply (Heps s ep Hep) in Hin
        as (rr & block & ib & n & ? & ? & ? & ? & ?).
      exists n, rr, block, ib. done.
    - intros (n & rr & block & ib & Hrr & Hm & Hib & He & Hd').
      destruct (lookup_lt_is_Some_2 eps s) as [ep Hep];
        [rewrite Hleps; unfold P; by eapply lookup_lt_Some|].
      exists ep. split; [done|]. apply (Heps s ep Hep).
      exists rr, block, ib, n. done. }
  do 5 (split; [done|]). split; [done|]. split; [|split; [done|split]].
  - intros e. rewrite Hmem. split.
    + intros (s & Hs). apply Harr in Hs as (n & Hn). eauto.
    + intros (s & n & Hn). exists s. apply Harr. eauto.
  - intros e He. destruct (Hsrc e He) as (s & Hs & Hmap & Hmin).
    apply Harr in Hs as (n & Hn). exists s, n. split; [done|].
    split; [done|]. intros s' n' Hn'. apply Hmin. apply Harr. eauto.
  - destruct (import_vertices_spec (snd <$> vps) (fst <$> vps) p Hvplan)
      as [Hvsorted Hvmem].
    split; [done|]. intros g. rewrite Hvmem. split.
    + intros (s & Hs). apply elem_of_arrivals_zip in Hs as (vp & Hvp & Hin).
      apply (Hvps s vp Hvp) in Hin
        as (block & ep & e & ei & i & v & Hm & Hep & He & Hei & Hv & Hg).
      apply (Heps s ep Hep) in He
        as (rr & block' & ib & n & Hrr & Hm' & Hib & He & Hd').
      rewrite Hm in Hm'. injection Hm' as <-.
      destruct (Hwf s rr block ib Hrr Hm Hib)
        as ((_ & _ & _ & Hndv) & Hnde & _ & _).
      rewrite (index_map_NoDup _ _ _ Hnde He) in Hei. injection Hei as <-.
      rewrite Nat2Z.id in Hv. destruct Hv as (Hi & gid & Hgid & Hidx).
      apply index_map_lookup in Hidx as [_ Hidx]. rewrite Nat2Z.id in Hidx.
      rewrite Hg in Hidx. injection Hidx as <-.
      exists s, n, i, e, block. split; [|done].
      exists rr, block, ib. done.
    + intros (s & n & i & e & block & (rr & block' & ib & Hrr & Hm' & Hib
                & He & Hd') & Hm & Hi & Hgid).
      rewrite Hm in Hm'. injection Hm' as <-.
      destruct (Hwf s rr block ib Hrr Hm Hib)
        as ((_ & _ & Hclosed & Hndv) & Hnde & _ & _).
      exists s. apply elem_of_arrivals_zip.
      destruct (lookup_lt_is_Some_2 vps s) as [vp Hvp];
        [rewrite Hlvps; unfold P; by eapply lookup_lt_Some|].
      destruct (lookup_lt_is_Some_2 eps s) as [ep Hep];
        [rewrite Hleps; unfold P; by eapply lookup_lt_Some|].
      exists vp. split; [done|]. apply (Hvps s vp Hvp).
      assert (g ∈ verticesView block) as Hg.
      { eapply (proj1 (Forall_forall _ _) Hclosed).
        by eapply list_elem_of_lookup_2. }
      apply list_elem_of_lookup in Hg as [v Hv].
      exists block, ep, e, (Z.of_nat n), i, v.
      split; [done|]. split; [done|]. split.
      { apply (Heps s ep Hep). exists rr, block, ib, n. done. }
      split; [by apply index_map_NoDup|]. split; [|done].
      rewrite Nat2Z.id. split; [done|]. exists g. split; [done|].
      by apply index_map_NoDup.
Qed.
End ImportCommunication.

Section ImportTheorems.
Import Rendezvous RendezvousImport.

(** X15: on well-formed input ([import_well_formed]: where a rank holds a
    block, the block is well formed with distinct element ids and one flag
    per element, and the partitioner is built and answers with ranks of the
    communicator) [setupImportCommunication] returns on every rank.
    The rendezvous elements of a rank are strictly ascending, hence without
    duplicates, and are exactly the active elements some rank holds with a
    vertex whose rendezvous rank is this rank. *)
Theorem setupImportCommunication_rendezvous_elements
    (rs : list Rendezvous.t) (mesh : list (option MeshBlock))
    (elements_in_box : list (list bool)) :
  import_well_formed rs mesh elements_in_box →
  ∃ out,
    setupImportCommunication rs mesh elements_in_box = Ok out
    ∧ length out = length rs
    ∧ ∀ p r' rendezvous_vertices rendezvous_elements,
        out !! p = Some (r', rendezvous_vertices, rendezvous_elements) →
        StronglySorted Z.lt rendezvous_elements
        ∧ ∀ e, e ∈ rendezvous_elements
               ↔ ∃ s n, sends_element rs mesh elements_in_box s n e p.
Proof.
  intros Hwf.
  destruct (setupImportCommunication_spec rs mesh elements_in_box Hwf)
    as (out & Hrun & Hlen & Hout).
  exists out. split; [done|]. split; [done|].
  intros p r' rv re Hp.
  destruct (lookup_lt_is_Some_2 rs p) as [r Hr];
    [rewrite <- Hlen; by eapply lookup_lt_Some|].
  destruct (Hout p r r' rv re Hr Hp)
    as (_ & _ & _ & _ & _ & Hsorted & Hmem & _).
  done.
Qed.

(** X16: after [setupImportCommunication] every rendezvous element of a
    rank has an entry in the element-to-source-rank map: the lowest rank
    that sent the element there (the distributor delivers by sending rank,
    and the first arrival is recorded). Entries of other elements and the
    other members of the engine are as before, and [elementSourceProcs]
    returns on the rendezvous elements. *)
Theorem setupImportCommunication_source_procs
    (rs : list Rendezvous.t) (mesh : list (option MeshBlock))
    (elements_in_box : list (list bool))
    (out : list (Rendezvous.t * list Z * list Z)) (p : nat)
    (r r' : Rendezvous.t) (rendezvous_vertices rendezvous_elements : list Z) :
  import_well_formed rs mesh elements_in_box →
  setupImportCommunication rs mesh elements_in_box = Ok out →
  rs !! p = Some r →
  out !! p = Some (r', rendezvous_vertices, rendezvous_elements) →
  (∀ e, e ∈ rendezvous_elements →
        ∃ s n,
          sends_element rs mesh elements_in_box s n e p
          ∧ d_element_src_procs_map r' !! e = Some (Z.of_nat s)
          ∧ ∀ s' n', sends_element rs mesh elements_in_box s' n' e p →
                     s ≤ s')
  ∧ (∀ e, e ∉ rendezvous_elements →
          d_element_src_procs_map r' !! e = d_element_src_procs_map r !! e)
  ∧ (∃ procs, elementSourceProcs r' rendezvous_elements = Ok procs)
  ∧ r' = Rendezvous.mk (d_dimension r) (d_global_box r) (d_partitioner r)
           (d_rendezvous_mesh_manager r) (d_element_tree r)
           (d_element_src_procs_map r').
Proof.
  intros Hwf Hrun Hr Hp.
  destruct (setupImportCommunication_spec rs mesh elements_in_box Hwf)
    as (out' & Hrun' & Hlen & Hout).
  rewrite Hrun in Hrun'. apply Ok_inj in Hrun' as <-.
  destruct (Hout p r r' rendezvous_vertices rendezvous_elements Hr Hp)
    as (Hd & Hb & Hpart & Hmm & Htree & _ & _ & Hother & Hsrc & _).
  split; [done|]. split; [done|]. split.
  - assert (∀ els : list Z,
              (∀ e, e ∈ els → is_Some (d_element_src_procs_map r' !! e)) →
              ∃ procs,
                Forall2 (λ e proc, d_element_src_procs_map r' !! e = Some proc)
                  els procs) as Hall.
    { induction els as [|e els IH]; intros Hels.
      - exists []. constructor.
      - destruct (Hels e) as [proc Hproc]; [by left|].
        destruct IH as [procs Hprocs];
          [intros e' He'; apply Hels; by right|].
        exists (proc :: procs). by constructor. }
    destruct (Hall rendezvous_elements) as [procs Hprocs].
    { intros e He. destruct (Hsrc e He) as (s & n & _ & Hmap & _). by eexists. }
    exists procs. unfold elementSourceProcs. apply for_collect_Forall2_iff.
    eapply Forall2_impl; [exact Hprocs|]. intros e q. apply map_find_Ok.
  - rewrite <- Hd, <- Hb, <- Hpart, <- Hmm, <- Htree. by destruct r'.
Qed.

(** X17: the rendezvous vertices [setupImportCommunication] gives a rank
    are strictly ascending and are exactly the vertices of the elements
    sent to this rank, taken on the sending ranks. In particular every
    rendezvous element comes with all the vertices its sender's
    connectivity lists for it. *)
Theorem setupImportCommunication_rendezvous_vertices
    (rs : list Rendezvous.t) (mesh : list (option MeshBlock))
    (elements_in_box : list (list bool))
    (out : list (Rendezvous.t * list Z * list Z)) (p : nat)
    (r' : Rendezvous.t) (rendezvous_vertices rendezvous_elements : list Z) :
  import_well_formed rs mesh elements_in_box →
  setupImportCommunication rs mesh elements_in_box = Ok out →
  out !! p = Some (r', rendezvous_vertices, rendezvous_elements) →
  StronglySorted Z.lt rendezvous_vertices
  ∧ (∀ g, g ∈ rendezvous_vertices
          ↔ ∃ s n i, sends_vertex rs mesh elements_in_box s n i g p)
  ∧ (∀ e, e ∈ rendezvous_elements →
          ∃ s n block,
            sends_element rs mesh elements_in_box s n e p
            ∧ mesh !! s = Some (Some block)
            ∧ ∀ i g,
                (i < verticesPerElement block)%nat →
                connectivityView block !! (i * numElements block + n)%nat
                = Some g →
                g ∈ rendezvous_vertices).
Proof.
  intros Hwf Hrun Hp.
  destruct (setupImportCommunication_spec rs mesh elements_in_box Hwf)
    as (out' & Hrun' & Hlen & Hout).
  rewrite Hrun in Hrun'. apply Ok_inj in Hrun' as <-.
  destruct (lookup_lt_is_Some_2 rs p) as [r Hr];
    [rewrite <- Hlen; by eapply lookup_lt_Some|].
  destruct (Hout p r r' rendezvous_vertices rendezvous_elements Hr Hp)
    as (_ & _ & _ & _ & _ & _ & Hmem & _ & _ & Hsorted & Hvmem).
  split; [done|]. split; [done|].
  intros e He. apply Hmem in He as (s & n & Hsends).
  pose proof Hsends as (rr & block & ib & Hrr & Hm & Hib & He & Hd).
  exists s, n, block. split; [done|]. split; [done|].
  intros i g Hi Hg. apply Hvmem. exists s, n, i, e, block. done.
Qed.

Lemma overlap_well_formed :
  import_well_formed overlap_engines overlap_mesh overlap_in_box.
Proof.
  split; [reflexivity|]. split; [reflexivity|].
  intros s r block in_box Hr Hm Hib.
  destruct s as [|[|[|s]]]; simpl in Hr, Hm, Hib; try discriminate;
    injection Hr as <-; injection Hm as <-; injection Hib as <-;
    (split;
       [split; [simpl; lia|split; [simpl; lia|split; by_computation]]|]);
    (split; [by_computation|split; [by eexists|split; [reflexivity|]]]);
    intros partitioner point [= <-]; unfold line_partitioner;
    destruct (Qle_bool _ _); simpl; lia.
Qed.

Lemma setupImportCommunication_rendezvous_elements_witness :
  ∃ out,
    setupImportCommunication overlap_engines overlap_mesh overlap_in_box
    = Ok out
    ∧ length out = length overlap_engines
    ∧ ∀ p r' rendezvous_vertices rendezvous_elements,
        out !! p = Some (r', rendezvous_vertices, rendezvous_elements) →
        StronglySorted Z.lt rendezvous_elements
        ∧ ∀ e, e ∈ rendezvous_elements
               ↔ ∃ s n, sends_element overlap_engines overlap_mesh
                          overlap_in_box s n e p.
Proof.
  apply (setupImportCommunication_rendezvous_elements overlap_engines
           overlap_mesh overlap_in_box).
  exact overlap_well_formed.
Defined.

Lemma setupImportCommunication_source_procs_witness :
  ∃ r',
    overlap_import !! 1%nat = Some (r', [1; 2; 3]%Z, [101; 102]%Z)
    ∧ (∀ e, e ∈ [101; 102]%Z →
            ∃ s n,
              sends_element overlap_engines overlap_mesh overlap_in_box
                s n e 1
              ∧ d_element_src_procs_map r' !! e = Some (Z.of_nat s)
              ∧ ∀ s' n',
                  sends_element overlap_engines overlap_mesh overlap_in_box
                    s' n' e 1 →
                  s ≤ s')
    ∧ (∀ e, e ∉ [101; 102]%Z →
            d_element_src_procs_map r' !! e = (∅ : gmap Z Z) !! e)
    ∧ (∃ procs, elementSourceProcs r' [101; 102]%Z = Ok procs)
    ∧ r' = Rendezvous.mk 1 line_box (Some line_partitioner) None None
             (d_element_src_procs_map r').
Proof.
  eexists. split; [reflexivity|].
  apply (setupImportCommunication_source_procs overlap_engines overlap_mesh
           overlap_in_box overlap_import 1
           (Rendezvous.mk 1 line_box (Some line_partitioner) None None ∅)
           _ [1; 2; 3]%Z [101; 102]%Z).
  - exact overlap_well_formed.
  - vm_compute. reflexivity.
  - reflexivity.
  - reflexivity.
Defined.

Lemma setupImportCommunication_rendezvous_vertices_witness :
  ∃ r',
    overlap_import !! 1%nat = Some (r', [1; 2; 3]%Z, [101; 102]%Z)
    ∧ StronglySorted Z.lt [1; 2; 3]%Z
    ∧ (∀ g, g ∈ [1; 2; 3]%Z
            ↔ ∃ s n i, sends_vertex overlap_engines overlap_mesh
                         overlap_in_box s n i g 1)
    ∧ (∀ e, e ∈ [101; 102]%Z →
            ∃ s n block,
              sends_element overlap_engines overlap_mesh overlap_in_box
                s n e 1
              ∧ overlap_mesh !! s = Some (Some block)
              ∧ ∀ i g,
                  (i < verticesPerElement block)%nat →
                  connectivityView block !! (i * numElements block + n)%nat
                  = Some g →
                  g ∈ [1; 2; 3]%Z).
Proof.
  eexists. split; [reflexivity|].
  eapply (setupImportCommunication_rendezvous_vertices overlap_engines
            overlap_mesh overlap_in_box overlap_import 1
            _ [1; 2; 3]%Z [101; 102]%Z).
  - exact overlap_well_formed.
  - vm_compute. reflexivity.
  - reflexivity.
Defined.
End ImportTheorems.
